(** * AvidaGP: the scope-driven linear-GP virtual CPU of [hardware/AvidaGP.h]

    A shallow embedding of [emp::AvidaGP] and a verification of its
    specification against it, followed by the memories and the arithmetic
    instructions of [emp::EventDrivenGP] and the searches of
    [tools/vector_utils.h].

    Conventions of the embedding.
    - [size_t] values are integers in [Z], with the wrap-around modulo
      [2^64] written out where the code increments or converts; [int]
      instruction arguments are integers in [Z] as well.
    - [double] is the primitive binary64 type [float] of the kernel, so the
      arithmetic of the registers is the machine's.
    - [emp::array<T,REGS>] is a vector [vec T REGS]; [operator[]] is a
      bounds check ([emp_assert(pos < N)], base/array.h) followed by a
      total lookup.
    - [emp::vector] objects used as stacks ([scope_stack], [reg_stack],
      [call_stack], [stacks[i]]) are lists whose head is [back()];
      [genome] is a list in index order.
    - The member functions run in a state-and-error monad over the record
      of the data members.  A failed [emp_assert] and an access outside a
      container are errors: the embedding follows the default build, in
      which [emp_assert] is active. *)

From Stdlib Require Import ZArith String Ascii PrimFloat.
From stdpp Require Import base tactics option list vector strings pretty gmap.

Local Open Scope Z_scope.

(** ** Constants and enumerations *)

Definition REGS : nat := 16.
Definition INST_ARGS : nat := 3.
Definition STACK_CAP : Z := 16.

Inductive InstID : Set :=
  | Inc | Dec | Not | SetReg | Add | Sub | Mult | Div | Mod
  | TestEqu | TestNEqu | TestLess
  | If | While | Countdown | Break | Scope | Define | Call
  | Push | Pop | Input | Output | CopyVal | ScopeReg
  | Unknown.

Global Instance InstID_eq_dec : EqDecision InstID.
Proof. solve_decision. Defined.

Inductive ScopeType : Set := ROOT | BASIC | LOOP | FUNCTION.

Global Instance ScopeType_eq_dec : EqDecision ScopeType.
Proof. solve_decision. Defined.

(** ** Machine integers and doubles *)

(** Conversion of an integer to [size_t] (64 bits, unsigned). *)
Definition to_size_t (z : Z) : Z := z mod 2 ^ 64.

(** Conversion of an integer to [int] (32 bits, two's complement). *)
Definition to_int (z : Z) : Z := (z + 2 ^ 31) mod 2 ^ 32 - 2 ^ 31.

(** [x++] on a [size_t]. *)
Definition size_t_incr (z : Z) : Z := to_size_t (z + 1).

(** [x--] on a [size_t]. *)
Definition size_t_decr (z : Z) : Z := to_size_t (z - 1).

(** Conversion of a positive integer to [double]; exact below [2^53], so
    for every [int] and every container size that occurs. *)
Fixpoint double_of_pos (p : positive) : float :=
  match p with
  | xH => 1%float
  | xO q => PrimFloat.mul 2%float (double_of_pos q)
  | xI q => PrimFloat.add (PrimFloat.mul 2%float (double_of_pos q)) 1%float
  end.

Definition double_of_int (z : Z) : float :=
  match z with
  | Z0 => 0%float
  | Zpos p => double_of_pos p
  | Zneg p => PrimFloat.opp (double_of_pos p)
  end.

Definition double_of_bool (b : bool) : float :=
  if b then 1%float else 0%float.

(** [!x] on a [double]: true exactly when [x == 0.0]. *)
Definition double_is_zero (x : float) : bool := PrimFloat.eqb x 0%float.

(** ** Data members *)

(** [struct Instruction]: an opcode and [emp::array<int,3> args]. *)
Record Instruction : Type := mkInstruction {
  id : InstID;
  args : vec Z INST_ARGS
}.

(** The constructor [Instruction(_id, _a0, _a1, _a2)]. *)
Definition Inst (i : InstID) (a0 a1 a2 : Z) : Instruction :=
  {| id := i; args := [# a0; a1; a2] |}.

(** [inst.args[k]] for the constant indices the code uses. *)
Definition arg0 (inst : Instruction) : Z := args inst !!! 0%fin.
Definition arg1 (inst : Instruction) : Z := args inst !!! 1%fin.
Definition arg2 (inst : Instruction) : Z := args inst !!! 2%fin.

Record ScopeInfo : Type := mkScopeInfo {
  scope : Z;
  type : ScopeType;
  start_pos : Z
}.

Record RegBackup : Type := mkRegBackup {
  rb_scope : Z;
  reg_id : Z;
  value : float
}.

Record AvidaGP : Type := mkAvidaGP {
  genome : list Instruction;
  regs : vec float REGS;
  inputs : vec float REGS;
  outputs : vec float REGS;
  stacks : vec (list float) REGS;
  fun_starts : vec Z REGS;
  inst_ptr : Z;
  scope_stack : list ScopeInfo;
  reg_stack : list RegBackup;
  call_stack : list Z;
  errors : Z
}.

Definition set_genome (g : list Instruction) (st : AvidaGP) : AvidaGP :=
  mkAvidaGP g (regs st) (inputs st) (outputs st) (stacks st) (fun_starts st)
    (inst_ptr st) (scope_stack st) (reg_stack st) (call_stack st) (errors st).
Definition set_regs (r : vec float REGS) (st : AvidaGP) : AvidaGP :=
  mkAvidaGP (genome st) r (inputs st) (outputs st) (stacks st) (fun_starts st)
    (inst_ptr st) (scope_stack st) (reg_stack st) (call_stack st) (errors st).
Definition set_inputs (r : vec float REGS) (st : AvidaGP) : AvidaGP :=
  mkAvidaGP (genome st) (regs st) r (outputs st) (stacks st) (fun_starts st)
    (inst_ptr st) (scope_stack st) (reg_stack st) (call_stack st) (errors st).
Definition set_outputs (r : vec float REGS) (st : AvidaGP) : AvidaGP :=
  mkAvidaGP (genome st) (regs st) (inputs st) r (stacks st) (fun_starts st)
    (inst_ptr st) (scope_stack st) (reg_stack st) (call_stack st) (errors st).
Definition set_stacks (s : vec (list float) REGS) (st : AvidaGP) : AvidaGP :=
  mkAvidaGP (genome st) (regs st) (inputs st) (outputs st) s (fun_starts st)
    (inst_ptr st) (scope_stack st) (reg_stack st) (call_stack st) (errors st).
Definition set_fun_starts (f : vec Z REGS) (st : AvidaGP) : AvidaGP :=
  mkAvidaGP (genome st) (regs st) (inputs st) (outputs st) (stacks st) f
    (inst_ptr st) (scope_stack st) (reg_stack st) (call_stack st) (errors st).
Definition set_inst_ptr (p : Z) (st : AvidaGP) : AvidaGP :=
  mkAvidaGP (genome st) (regs st) (inputs st) (outputs st) (stacks st)
    (fun_starts st) p (scope_stack st) (reg_stack st) (call_stack st)
    (errors st).
Definition set_scope_stack (s : list ScopeInfo) (st : AvidaGP) : AvidaGP :=
  mkAvidaGP (genome st) (regs st) (inputs st) (outputs st) (stacks st)
    (fun_starts st) (inst_ptr st) s (reg_stack st) (call_stack st) (errors st).
Definition set_reg_stack (s : list RegBackup) (st : AvidaGP) : AvidaGP :=
  mkAvidaGP (genome st) (regs st) (inputs st) (outputs st) (stacks st)
    (fun_starts st) (inst_ptr st) (scope_stack st) s (call_stack st)
    (errors st).
Definition set_call_stack (s : list Z) (st : AvidaGP) : AvidaGP :=
  mkAvidaGP (genome st) (regs st) (inputs st) (outputs st) (stacks st)
    (fun_starts st) (inst_ptr st) (scope_stack st) (reg_stack st) s
    (errors st).
Definition set_errors (e : Z) (st : AvidaGP) : AvidaGP :=
  mkAvidaGP (genome st) (regs st) (inputs st) (outputs st) (stacks st)
    (fun_starts st) (inst_ptr st) (scope_stack st) (reg_stack st)
    (call_stack st) e.

(** ** The state-and-error monad of the member functions *)

Inductive fault : Set :=
  | AssertFail   (* an [emp_assert] does not hold *)
  | OutOfRange   (* [operator[]] or [back()] outside a vector *)
  | OutOfFuel.   (* the recursion bound of the embedding is exhausted *)

Inductive result (A : Type) : Type :=
  | Ok (a : A)
  | Err (e : fault).
Arguments Ok {A} a.
Arguments Err {A} e.

Definition M (A : Type) : Type := AvidaGP -> result (A * AvidaGP).

Definition ret {A} (a : A) : M A := fun st => Ok (a, st).

Definition bind {A B} (m : M A) (k : A -> M B) : M B :=
  fun st => match m st with
            | Ok (a, st') => k a st'
            | Err e => Err e
            end.

Definition fail {A} (e : fault) : M A := fun _ => Err e.
Definition get {A} (f : AvidaGP -> A) : M A := fun st => Ok (f st, st).
Definition modify (f : AvidaGP -> AvidaGP) : M unit := fun st => Ok (tt, f st).

Declare Scope avida_scope.
Delimit Scope avida_scope with avida.
Notation "x <- c ;; k" := (bind c (fun x => k))
  (at level 100, c at next level, right associativity) : avida_scope.
Notation "c ;;; k" := (bind c (fun _ => k))
  (at level 100, k at level 200, right associativity) : avida_scope.
Local Open Scope avida_scope.

Definition emp_assert (b : bool) : M unit :=
  if b then ret tt else fail AssertFail.

(** The state a computation ends in, if it ends without an error. *)
Definition exec {A} (m : M A) (st : AvidaGP) : result AvidaGP :=
  match m st with
  | Ok (_, st') => Ok st'
  | Err e => Err e
  end.

(** ** Containers *)

(** The position [pos] of a [size_t] index within [0, n), if it is there. *)
Fixpoint fin_of_nat (n pos : nat) : option (fin n) :=
  match n with
  | O => None
  | S n' => match pos with
            | O => Some 0%fin
            | S pos' => FS <$> fin_of_nat n' pos'
            end
  end.

(** [emp::array<T,N>::operator[](size_t pos)]: [emp_assert(pos < N)].  An
    [int] argument is converted to [size_t] at the call. *)
Definition array_index (n : nat) (pos : Z) : M (fin n) :=
  let pos := to_size_t pos in
  if pos <? Z.of_nat n then
    match fin_of_nat n (Z.to_nat pos) with
    | Some i => ret i
    | None => fail AssertFail
    end
  else fail AssertFail.

(** Modelled from the spec: [emp::vector] (base/vector.h) is not among the
    sources.  Section 7 of the specification counts "instruction position
    out of range" among the contract violations; [operator[]] outside the
    vector and [back()] of an empty vector are errors here, as they are for
    the bounds-checked array wrapper of base/array.h. *)
Definition vector_at {A} (v : list A) (pos : Z) : M A :=
  let pos := to_size_t pos in
  if pos <? Z.of_nat (length v) then
    match v !! Z.to_nat pos with
    | Some x => ret x
    | None => fail OutOfRange
    end
  else fail OutOfRange.

Definition vector_back {A} (v : list A) : M A :=
  match v with
  | x :: _ => ret x
  | [] => fail OutOfRange
  end.

(** [v.size()] as a [size_t]. *)
Definition size {A} (v : list A) : Z := Z.of_nat (length v).

(** ** Register file and auxiliary stacks *)

(** [regs[a]] read, and [regs[a] = v]. *)
Definition reg_read (a : Z) : M float :=
  i <- array_index REGS a ;;
  r <- get regs ;;
  ret (r !!! i).

Definition reg_write (a : Z) (v : float) : M unit :=
  i <- array_index REGS a ;;
  r <- get regs ;;
  modify (set_regs (vinsert i v r)).

Definition PopStack (sid : Z) : M float :=
  i <- array_index REGS sid ;;
  s <- get stacks ;;
  match s !!! i with
  | [] => ret 0%float
  | out :: rest => modify (set_stacks (vinsert i rest s)) ;;; ret out
  end.

Definition PushStack (sid : Z) (v : float) : M unit :=
  i <- array_index REGS sid ;;
  s <- get stacks ;;
  if STACK_CAP <=? size (s !!! i) then ret tt
  else modify (set_stacks (vinsert i (v :: s !!! i) s)).

(** ** The scope engine *)

Definition CurScope : M Z :=
  ss <- get scope_stack ;;
  top <- vector_back ss ;;
  ret (scope top).

Definition CurScopeType : M ScopeType :=
  ss <- get scope_stack ;;
  top <- vector_back ss ;;
  ret (type top).

(** The loop of [ExitScope]:
    [while (reg_stack.size() && reg_stack.back().scope == CurScope())],
    by recursion on the backup stack it pops. *)
Fixpoint ExitScope_restore (rs : list RegBackup) : M unit :=
  match rs with
  | [] => ret tt
  | b :: rs' =>
      cur <- CurScope ;;
      if rb_scope b =? cur then
        reg_write (reg_id b) (value b) ;;;
        modify (set_reg_stack rs') ;;;
        ExitScope_restore rs'
      else ret tt
  end.

Definition ExitScope : M unit :=
  ss <- get scope_stack ;;
  emp_assert (1 <? size ss) ;;;
  emp_assert (size ss <=? Z.of_nat REGS) ;;;
  rs <- get reg_stack ;;
  ExitScope_restore rs ;;;
  modify (set_scope_stack (tail ss)).

Definition InstScope (inst : Instruction) : Z :=
  match id inst with
  | If | While | Countdown | Define => to_size_t (arg1 inst + 1)
  | Scope => to_size_t (arg0 inst + 1)
  | _ => 0
  end.

(** The loop of [BypassScope]: [while (inst_ptr+1 < genome.size())].  Every
    round advances [inst_ptr] below [genome.size()], so [S (length genome)]
    rounds are never used up. *)
Fixpoint BypassScope_loop (n : nat) (scope_ : Z) : M unit :=
  match n with
  | O => fail OutOfFuel
  | S n' =>
      ip <- get inst_ptr ;;
      g <- get genome ;;
      if size_t_incr ip <? size g then
        modify (set_inst_ptr (size_t_incr ip)) ;;;
        inst <- vector_at g (size_t_incr ip) ;;
        let test_scope := InstScope inst in
        if negb (test_scope =? 0) && (test_scope <=? scope_) then
          modify (set_inst_ptr (size_t_decr (size_t_incr ip)))
        else BypassScope_loop n' scope_
      else ret tt
  end.

Definition BypassScope (scope_ : Z) : M unit :=
  let scope_ := size_t_incr scope_ in
  cur <- CurScope ;;
  if cur <? scope_ then ret tt
  else
    ExitScope ;;;
    g <- get genome ;;
    BypassScope_loop (S (length g)) scope_.

(** The loop of [ResetIP]: [while (scope_stack.size() > 1) ExitScope()].
    Every round pops one frame. *)
Fixpoint ResetIP_loop (n : nat) : M unit :=
  match n with
  | O => fail OutOfFuel
  | S n' =>
      ss <- get scope_stack ;;
      if 1 <? size ss then ExitScope ;;; ResetIP_loop n' else ret tt
  end.

Definition ResetIP : M unit :=
  modify (set_inst_ptr 0) ;;;
  ss <- get scope_stack ;;
  ResetIP_loop (S (length ss)) ;;;
  modify (set_call_stack []).

(** Lines 158 to 163 of [UpdateScope]: the return from a function call. *)
Definition UpdateScope_return : M unit :=
  cs <- get call_stack ;;
  ret_pos <- vector_back cs ;;
  modify (set_inst_ptr ret_pos) ;;;
  g <- get genome ;;
  if size g <=? ret_pos then ResetIP
  else
    modify (set_call_stack (tail cs)) ;;;
    ExitScope.

Section UpdateScope.
(** The two functions [UpdateScope] calls: [ProcessInst] and itself. *)
Variable ProcessInst_rec : Instruction -> M unit.
Variable UpdateScope_rec : Z -> ScopeType -> M bool.

Definition UpdateScope_body (new_scope : Z) (type_ : ScopeType) : M bool :=
  cur_scope <- CurScope ;;
  let new_scope := size_t_incr new_scope in
  if cur_scope <? new_scope then
    ss <- get scope_stack ;;
    ip <- get inst_ptr ;;
    modify (set_scope_stack (mkScopeInfo new_scope type_ ip :: ss)) ;;;
    ret true
  else
    cur_type <- CurScopeType ;;
    match cur_type with
    | LOOP =>
        ss <- get scope_stack ;;
        top <- vector_back ss ;;
        modify (set_inst_ptr (start_pos top)) ;;;
        ExitScope ;;;
        g <- get genome ;;
        ip <- get inst_ptr ;;
        inst <- vector_at g ip ;;
        ProcessInst_rec inst ;;;
        ret false
    | FUNCTION =>
        UpdateScope_return ;;;
        g <- get genome ;;
        ip <- get inst_ptr ;;
        inst <- vector_at g ip ;;
        ProcessInst_rec inst ;;;
        ret false
    | _ =>
        ExitScope ;;;
        UpdateScope_rec new_scope type_
    end.
End UpdateScope.

(** ** The dispatcher *)

Section ProcessInst.
Variable UpdateScope : Z -> ScopeType -> M bool.

Definition ProcessInst_body (inst : Instruction) : M unit :=
  match id inst with
  | Inc =>
      x <- reg_read (arg0 inst) ;;
      reg_write (arg0 inst) (PrimFloat.add x 1%float)
  | Dec =>
      x <- reg_read (arg0 inst) ;;
      reg_write (arg0 inst) (PrimFloat.sub x 1%float)
  | Not =>
      x <- reg_read (arg0 inst) ;;
      reg_write (arg0 inst) (double_of_bool (double_is_zero x))
  | SetReg =>
      reg_write (arg0 inst) (double_of_int (arg1 inst))
  | Add =>
      x <- reg_read (arg0 inst) ;;
      y <- reg_read (arg1 inst) ;;
      reg_write (arg2 inst) (PrimFloat.add x y)
  | Sub =>
      x <- reg_read (arg0 inst) ;;
      y <- reg_read (arg1 inst) ;;
      reg_write (arg2 inst) (PrimFloat.sub x y)
  | Mult =>
      x <- reg_read (arg0 inst) ;;
      y <- reg_read (arg1 inst) ;;
      reg_write (arg2 inst) (PrimFloat.mul x y)
  | Div =>
      denom <- reg_read (arg1 inst) ;;
      if PrimFloat.eqb denom 0%float then
        e <- get errors ;;
        modify (set_errors (size_t_incr e))
      else
        x <- reg_read (arg0 inst) ;;
        reg_write (arg2 inst) (PrimFloat.div x denom)
  | Mod =>
      base <- reg_read (arg1 inst) ;;
      if PrimFloat.eqb base 0%float then
        e <- get errors ;;
        modify (set_errors (size_t_incr e))
      else
        x <- reg_read (arg0 inst) ;;
        reg_write (arg2 inst) (PrimFloat.div x base)
  | TestEqu =>
      x <- reg_read (arg0 inst) ;;
      y <- reg_read (arg1 inst) ;;
      reg_write (arg2 inst) (double_of_bool (PrimFloat.eqb x y))
  | TestNEqu =>
      x <- reg_read (arg0 inst) ;;
      y <- reg_read (arg1 inst) ;;
      reg_write (arg2 inst) (double_of_bool (negb (PrimFloat.eqb x y)))
  | TestLess =>
      x <- reg_read (arg0 inst) ;;
      y <- reg_read (arg1 inst) ;;
      reg_write (arg2 inst) (double_of_bool (PrimFloat.ltb x y))
  | If =>
      entered <- UpdateScope (to_size_t (arg1 inst)) BASIC ;;
      if negb entered then ret tt
      else
        t <- reg_read (arg0 inst) ;;
        if double_is_zero t then BypassScope (to_size_t (arg1 inst))
        else ret tt
  | While =>
      entered <- UpdateScope (to_size_t (arg1 inst)) LOOP ;;
      if negb entered then ret tt
      else
        t <- reg_read (arg0 inst) ;;
        if double_is_zero t then BypassScope (to_size_t (arg1 inst))
        else ret tt
  | Countdown =>
      entered <- UpdateScope (to_size_t (arg1 inst)) LOOP ;;
      if negb entered then ret tt
      else
        t <- reg_read (arg0 inst) ;;
        if double_is_zero t then BypassScope (to_size_t (arg1 inst))
        else reg_write (arg0 inst) (PrimFloat.sub t 1%float)
  | Break => BypassScope (to_size_t (arg0 inst))
  | Scope =>
      UpdateScope (to_size_t (arg0 inst)) BASIC ;;;
      ret tt
  | Define =>
      entered <- UpdateScope (to_size_t (arg1 inst)) BASIC ;;
      if negb entered then ret tt
      else
        i <- array_index REGS (arg0 inst) ;;
        f <- get fun_starts ;;
        ip <- get inst_ptr ;;
        modify (set_fun_starts (vinsert i (to_int ip) f)) ;;;
        BypassScope (to_size_t (arg1 inst))
  | Call =>
      i <- array_index REGS (arg0 inst) ;;
      f <- get fun_starts ;;
      let def_pos := to_size_t (f !!! i) in
      g <- get genome ;;
      if size g <=? def_pos then ret tt
      else
        def <- vector_at g def_pos ;;
        if negb (bool_decide (id def = Define)) then ret tt
        else
          let fun_scope := to_size_t (arg1 def) in
          entered <- UpdateScope fun_scope FUNCTION ;;
          if negb entered then ret tt
          else
            cs <- get call_stack ;;
            ip <- get inst_ptr ;;
            modify (set_call_stack (size_t_incr ip :: cs)) ;;;
            modify (set_inst_ptr (size_t_incr def_pos))
  | Push =>
      x <- reg_read (arg0 inst) ;;
      PushStack (arg1 inst) x
  | Pop =>
      x <- PopStack (arg0 inst) ;;
      reg_write (arg1 inst) x
  | Input =>
      i <- array_index REGS (arg0 inst) ;;
      inp <- get inputs ;;
      reg_write (arg1 inst) (inp !!! i)
  | Output =>
      x <- reg_read (arg0 inst) ;;
      o <- array_index REGS (arg1 inst) ;;
      out <- get outputs ;;
      modify (set_outputs (vinsert o x out))
  | CopyVal =>
      x <- reg_read (arg0 inst) ;;
      reg_write (arg1 inst) x
  | ScopeReg =>
      cur <- CurScope ;;
      x <- reg_read (arg0 inst) ;;
      rs <- get reg_stack ;;
      modify (set_reg_stack
                (mkRegBackup cur (to_size_t (arg0 inst)) x :: rs))
  | Unknown => fail AssertFail
  end.
End ProcessInst.

(** [ProcessInst] and [UpdateScope] call each other; the embedding ties the
    knot by recursion on a bound on the depth of these calls. *)
Fixpoint ProcessInst_fuel (fuel : nat) (inst : Instruction) (st : AvidaGP)
    {struct fuel} : result (unit * AvidaGP) :=
  match fuel with
  | O => Err OutOfFuel
  | S n => ProcessInst_body (UpdateScope_fuel n) inst st
  end
with UpdateScope_fuel (fuel : nat) (new_scope : Z) (type_ : ScopeType)
    (st : AvidaGP) {struct fuel} : result (bool * AvidaGP) :=
  match fuel with
  | O => Err OutOfFuel
  | S n =>
      UpdateScope_body (ProcessInst_fuel n) (UpdateScope_fuel n)
        new_scope type_ st
  end.

(** Every nested call is made after a scope frame has been popped, or
    after [ResetIP] has emptied the call stack, so the depth of the calls
    is bounded by the state. *)
Definition depth_bound (st : AvidaGP) : nat :=
  (4 * length (scope_stack st) + 6)%nat.

Definition ProcessInst (inst : Instruction) : M unit :=
  fun st => ProcessInst_fuel (depth_bound st) inst st.

(** [UpdateScope] as the case of an instruction dispatched in [st] calls it,
    with the depth that [ProcessInst] leaves to it. *)
Definition UpdateScope (new_scope : Z) (type_ : ScopeType) : M bool :=
  fun st =>
    UpdateScope_fuel (4 * length (scope_stack st) + 5) new_scope type_ st.

Definition SingleProcess : M unit :=
  ip <- get inst_ptr ;;
  g <- get genome ;;
  (if size g <=? ip then ResetIP else ret tt) ;;;
  ip <- get inst_ptr ;;
  inst <- vector_at g ip ;;
  ProcessInst inst ;;;
  ip <- get inst_ptr ;;
  modify (set_inst_ptr (size_t_incr ip)).

Fixpoint Process (num_inst : nat) : M unit :=
  match num_inst with
  | O => ret tt
  | S n => SingleProcess ;;; Process n
  end.

(** ** Reset and genome editing *)

(** [for (size_t i = 0; i < REGS; i++) body(i)], over the values of [i]. *)
Fixpoint for_each (l : list Z) (body : Z -> M unit) : M unit :=
  match l with
  | [] => ret tt
  | i :: l' => body i ;;; for_each l' body
  end.

(** The body of the loop of [ResetHardware]. *)
Definition ResetHardware_body (i : Z) : M unit :=
  reg_write i (double_of_int i) ;;;
  (k <- array_index REGS i ;;
   inp <- get inputs ;;
   modify (set_inputs (vinsert k 0%float inp))) ;;;
  (k <- array_index REGS i ;;
   out <- get outputs ;;
   modify (set_outputs (vinsert k 0%float out))) ;;;
  (k <- array_index REGS i ;;
   s <- get stacks ;;
   modify (set_stacks (vinsert k [] s))) ;;;
  (k <- array_index REGS i ;;
   f <- get fun_starts ;;
   modify (set_fun_starts (vinsert k (-1) f))).

Definition ResetHardware : M unit :=
  for_each (Z.of_nat <$> seq 0 REGS) ResetHardware_body ;;;
  modify (set_errors 0) ;;;
  ResetIP.

Definition Reset : M unit :=
  modify (set_genome []) ;;;
  ResetHardware.

(** The members when the body of the constructor starts (the arrays are
    value-initialised), after [scope_stack.emplace_back(0, ROOT, 0)]. *)
Definition AvidaGP_members : AvidaGP :=
  {| genome := [];
     regs := vreplicate REGS 0%float;
     inputs := vreplicate REGS 0%float;
     outputs := vreplicate REGS 0%float;
     stacks := vreplicate REGS [];
     fun_starts := vreplicate REGS 0;
     inst_ptr := 0;
     scope_stack := [mkScopeInfo 0 ROOT 0];
     reg_stack := [];
     call_stack := [];
     errors := 0 |}.

(** The constructor [AvidaGP()]. *)
Definition AvidaGP_new : result AvidaGP := exec Reset AvidaGP_members.

Definition GetReg (rid : Z) : M float := reg_read rid.
Definition GetIP : M Z := get inst_ptr.
Definition GetOutput (oid : Z) : M float :=
  i <- array_index REGS oid ;;
  out <- get outputs ;;
  ret (out !!! i).

(** [genome[pos] = inst]. *)
Definition SetInst (pos : Z) (inst : Instruction) : M unit :=
  g <- get genome ;;
  vector_at g pos ;;;
  modify (set_genome (<[Z.to_nat (to_size_t pos) := inst]> g)).

Definition SetGenome (g : list Instruction) : M unit :=
  modify (set_genome g).

Definition PushInst (inst : Instruction) : M unit :=
  g <- get genome ;;
  modify (set_genome (g ++ [inst])).

(** [GetInst(pos)]: [genome[pos]], and [GetGenome()]. *)
Definition GetInst (pos : Z) : M Instruction :=
  g <- get genome ;;
  vector_at g pos.

Definition GetGenome : M (list Instruction) := get genome.

(** [Instruction::Set(_id, _a0, _a1, _a2)]: the opcode and the three
    arguments are assigned in turn. *)
Definition Instruction_Set (i : InstID) (a0 a1 a2 : Z) (inst : Instruction)
    : Instruction :=
  let inst := {| id := i; args := args inst |} in
  let inst := {| id := id inst; args := vinsert 0%fin a0 (args inst) |} in
  let inst := {| id := id inst; args := vinsert 1%fin a1 (args inst) |} in
  {| id := id inst; args := vinsert 2%fin a2 (args inst) |}.

(** The overload [SetInst(pos, id, a0, a1, a2)]:
    [genome[pos].Set(id, a0, a1, a2)]. *)
Definition SetInst_id (pos : Z) (i : InstID) (a0 a1 a2 : Z) : M unit :=
  g <- get genome ;;
  old <- vector_at g pos ;;
  modify (set_genome
            (<[Z.to_nat (to_size_t pos) := Instruction_Set i a0 a1 a2 old]> g)).

(** The overload [PushInst(id, a0, a1, a2)]:
    [genome.emplace_back(id, a0, a1, a2)] constructs the instruction in
    place. *)
Definition PushInst_id (i : InstID) (a0 a1 a2 : Z) : M unit :=
  g <- get genome ;;
  modify (set_genome (g ++ [Inst i a0 a1 a2])).

(** ** Running a genome on a new machine *)

Definition run (g : list Instruction) (steps : nat) : result AvidaGP :=
  match AvidaGP_new with
  | Ok st => exec (SetGenome g ;;; Process steps) st
  | Err e => Err e
  end.

Definition reg_of (r : result AvidaGP) (i : fin REGS) : option float :=
  match r with
  | Ok st => Some (regs st !!! i)
  | Err _ => None
  end.

(** ** The genome printer *)

(** Modelled from the spec: [InstLib.h] is not among the sources.  The
    library is "a static registry mapping each opcode to a display name,
    argument count, and human description"; [GetName] and [GetNumArgs]
    return what [GetInstLib] registers with [AddInst]. *)
Definition GetName (i : InstID) : string :=
  match i with
  | Inc => "Inc" | Dec => "Dec" | Not => "Not" | SetReg => "SetReg"
  | Add => "Add" | Sub => "Sub" | Mult => "Mult" | Div => "Div"
  | Mod => "Mod" | TestEqu => "TestEqu" | TestNEqu => "TestNEqu"
  | TestLess => "TestLess" | If => "If" | While => "While"
  | Countdown => "Countdown" | Break => "Break" | Scope => "Scope"
  | Define => "Define" | Call => "Call" | Push => "Push" | Pop => "Pop"
  | Input => "Input" | Output => "Output" | CopyVal => "CopyVal"
  | ScopeReg => "ScopeReg" | Unknown => "Unknown"
  end.

Definition GetNumArgs (i : InstID) : nat :=
  match i with
  | Inc | Dec | Not | Break | Scope | Call | ScopeReg => 1
  | SetReg | If | While | Define | Push | Pop | Input | Output | CopyVal => 2
  | Add | Sub | Mult | Div | Mod | TestEqu | TestNEqu | TestLess
  | Countdown => 3
  | Unknown => 0
  end.

(** The line feed. *)
Definition endl : string := String (ascii_of_nat 10) EmptyString.

(** [for (size_t i = 0; i < n; i++) os << ' ';] *)
Fixpoint put_spaces (n : nat) (os : string) : string :=
  match n with
  | O => os
  | S k => put_spaces k (os +:+ " ")
  end.

(** [for (size_t i = 0; i < num_args; i++) os << ' ' << inst.args[i];] *)
Fixpoint put_args (l : list Z) (os : string) : string :=
  match l with
  | [] => os
  | a :: l' => put_args l' (os +:+ " " +:+ pretty a)
  end.

(** The body of the loop of [PrintGenome], on the pair of [cur_scope] and
    the stream [os]. *)
Definition PrintGenome_body (acc : Z * string) (inst : Instruction)
    : Z * string :=
  let (cur_scope, os) := acc in
  let new_scope := InstScope inst in
  let os :=
    if negb (new_scope =? 0) && (new_scope =? cur_scope)
    then put_spaces (Z.to_nat cur_scope) os +:+ "----" +:+ endl
    else os in
  let cur_scope :=
    if negb (new_scope =? 0) && (new_scope <? cur_scope)
    then size_t_decr new_scope
    else cur_scope in
  let os := put_spaces (Z.to_nat cur_scope) os in
  let os := os +:+ GetName (id inst) in
  let os := put_args (take (GetNumArgs (id inst)) (vec_to_list (args inst))) os in
  let os :=
    if negb (new_scope =? 0) && (cur_scope <? new_scope)
    then os +:+ " --> "
    else os in
  let cur_scope := if negb (new_scope =? 0) then new_scope else cur_scope in
  (cur_scope, os +:+ endl).

(** [PrintGenome(os)]: what is written to the stream. *)
Definition PrintGenome (g : list Instruction) : string :=
  snd (fold_left PrintGenome_body g (0, EmptyString)).

(** * EventDrivenGP: the memories and the arithmetic instructions of
    [hardware/EventDrivenGP.h]

    The second class of the sources.  Its memories are
    [std::unordered_map<int, double>], finite maps here.  A [Ptr] is the
    object it points to, or nothing for [nullptr]; dereferencing [nullptr]
    is an error, as in the default build of [base/Ptr.h].  The functions
    embedded read and write the call stack [cur_core] points to and the
    error counter; [execution_stacks], which holds the same pointer, the
    program and the event queue are not touched by them and are left out of
    the record. *)

Module EventDrivenGP.

Definition AFFINITY_WIDTH : nat := 4.
Definition MAX_INST_ARGS : nat := 3.
Definition DEFAULT_MEM_VALUE : float := 0%float.

(** [mem_key_t] is [int], [mem_val_t] is [double] and [memory_t] is
    [std::unordered_map<mem_key_t, mem_val_t>]. *)
Abbreviation mem_key_t := Z.
Abbreviation mem_val_t := float.
Abbreviation memory_t := (gmap Z float).

Inductive BlockType : Set := NONE | BASIC | LOOP.

Record Block : Type := mkBlock {
  block_begin : Z;
  block_end : Z;
  block_type : BlockType
}.

(** [struct State], without [shared_mem_ptr]: the shared memory is a
    member of the hardware. *)
Record State : Type := mkState {
  local_mem : memory_t;
  input_mem : memory_t;
  output_mem : memory_t;
  func_ptr : Z;
  inst_ptr : Z;
  block_stack : list Block;
  is_main : bool
}.

Definition set_local_mem (m : memory_t) (s : State) : State :=
  mkState m (input_mem s) (output_mem s) (func_ptr s) (inst_ptr s)
    (block_stack s) (is_main s).
Definition set_input_mem (m : memory_t) (s : State) : State :=
  mkState (local_mem s) m (output_mem s) (func_ptr s) (inst_ptr s)
    (block_stack s) (is_main s).
Definition set_output_mem (m : memory_t) (s : State) : State :=
  mkState (local_mem s) (input_mem s) m (func_ptr s) (inst_ptr s)
    (block_stack s) (is_main s).

(** [Has(map, key)] of [tools/map_utils.h]: the key is in the map. *)
Definition Has (m : memory_t) (key : mem_key_t) : bool :=
  bool_decide (is_Some (m !! key)).

(** [m[key]], the [operator[]] of [std::unordered_map]: the value at [key],
    after a value-initialised entry has been inserted where there was
    none. *)
Definition at_key (key : mem_key_t) (m : memory_t) : mem_val_t * memory_t :=
  match m !! key with
  | Some v => (v, m)
  | None => (0%float, <[key := 0%float]> m)
  end.

(** The body shared by [GetLocal], [GetInput], [GetOutput] and
    [GetShared], on the memory each of them names. *)
Definition Get (key : mem_key_t) (m : memory_t) : mem_val_t * memory_t :=
  if negb (Has m key) then (DEFAULT_MEM_VALUE, m) else at_key key m.

(** The body shared by [SetLocal], ..., [SetShared]: [m[key] = value]. *)
Definition Set_ (key : mem_key_t) (value : mem_val_t) (m : memory_t)
    : memory_t :=
  <[key := value]> (snd (at_key key m)).

(** The body shared by [AccessLocal], ..., [AccessShared].  The reference
    it returns is the entry at [key] of the memory returned; the value is
    what the entry holds. *)
Definition Access (key : mem_key_t) (m : memory_t) : mem_val_t * memory_t :=
  let m := if negb (Has m key) then Set_ key DEFAULT_MEM_VALUE m else m in
  at_key key m.

Definition GetLocal (key : mem_key_t) (s : State) : mem_val_t * State :=
  let (v, m) := Get key (local_mem s) in (v, set_local_mem m s).
Definition GetInput (key : mem_key_t) (s : State) : mem_val_t * State :=
  let (v, m) := Get key (input_mem s) in (v, set_input_mem m s).
Definition GetOutput (key : mem_key_t) (s : State) : mem_val_t * State :=
  let (v, m) := Get key (output_mem s) in (v, set_output_mem m s).

Definition SetLocal (key : mem_key_t) (value : mem_val_t) (s : State) : State :=
  set_local_mem (Set_ key value (local_mem s)) s.
Definition SetInput (key : mem_key_t) (value : mem_val_t) (s : State) : State :=
  set_input_mem (Set_ key value (input_mem s)) s.
Definition SetOutput (key : mem_key_t) (value : mem_val_t) (s : State) : State :=
  set_output_mem (Set_ key value (output_mem s)) s.

Definition AccessLocal (key : mem_key_t) (s : State) : mem_val_t * State :=
  let (v, m) := Access key (local_mem s) in (v, set_local_mem m s).
Definition AccessInput (key : mem_key_t) (s : State) : mem_val_t * State :=
  let (v, m) := Access key (input_mem s) in (v, set_input_mem m s).
Definition AccessOutput (key : mem_key_t) (s : State) : mem_val_t * State :=
  let (v, m) := Access key (output_mem s) in (v, set_output_mem m s).

(** [struct Instruction]. *)
Record Instruction : Type := mkInstruction {
  id : Z;
  args : vec Z MAX_INST_ARGS;
  affinity : vec bool AFFINITY_WIDTH
}.

Definition arg0 (inst : Instruction) : Z := args inst !!! 0%fin.
Definition arg1 (inst : Instruction) : Z := args inst !!! 1%fin.
Definition arg2 (inst : Instruction) : Z := args inst !!! 2%fin.

(** The members the embedded functions use: the shared memory
    [*shared_mem_ptr], the call stack [*cur_core] with [back()] at its
    head, or nothing where [cur_core] is [nullptr], and [errors]. *)
Record Hardware : Type := mkHardware {
  shared_mem : memory_t;
  cur_core : option (list State);
  errors : Z
}.

Definition set_cur_core (c : option (list State)) (hw : Hardware) : Hardware :=
  mkHardware (shared_mem hw) c (errors hw).
Definition set_errors (e : Z) (hw : Hardware) : Hardware :=
  mkHardware (shared_mem hw) (cur_core hw) e.

(** [GetShared], [SetShared] and [AccessShared] go through
    [shared_mem_ptr] to the memory of the hardware. *)
Definition GetShared (key : mem_key_t) (hw : Hardware) : mem_val_t * Hardware :=
  let (v, m) := Get key (shared_mem hw) in
  (v, mkHardware m (cur_core hw) (errors hw)).
Definition SetShared (key : mem_key_t) (value : mem_val_t) (hw : Hardware)
    : Hardware :=
  mkHardware (Set_ key value (shared_mem hw)) (cur_core hw) (errors hw).
Definition AccessShared (key : mem_key_t) (hw : Hardware)
    : mem_val_t * Hardware :=
  let (v, m) := Access key (shared_mem hw) in
  (v, mkHardware m (cur_core hw) (errors hw)).

(** [GetCurState()]: [cur_core->back()], or [nullptr]. *)
Definition GetCurState (hw : Hardware) : option State :=
  match cur_core hw with
  | Some (s :: _) => Some s
  | _ => None
  end.

(** [State & state = *hw.GetCurState(); state = body(state)]: the state on
    top of the current core is updated in place. *)
Definition on_cur_state (body : State -> State) (hw : Hardware)
    : result Hardware :=
  match cur_core hw with
  | Some (s :: rest) => Ok (set_cur_core (Some (body s :: rest)) hw)
  | _ => Err AssertFail
  end.

(** [++state.AccessLocal(inst.args[0])]. *)
Definition Inst_Inc (inst : Instruction) (hw : Hardware) : result Hardware :=
  on_cur_state
    (fun s => let (v, s) := AccessLocal (arg0 inst) s in
              SetLocal (arg0 inst) (PrimFloat.add v 1%float) s) hw.

Definition Inst_Dec (inst : Instruction) (hw : Hardware) : result Hardware :=
  on_cur_state
    (fun s => let (v, s) := AccessLocal (arg0 inst) s in
              SetLocal (arg0 inst) (PrimFloat.sub v 1%float) s) hw.

Definition Inst_Not (inst : Instruction) (hw : Hardware) : result Hardware :=
  on_cur_state
    (fun s => let (v, s) := GetLocal (arg0 inst) s in
              SetLocal (arg0 inst) (double_of_bool (PrimFloat.eqb v 0%float)) s)
    hw.

(** The operands of [+], [-] and [*] are read through the two references
    once both calls of [AccessLocal] have returned, in either order. *)
Definition binary (op : float -> float -> float) (inst : Instruction)
    (s : State) : State :=
  let (_, s) := AccessLocal (arg0 inst) s in
  let (_, s) := AccessLocal (arg1 inst) s in
  let x := fst (at_key (arg0 inst) (local_mem s)) in
  let y := fst (at_key (arg1 inst) (local_mem s)) in
  SetLocal (arg2 inst) (op x y) s.

Definition Inst_Add (inst : Instruction) (hw : Hardware) : result Hardware :=
  on_cur_state (binary PrimFloat.add inst) hw.
Definition Inst_Sub (inst : Instruction) (hw : Hardware) : result Hardware :=
  on_cur_state (binary PrimFloat.sub inst) hw.
Definition Inst_Mult (inst : Instruction) (hw : Hardware) : result Hardware :=
  on_cur_state (binary PrimFloat.mul inst) hw.

Definition Inst_Div (inst : Instruction) (hw : Hardware) : result Hardware :=
  match cur_core hw with
  | Some (s :: rest) =>
      let (denom, s) := AccessLocal (arg1 inst) s in
      if PrimFloat.eqb denom 0%float then
        Ok (set_errors (size_t_incr (errors hw))
              (set_cur_core (Some (s :: rest)) hw))
      else
        let (x, s) := AccessLocal (arg0 inst) s in
        Ok (set_cur_core
              (Some (SetLocal (arg2 inst) (PrimFloat.div x denom) s :: rest)) hw)
  | _ => Err AssertFail
  end.

(** The loop of [ReturnFunction]:
    [for (auto mem : returning_state->output_mem)
       caller_state->local_mem[mem.first] = mem.second;]
    over the entries in the order the map gives them. *)
Definition copy_outputs (entries : list (mem_key_t * mem_val_t))
    (caller : State) : State :=
  foldl (fun s mem => SetLocal mem.1 mem.2 s) caller entries.

(** [ReturnFunction()]. *)
Definition ReturnFunction (hw : Hardware) : result Hardware :=
  match cur_core hw with
  | Some (returning_state :: stack) =>
      match stack with
      | caller_state :: rest =>
          Ok (set_cur_core
                (Some (copy_outputs (map_to_list (output_mem returning_state))
                         caller_state :: rest)) hw)
      | [] => Ok (set_cur_core (Some []) hw)
      end
  | _ => Err AssertFail
  end.

(** What [GetLocal] gives for [key] in [s]. *)
Definition local (s : State) (key : mem_key_t) : mem_val_t :=
  fst (GetLocal key s).

End EventDrivenGP.

(** * The searches of [tools/vector_utils.h] *)

Section vector_utils.
Context {T : Type} `{EqDecision T}.

(** The loop of [FindPos],
    [for (size_t i = 0; i < vec.size(); i++) if (vec[i] == val) return (int) i;],
    from the position [i] on, [vec] being what is left of the vector from
    there; [return -1] after it. *)
Fixpoint FindPos_from (i : Z) (vec : list T) (val : T) : Z :=
  match vec with
  | [] => -1
  | x :: vec' =>
      if decide (x = val) then to_int i
      else FindPos_from (size_t_incr i) vec' val
  end.

Definition FindPos (vec : list T) (val : T) : Z := FindPos_from 0 vec val.

(** [Has(vec, val)] of vectors: [FindPos(vec, val) >= 0]. *)
Definition Has (vec : list T) (val : T) : bool := 0 <=? FindPos vec val.
End vector_utils.

(** * The vocabulary of the verification *)

(** ** Indices, triples and reachable states *)

(** The argument value that names register [i]. *)
Definition rix (i : fin REGS) : Z := Z.of_nat (fin_to_nat i).

(** [preserves I m]: when [m] starts in a state with [I] and ends without
    an error, it ends in a state with [I]. *)
Definition preserves {A} (I : AvidaGP -> Prop) (m : M A) : Prop :=
  forall st a st', I st -> m st = Ok (a, st') -> I st'.

(** [hoare P m Q]: when [m] starts in a state with [P] and ends without an
    error, it ends in a state with [Q]. *)
Definition hoare {A} (P : AvidaGP -> Prop) (m : M A) (Q : AvidaGP -> Prop) : Prop :=
  forall st a st', P st -> m st = Ok (a, st') -> Q st'.

(** The same with a postcondition that reads the value returned. *)
Definition hoare_val {A} (P : AvidaGP -> Prop) (m : M A)
    (Q : A -> AvidaGP -> Prop) : Prop :=
  forall st a st', P st -> m st = Ok (a, st') -> Q a st'.

(** From [back()] down, every frame is at a deeper level than the frame
    beneath it. *)
Fixpoint levels_increase (ss : list ScopeInfo) : Prop :=
  match ss with
  | top :: (below :: _) as ss' => scope below < scope top /\ levels_increase ss'
  | _ => True
  end.

(** The scope stack is not empty, its bottom frame is [(0, ROOT, 0)], and
    the levels increase strictly from the bottom to the top. *)
Definition scope_stack_inv (st : AvidaGP) : Prop :=
  scope_stack st <> [] /\
  last (scope_stack st) = Some (mkScopeInfo 0 ROOT 0) /\
  levels_increase (scope_stack st).

(** The public operations that change the machine.  [RandomizeInst] and
    [PushRandom] are [SetInst] and [PushInst] on the instructions drawn. *)
Inductive operation : Type :=
  | OpReset
  | OpResetHardware
  | OpResetIP
  | OpSetInst (pos : Z) (inst : Instruction)
  | OpSetGenome (g : list Instruction)
  | OpPushInst (inst : Instruction)
  | OpProcessInst (inst : Instruction)
  | OpSingleProcess
  | OpProcess (num_inst : nat).

Definition perform (op : operation) : M unit :=
  match op with
  | OpReset => Reset
  | OpResetHardware => ResetHardware
  | OpResetIP => ResetIP
  | OpSetInst pos inst => SetInst pos inst
  | OpSetGenome g => SetGenome g
  | OpPushInst inst => PushInst inst
  | OpProcessInst inst => ProcessInst inst
  | OpSingleProcess => SingleProcess
  | OpProcess n => Process n
  end.

(** The states of a machine that was constructed and then operated through
    its public member functions, none of which failed. *)
Inductive reachable : AvidaGP -> Prop :=
  | reachable_new st : AvidaGP_new = Ok st -> reachable st
  | reachable_perform op st st' :
      reachable st -> exec (perform op) st = Ok st' -> reachable st'.

(** ** Machines and genomes of the scenarios *)

(** The machine the constructor builds. *)
Definition AvidaGP_fresh : AvidaGP :=
  Eval vm_compute in
    match AvidaGP_new with Ok st => st | Err _ => AvidaGP_members end.

(** A machine with [regs[0] = 7] and [regs[1] = 2]. *)
Definition seven_and_two : AvidaGP :=
  set_regs (vinsert 1%fin 2%float (vinsert 0%fin 7%float (regs AvidaGP_members)))
    AvidaGP_members.

(** A loop with a scope inside; after seven steps both are open. *)
Definition nested_genome : list Instruction :=
  [Inst Inc 0 0 0; Inst While 0 0 0; Inst Scope 1 0 0; Inst Scope 0 0 0].

Definition nested_state : AvidaGP :=
  Eval vm_compute in
    match run nested_genome 7 with Ok st => st | Err _ => AvidaGP_members end.

(** A function whose call is the last instruction of the genome. *)
Definition call_at_end_genome : list Instruction :=
  [Inst Define 0 1 0; Inst SetReg 5 99 0; Inst Scope 0 0 0; Inst Call 0 0 0].

(** After three steps the [Call] at the end of the genome has been
    executed: the return position 4 is on the call stack. *)
Definition call_at_end_state : AvidaGP :=
  Eval vm_compute in
    match run call_at_end_genome 3 with Ok st => st | Err _ => AvidaGP_members end.

(** The countdown scenario of the specification, run for 20 steps. *)
Definition countdown_genome : list Instruction :=
  [Inst SetReg 0 3 0; Inst SetReg 1 0 0; Inst Countdown 0 1 0; Inst Inc 1 0 0].

Definition countdown_state : AvidaGP :=
  Eval vm_compute in
    match run countdown_genome 20 with Ok st => st | Err _ => AvidaGP_members end.

(** A register backed up in scope 1 after it was set to 9. *)
Definition backup_genome : list Instruction :=
  [Inst SetReg 3 9 0; Inst Scope 0 0 0; Inst ScopeReg 3 0 0].

Definition backup_state : AvidaGP :=
  Eval vm_compute in
    match run backup_genome 3 with Ok st => st | Err _ => AvidaGP_members end.

(** Sixteen nested scopes: with the root, seventeen frames. *)
Definition deep_genome : list Instruction :=
  (fun k => Inst Scope (Z.of_nat k) 0 0) <$> seq 0 16.

Definition deep_state : AvidaGP :=
  Eval vm_compute in
    match run deep_genome 16 with Ok st => st | Err _ => AvidaGP_members end.

(** Two nested scopes and, after two instructions, the start of the outer
    scope again. *)
Definition skip_genome : list Instruction :=
  [Inst Scope 0 0 0; Inst Scope 1 0 0; Inst Inc 1 0 0; Inst Inc 2 0 0;
   Inst Scope 0 0 0; Inst Inc 3 0 0].

(** After two steps both scopes are open. *)
Definition skip_state : AvidaGP :=
  Eval vm_compute in
    match run skip_genome 2 with Ok st => st | Err _ => AvidaGP_members end.

(** The inner scope bypassed from there. *)
Definition skipped_state : AvidaGP :=
  Eval vm_compute in
    match BypassScope 1 skip_state with
    | Ok (_, st) => st
    | Err _ => AvidaGP_members
    end.

(** The function of [call_at_end_genome] is defined and its call is next. *)
Definition before_call_state : AvidaGP :=
  Eval vm_compute in
    match run call_at_end_genome 2 with Ok st => st | Err _ => AvidaGP_members end.

(** In [backup_genome], the scope is open and [ScopeReg] is next. *)
Definition before_backup_state : AvidaGP :=
  Eval vm_compute in
    match run backup_genome 2 with Ok st => st | Err _ => AvidaGP_members end.

(** [Scope 1] executed in [skip_state], where scope 1 is open already. *)
Definition reopened_state : AvidaGP :=
  Eval vm_compute in
    match ProcessInst (Inst Scope 1 0 0) skip_state with
    | Ok (_, st) => st
    | Err _ => AvidaGP_members
    end.

(** Sixteen values pushed on stack 2: the stack is full. *)
Definition full_stack_genome : list Instruction :=
  replicate 16 (Inst Push 1 2 0).

Definition full_stack_state : AvidaGP :=
  Eval vm_compute in
    match run full_stack_genome 16 with Ok st => st | Err _ => AvidaGP_members end.

(** A loop that counts register 0 down from 2, closed by a [Scope]. *)
Definition loop_genome : list Instruction :=
  [Inst SetReg 0 2 0; Inst While 0 0 0; Inst Dec 0 0 0; Inst Scope 0 0 0;
   Inst Inc 5 0 0].

(** At the end of the first round, register 0 holds 1. *)
Definition loop_round_state : AvidaGP :=
  Eval vm_compute in
    match run loop_genome 3 with Ok st => st | Err _ => AvidaGP_members end.

(** At the end of the second round, register 0 holds 0. *)
Definition loop_done_state : AvidaGP :=
  Eval vm_compute in
    match run loop_genome 5 with Ok st => st | Err _ => AvidaGP_members end.

(** The loop left from there. *)
Definition loop_left_state : AvidaGP :=
  Eval vm_compute in
    match ProcessInst (Inst Scope 0 0 0) loop_done_state with
    | Ok (_, st) => st
    | Err _ => AvidaGP_members
    end.

(** A function whose call is followed by a division by [regs[0]], which is
    zero: the function is defined, a scope closes the definition, and the
    call is made. *)
Definition return_genome : list Instruction :=
  [Inst Define 0 1 0; Inst Inc 5 0 0; Inst Scope 0 0 0; Inst Call 0 0 0;
   Inst Div 1 0 2].

(** After three steps the function is running and the [Scope] that ends its
    body is next. *)
Definition returning_state : AvidaGP :=
  Eval vm_compute in
    match run return_genome 3 with Ok st => st | Err _ => AvidaGP_members end.

(** The function has returned to the [Div], under the instruction pointer. *)
Definition returned_state : AvidaGP :=
  Eval vm_compute in
    match UpdateScope_return returning_state with
    | Ok (_, st) => st
    | Err _ => AvidaGP_members
    end.

(** ** The error counter, the scopes and the fuel *)

(** The opcodes whose case in [ProcessInst] calls [UpdateScope], which may
    dispatch an instruction of the genome in turn. *)
Definition uses_UpdateScope (i : InstID) : bool :=
  match i with
  | If | While | Countdown | Scope | Define | Call => true
  | _ => false
  end.

(** [inst] is a [Div] or a [Mod] and its divisor [regs[args[1]]] is zero in
    [st]. *)
Definition zero_divisor (inst : Instruction) (st : AvidaGP) : Prop :=
  (id inst = Div \/ id inst = Mod) /\
  exists b : fin REGS,
    to_size_t (arg1 inst) = rix b /\
    PrimFloat.eqb (regs st !!! b) 0%float = true.

(** [st'] is what the zero-divisor branch of [Div] and [Mod] makes of [s]:
    the same state with [errors] incremented. *)
Definition counted_in (s st' : AvidaGP) : Prop :=
  st' = set_errors (size_t_incr (errors s)) s.

(** What [UpdateScope] does to the state before it dispatches an instruction
    of the genome: it leaves scopes with [ExitScope], jumps back to the start
    of the loop on top of the scope stack, and returns from a function.
    [unwinds st s]: [s] is reached from [st] by such steps. *)
Inductive unwinds (st : AvidaGP) : AvidaGP -> Prop :=
| unwinds_here : unwinds st st
| unwinds_ExitScope s s' :
    unwinds st s -> ExitScope s = Ok (tt, s') -> unwinds st s'
| unwinds_loop s top rest :
    unwinds st s -> scope_stack s = top :: rest ->
    unwinds st (set_inst_ptr (start_pos top) s)
| unwinds_return s s' :
    unwinds st s -> UpdateScope_return s = Ok (tt, s') -> unwinds st s'.

(** During a dispatch that started in [st], the scope engine unwound [st] to
    a state [s] and dispatched the instruction [i] of the genome that is
    under the instruction pointer of [s]; [s] has the error counter and the
    genome of [st]; [i] is a [Div] or a [Mod] whose divisor is zero in [s];
    and the dispatch ended in [st'], which is [s] with the counter
    incremented. *)
Definition redispatched_zero_divisor (st st' : AvidaGP) : Prop :=
  exists i s,
    unwinds st s /\
    genome s !! Z.to_nat (to_size_t (inst_ptr s)) = Some i /\
    zero_divisor i s /\
    errors s = errors st /\ genome s = genome st /\
    counted_in s st'.

(** The counter and the genome are [e] and [g], as at the start. *)
Definition untouched_from (e : Z) (g : list Instruction) (st : AvidaGP) : Prop :=
  errors st = e /\ genome st = g.

(** The counter went up by one from [e]. *)
Definition counted_from (e : Z) (g : list Instruction) (st : AvidaGP) : Prop :=
  errors st = size_t_incr e /\ genome st = g.

(** [s] is a state the scope engine unwound [st] to, with the counter and
    the genome of [st]. *)
Definition unwound_from (st s : AvidaGP) : Prop :=
  untouched_from (errors st) (genome st) s /\ unwinds st s.

(** After [UpdateScope] returned [entered], in a dispatch that started in
    [st0]: the counter moved only if the call dispatched an instruction of
    the genome, and then it returned [false] in the state that dispatch
    ended in. *)
Definition after_UpdateScope_from (st0 : AvidaGP) (entered : bool)
    (st : AvidaGP) : Prop :=
  untouched_from (errors st0) (genome st0) st \/
  (entered = false /\ counted_from (errors st0) (genome st0) st /\
   redispatched_zero_divisor st0 st).

Definition after_ProcessInst_from (st0 : AvidaGP)
    (inst : Instruction) (s st' : AvidaGP) : Prop :=
  untouched_from (errors st0) (genome st0) st' \/
  (counted_from (errors st0) (genome st0) st' /\
   ((zero_divisor inst s /\ unwinds st0 s /\ counted_in s st') \/
    (uses_UpdateScope (id inst) = true /\
     redispatched_zero_divisor st0 st'))).

(** [a] is no index of an array of [REGS] entries: as a [size_t] it is
    [REGS] or more. *)
Definition out_of_range (a : Z) : Prop := Z.of_nat REGS <= to_size_t a.

(** The call [UpdateScope(args[1], type_)] of the case of [inst] returns
    [true] in [st]: the scope is entered. *)
Definition enters (inst : Instruction) (type_ : ScopeType) (st : AvidaGP) : Prop :=
  exists st1, UpdateScope (to_size_t (arg1 inst)) type_ st = Ok (true, st1).

(** The case of [inst] in [ProcessInst], run in [st], evaluates an index
    expression on one of the arrays of [REGS] entries ([regs], [inputs],
    [outputs], [stacks], [fun_starts]) with an argument that is out of
    range.  Opcode by opcode, these are the arguments the case indexes
    with: [Div] and [Mod] read [regs[args[1]]] first and index with
    [args[0]] and [args[2]] only when that divisor is not zero; [If],
    [While], [Countdown] and [Define] index with [args[0]] once
    [UpdateScope] has returned [true]; [ScopeReg] calls [CurScope] before it
    reads [regs[args[0]]]; [Break] and [Scope] index no such array. *)
Definition index_out_of_range (inst : Instruction) (st : AvidaGP) : Prop :=
  match id inst with
  | Inc | Dec | Not | SetReg | Call => out_of_range (arg0 inst)
  | Add | Sub | Mult | TestEqu | TestNEqu | TestLess =>
      out_of_range (arg0 inst) \/ out_of_range (arg1 inst) \/
      out_of_range (arg2 inst)
  | Div | Mod =>
      out_of_range (arg1 inst) \/
      exists b : fin REGS,
        to_size_t (arg1 inst) = rix b /\
        PrimFloat.eqb (regs st !!! b) 0%float = false /\
        (out_of_range (arg0 inst) \/ out_of_range (arg2 inst))
  | Push | Pop | Input | Output | CopyVal =>
      out_of_range (arg0 inst) \/ out_of_range (arg1 inst)
  | If | Define => out_of_range (arg0 inst) /\ enters inst BASIC st
  | While | Countdown => out_of_range (arg0 inst) /\ enters inst LOOP st
  | ScopeReg => out_of_range (arg0 inst) /\ scope_stack st <> []
  | Break | Scope | Unknown => False
  end.

(** The argument that names the register an instruction assigns to, for the
    opcodes that assign to a register without a call of the scope engine. *)
Definition destination (inst : Instruction) : option Z :=
  match id inst with
  | Inc | Dec | Not | SetReg => Some (arg0 inst)
  | Add | Sub | Mult | Div | Mod | TestEqu | TestNEqu | TestLess =>
      Some (arg2 inst)
  | Pop | Input | CopyVal => Some (arg1 inst)
  | _ => None
  end.

(** What [ExitScope] does not write. *)
Definition scopes_apart (st st' : AvidaGP) : Prop :=
  genome st' = genome st /\ inputs st' = inputs st /\
  outputs st' = outputs st /\ stacks st' = stacks st /\
  fun_starts st' = fun_starts st /\ inst_ptr st' = inst_ptr st /\
  call_stack st' = call_stack st /\ errors st' = errors st.

(** The registers named by the backup stack exist. *)
Definition backups_valid (rs : list RegBackup) : Prop :=
  Forall (fun b => to_size_t (reg_id b) < Z.of_nat REGS) rs.

(** [safe m]: [m] does not end for lack of fuel. *)
Definition safe {A} (m : M A) : Prop := forall st, m st <> Err OutOfFuel.

(** [runs P m Q]: from a state with [P], [m] does not end for lack of fuel,
    and when it ends without an error it ends in a state with [Q]. *)
Definition runs {A} (P : AvidaGP -> Prop) (m : M A) (Q : AvidaGP -> Prop) : Prop :=
  forall st, P st ->
    match m st with
    | Ok (_, st') => Q st'
    | Err e => e <> OutOfFuel
    end.

(** A vector holds fewer than [2^64] elements. *)
Definition genome_fits (st : AvidaGP) : Prop := size (genome st) < 2 ^ 64.

(** The measure that every nested call of [ProcessInst] and [UpdateScope]
    decreases: twice the scope frames, plus one while the call stack is not
    empty. *)
Definition call_depth (st : AvidaGP) : nat :=
  (2 * length (scope_stack st) +
   match call_stack st with [] => 0 | _ :: _ => 1 end)%nat.

(** [m] neither ends for lack of fuel nor changes the genome. *)
Definition steady {A} (m : M A) : Prop := runs genome_fits m genome_fits.

Definition fuel_for_ProcessInst (k : nat) (st : AvidaGP) : Prop :=
  genome_fits st /\ (2 * call_depth st + 2 <= k)%nat.

Definition fuel_for_UpdateScope (k : nat) (st : AvidaGP) : Prop :=
  genome_fits st /\ (2 * call_depth st + 1 <= k)%nat.

(** ** The print, line by line *)

(** [n] spaces. *)
Definition spaces (n : nat) : string := put_spaces n "".

(** The arguments as they are written, each after one space. *)
Definition args_text (l : list Z) : string := put_args l "".

(** The scope depth [cur_scope] at which the line of [inst] is written,
    and [cur_scope] after it, when [cur] is the depth before. *)
Definition line_depth (cur : Z) (inst : Instruction) : Z :=
  let new_scope := InstScope inst in
  if negb (new_scope =? 0) && (new_scope <? cur)
  then size_t_decr new_scope else cur.

Definition depth_after (cur : Z) (inst : Instruction) : Z :=
  let new_scope := InstScope inst in
  if negb (new_scope =? 0) then new_scope else line_depth cur inst.

(** What a line holds after its indentation: the name, the arguments and,
    when the instruction opens a deeper scope, the arrow. *)
Definition line_text (cur : Z) (inst : Instruction) : string :=
  GetName (id inst) +:+
  args_text (take (GetNumArgs (id inst)) (vec_to_list (args inst))) +:+
  (if negb (InstScope inst =? 0) && (line_depth cur inst <? InstScope inst)
   then " --> " else "").

(** The print of a genome laid out line by line, as the specification
    words it: one line per instruction, indented by [width] spaces per
    current scope depth, the depth being folded along the genome with
    [InstScope] ([line_depth] and [depth_after] are the [cur_scope] of the
    code); a line of dashes at the same depth comes before an instruction
    that declares the current scope again.  The specification has [width =
    2]. *)
Fixpoint printed_genome (width : nat) (cur : Z) (g : list Instruction) : string :=
  match g with
  | [] => ""
  | inst :: g' =>
      (if negb (InstScope inst =? 0) && (InstScope inst =? cur)
       then spaces (width * Z.to_nat cur) +:+ "----" +:+ endl else "") +:+
      spaces (width * Z.to_nat (line_depth cur inst)) +:+
      line_text cur inst +:+ endl +:+
      printed_genome width (depth_after cur inst) g'
  end.

(** ** The recursion bound, the reset and the skipped instructions *)

(** [m'] does what [m] does, wherever [m] does not end for lack of fuel. *)
Definition refines {A} (m m' : M A) : Prop :=
  forall st, m st <> Err OutOfFuel -> m' st = m st.

(** The members that [ResetHardware] and [ResetIP] write without reading
    the backup stack are those of a new machine. *)
Definition hardware_reset (st : AvidaGP) : Prop :=
  inputs st = inputs AvidaGP_fresh /\ outputs st = outputs AvidaGP_fresh /\
  stacks st = stacks AvidaGP_fresh /\ fun_starts st = fun_starts AvidaGP_fresh /\
  errors st = 0 /\ inst_ptr st = 0 /\ call_stack st = [] /\
  (length (scope_stack st) <= 1)%nat.

(** The instructions at which the loop of [BypassScope] stops: those that
    declare a scope, and one no deeper than [scope_]. *)
Definition closes (scope_ : Z) (inst : Instruction) : bool :=
  negb (InstScope inst =? 0) && (InstScope inst <=? scope_).

(** [ip'] is where the loop of [BypassScope] leaves [inst_ptr] when it
    starts at [ip] in the genome [g]: no instruction after [ip] up to [ip']
    closes the scope, and the one after [ip'], if there is one, does. *)
Definition lands (scope_ : Z) (g : list Instruction) (ip ip' : Z) : Prop :=
  ip <= ip' /\
  (forall j, ip < j <= ip' ->
     exists inst, g !! Z.to_nat j = Some inst /\ closes scope_ inst = false) /\
  (ip' + 1 < size g ->
     exists inst,
       g !! Z.to_nat (ip' + 1) = Some inst /\ closes scope_ inst = true).

(** The frame that [UpdateScope(new_scope, type)] pushes when it enters. *)
Definition enter (new_scope : Z) (type_ : ScopeType) (st : AvidaGP) : AvidaGP :=
  set_scope_stack
    (mkScopeInfo (size_t_incr new_scope) type_ (inst_ptr st) :: scope_stack st)
    st.

(** The backup [b] is not one of register [a] made in the scope of level
    [level]. *)
Definition other_backup (level : Z) (a : fin REGS) (b : RegBackup) : Prop :=
  rb_scope b = level -> to_size_t (reg_id b) <> rix a.

(** No auxiliary stack holds more than [STACK_CAP] values. *)
Definition stacks_bounded (st : AvidaGP) : Prop :=
  forall i : fin REGS, size (stacks st !!! i) <= STACK_CAP.

(** ** EventDrivenGP: what an instruction stores *)

(** [r] is the hardware [hw] in which the state [s] on top of the current
    core has become a state that holds [v] under [key] in its local memory
    and, as [GetLocal] sees it, what [s] holds under every other key; the
    other members of the state are those of [s]. *)
Definition stores_local (r : result EventDrivenGP.Hardware)
    (hw : EventDrivenGP.Hardware) (s : EventDrivenGP.State)
    (rest : list EventDrivenGP.State) (key : Z) (v : float) : Prop :=
  exists s',
    r = Ok (EventDrivenGP.set_cur_core (Some (s' :: rest)) hw) /\
    (forall k,
       EventDrivenGP.local s' k =
       if decide (k = key) then v else EventDrivenGP.local s k) /\
    EventDrivenGP.set_local_mem (EventDrivenGP.local_mem s) s' = s.

(** A hardware with one call on the current core, whose local memory holds
    7 under key 1 and whose output memory holds 5 under key 2, called from a
    state that holds 3 under key 2. *)
Definition called_state : EventDrivenGP.State :=
  EventDrivenGP.mkState (<[1 := 7%float]> ∅) ∅ (<[2 := 5%float]> ∅) 1 4
    [EventDrivenGP.mkBlock 2 6 EventDrivenGP.LOOP] false.

Definition caller_state : EventDrivenGP.State :=
  EventDrivenGP.mkState (<[2 := 3%float]> ∅) ∅ ∅ 0 9 [] true.

Definition calling_hardware : EventDrivenGP.Hardware :=
  EventDrivenGP.mkHardware ∅ (Some [called_state; caller_state]) 0.

(** * Verification *)

(** ** Evaluation of the monad *)

Lemma bind_ret {A B} (a : A) (k : A -> M B) st : bind (ret a) k st = k a st.
Proof. reflexivity. Qed.

Lemma bind_get {A B} (f : AvidaGP -> A) (k : A -> M B) st :
  bind (get f) k st = k (f st) st.
Proof. reflexivity. Qed.

Lemma bind_modify {B} (f : AvidaGP -> AvidaGP) (k : unit -> M B) st :
  bind (modify f) k st = k tt (f st).
Proof. reflexivity. Qed.

Lemma bind_fail {A B} e (k : A -> M B) st : bind (fail e) k st = Err e.
Proof. reflexivity. Qed.

Lemma bind_assoc {A B C} (m : M A) (k : A -> M B) (h : B -> M C) st :
  bind (bind m k) h st = bind m (fun a => bind (k a) h) st.
Proof. unfold bind. destruct (m st) as [[a st']|e]; reflexivity. Qed.

Lemma bind_Ok {A B} (m : M A) (k : A -> M B) st a st' :
  m st = Ok (a, st') -> bind m k st = k a st'.
Proof. unfold bind. intros ->. reflexivity. Qed.

Lemma bind_Err {A B} (m : M A) (k : A -> M B) st e :
  m st = Err e -> bind m k st = Err e.
Proof. unfold bind. intros ->. reflexivity. Qed.

Lemma ret_inv {A} (a b : A) st st' : ret a st = Ok (b, st') -> b = a /\ st' = st.
Proof. intros [= <- <-]. split; reflexivity. Qed.

Lemma get_inv {A} (f : AvidaGP -> A) b st st' :
  get f st = Ok (b, st') -> b = f st /\ st' = st.
Proof. intros [= <- <-]. split; reflexivity. Qed.

Lemma modify_inv f u st st' : modify f st = Ok (u, st') -> st' = f st.
Proof. intros [= _ <-]. reflexivity. Qed.

(** A computation that ends well went through its first part. *)
Lemma bind_inv {A B} (m : M A) (k : A -> M B) st b st'' :
  bind m k st = Ok (b, st'') ->
  exists a st', m st = Ok (a, st') /\ k a st' = Ok (b, st'').
Proof.
  unfold bind. destruct (m st) as [[a st']|e]; [eauto | discriminate].
Qed.

(** ** Register indices *)

Lemma fin_of_nat_to_nat n (i : fin n) : fin_of_nat n (fin_to_nat i) = Some i.
Proof.
  induction i as [|n i IH]; simpl; [reflexivity|]. rewrite IH. reflexivity.
Qed.

Lemma fin_of_nat_Some n pos (i : fin n) :
  fin_of_nat n pos = Some i -> fin_to_nat i = pos.
Proof.
  revert pos i. induction n as [|n IH]; intros pos i; simpl; [discriminate|].
  destruct pos as [|pos].
  - intros [= <-]. reflexivity.
  - destruct (fin_of_nat n pos) as [j|] eqn:E; simpl; [|discriminate].
    intros [= <-]. simpl. f_equal. apply IH, E.
Qed.

Lemma rix_range (i : fin REGS) : 0 <= rix i < 16.
Proof.
  unfold rix. pose proof (fin_to_nat_lt i) as H.
  assert (Z.of_nat REGS = 16) as HR by reflexivity. lia.
Qed.

Lemma to_size_t_small z : 0 <= z < 2 ^ 64 -> to_size_t z = z.
Proof. intros H. unfold to_size_t. apply Z.mod_small, H. Qed.

Lemma to_size_t_range z : 0 <= to_size_t z < 2 ^ 64.
Proof. unfold to_size_t. apply Z.mod_pos_bound. reflexivity. Qed.

Lemma to_size_t_rix i : to_size_t (rix i) = rix i.
Proof.
  apply to_size_t_small. pose proof (rix_range i).
  change (2 ^ 64) with 18446744073709551616. lia.
Qed.

Lemma array_index_rix (i : fin REGS) st : array_index REGS (rix i) st = Ok (i, st).
Proof.
  unfold array_index. rewrite to_size_t_rix.
  pose proof (rix_range i) as H.
  destruct (Z.ltb_spec (rix i) (Z.of_nat REGS)) as [_|Hge];
    [|unfold REGS in Hge; lia].
  unfold rix. rewrite Nat2Z.id, fin_of_nat_to_nat. reflexivity.
Qed.

(** Without a reduction: an index that passes the check is the argument. *)
Lemma array_index_inv n pos st i st' :
  array_index n pos st = Ok (i, st') ->
  st' = st /\ to_size_t pos = Z.of_nat (fin_to_nat i).
Proof.
  unfold array_index. pose proof (to_size_t_range pos) as Hr.
  destruct (Z.ltb_spec (to_size_t pos) (Z.of_nat n)) as [Hlt|Hge];
    [|discriminate].
  destruct (fin_of_nat n (Z.to_nat (to_size_t pos))) as [j|] eqn:E;
    [|discriminate].
  intros [= <- <-]. split; [reflexivity|].
  apply fin_of_nat_Some in E. lia.
Qed.

Lemma array_index_fail n pos st :
  Z.of_nat n <= to_size_t pos -> array_index n pos st = Err AssertFail.
Proof.
  intros H. unfold array_index.
  destruct (Z.ltb_spec (to_size_t pos) (Z.of_nat n)); [lia | reflexivity].
Qed.

Lemma reg_read_rix i st : reg_read (rix i) st = Ok (regs st !!! i, st).
Proof. unfold reg_read. rewrite (bind_Ok _ _ _ _ _ (array_index_rix i st)). reflexivity. Qed.

Lemma reg_write_rix i v st :
  reg_write (rix i) v st = Ok (tt, set_regs (vinsert i v (regs st)) st).
Proof. unfold reg_write. rewrite (bind_Ok _ _ _ _ _ (array_index_rix i st)). reflexivity. Qed.

Lemma ProcessInst_unfold inst st :
  ProcessInst inst st =
  ProcessInst_body
    (UpdateScope_fuel (4 * length (scope_stack st) + 5)%nat) inst st.
Proof.
  unfold ProcessInst, depth_bound.
  replace (4 * length (scope_stack st) + 6)%nat
    with (S (4 * length (scope_stack st) + 5)) by lia.
  reflexivity.
Qed.

Lemma vinsert_vinsert {A n} (i : fin n) (x y : A) (v : vec A n) :
  vinsert i y (vinsert i x v) = vinsert i y v.
Proof.
  apply vec_eq. intros j. destruct (decide (i = j)) as [->|Hne].
  - rewrite !vlookup_insert. reflexivity.
  - rewrite !vlookup_insert_ne by assumption. reflexivity.
Qed.

(** ** Arithmetic instructions: [Div], [Mod] and the error counter *)

Lemma Div_nonzero (a b c : fin REGS) st :
  PrimFloat.eqb (regs st !!! b) 0%float = false ->
  ProcessInst (Inst Div (rix a) (rix b) (rix c)) st =
  Ok (tt, set_regs (vinsert c (PrimFloat.div (regs st !!! a) (regs st !!! b))
                      (regs st)) st).
Proof.
  intros Hb. rewrite ProcessInst_unfold. unfold ProcessInst_body. cbn [id Inst].
  change (arg0 (Inst Div (rix a) (rix b) (rix c))) with (rix a).
  change (arg1 (Inst Div (rix a) (rix b) (rix c))) with (rix b).
  change (arg2 (Inst Div (rix a) (rix b) (rix c))) with (rix c).
  rewrite (bind_Ok _ _ _ _ _ (reg_read_rix b st)), Hb.
  rewrite (bind_Ok _ _ _ _ _ (reg_read_rix a st)).
  apply reg_write_rix.
Qed.

Lemma Mod_nonzero (a b c : fin REGS) st :
  PrimFloat.eqb (regs st !!! b) 0%float = false ->
  ProcessInst (Inst Mod (rix a) (rix b) (rix c)) st =
  Ok (tt, set_regs (vinsert c (PrimFloat.div (regs st !!! a) (regs st !!! b))
                      (regs st)) st).
Proof.
  intros Hb. rewrite ProcessInst_unfold. unfold ProcessInst_body. cbn [id Inst].
  change (arg0 (Inst Mod (rix a) (rix b) (rix c))) with (rix a).
  change (arg1 (Inst Mod (rix a) (rix b) (rix c))) with (rix b).
  change (arg2 (Inst Mod (rix a) (rix b) (rix c))) with (rix c).
  rewrite (bind_Ok _ _ _ _ _ (reg_read_rix b st)), Hb.
  rewrite (bind_Ok _ _ _ _ _ (reg_read_rix a st)).
  apply reg_write_rix.
Qed.

(** C4. In every state in which [regs[b] != 0], [Mod a b c] ends without an
    error in a state in which [regs[c]] is the quotient [regs[a] / regs[b]]
    of the registers before and every other register is as before; [Div a b
    c] ends in the same state. *)
Theorem Mod_is_quotient (a b c : fin REGS) (st : AvidaGP) :
  PrimFloat.eqb (regs st !!! b) 0%float = false ->
  exists st',
    ProcessInst (Inst Mod (rix a) (rix b) (rix c)) st = Ok (tt, st') /\
    regs st' !!! c = PrimFloat.div (regs st !!! a) (regs st !!! b) /\
    (forall i : fin REGS, i <> c -> regs st' !!! i = regs st !!! i) /\
    ProcessInst (Inst Div (rix a) (rix b) (rix c)) st = Ok (tt, st').
Proof.
  intros Hb. eexists. split; [apply Mod_nonzero, Hb|].
  split; [apply vlookup_insert|].
  split; [|apply Div_nonzero, Hb].
  intros i Hi. cbn [regs set_regs]. apply vlookup_insert_ne. congruence.
Qed.

Lemma Mod_is_quotient_witness :
  exists st',
    ProcessInst (Inst Mod 0 1 2) seven_and_two = Ok (tt, st') /\
    regs st' !!! 2%fin = 3.5%float /\
    (forall i : fin REGS, i <> 2%fin -> regs st' !!! i = regs seven_and_two !!! i) /\
    ProcessInst (Inst Div 0 1 2) seven_and_two = Ok (tt, st').
Proof.
  apply (Mod_is_quotient 0%fin 1%fin 2%fin seven_and_two). reflexivity.
Defined.

(** ** Properties of the state kept by the member functions *)

Section preserves_rules.
Variable I : AvidaGP -> Prop.

Lemma preserves_ret {A} (a : A) : preserves I (ret a).
Proof. intros st a' st' HI [= _ <-]. exact HI. Qed.

Lemma preserves_get {A} (f : AvidaGP -> A) : preserves I (get f).
Proof. intros st a' st' HI [= _ <-]. exact HI. Qed.

Lemma preserves_fail {A} e : preserves I (@fail A e).
Proof. intros st a' st' _ [=]. Qed.

Lemma preserves_modify f :
  (forall st, I st -> I (f st)) -> preserves I (modify f).
Proof. intros Hf st [] st' HI [= <-]. apply Hf, HI. Qed.

Lemma preserves_bind {A B} (m : M A) (k : A -> M B) :
  preserves I m -> (forall a, preserves I (k a)) -> preserves I (bind m k).
Proof.
  intros Hm Hk st b st'' HI H.
  apply bind_inv in H as (a & st' & H1 & H2).
  eapply Hk; [|exact H2]. eapply Hm; [exact HI | exact H1].
Qed.

Lemma preserves_emp_assert b : preserves I (emp_assert b).
Proof. destruct b; [apply preserves_ret | apply preserves_fail]. Qed.

Lemma preserves_array_index n pos : preserves I (array_index n pos).
Proof.
  intros st i st' HI H. apply array_index_inv in H as [-> _]. exact HI.
Qed.

Lemma preserves_vector_at {A} (v : list A) pos : preserves I (vector_at v pos).
Proof.
  unfold vector_at. destruct (_ <? _); [|apply preserves_fail].
  destruct (v !! _); [apply preserves_ret | apply preserves_fail].
Qed.

Lemma preserves_vector_back {A} (v : list A) : preserves I (vector_back v).
Proof. destruct v; [apply preserves_fail | apply preserves_ret]. Qed.
End preserves_rules.

(** One step through the structure of a computation. *)
Ltac preserves_step :=
  lazymatch goal with
  | |- preserves _ (bind _ _) => apply preserves_bind; [|intros ?]
  | |- preserves _ (ret _) => apply preserves_ret
  | |- preserves _ (get _) => apply preserves_get
  | |- preserves _ (fail _) => apply preserves_fail
  | |- preserves _ (emp_assert _) => apply preserves_emp_assert
  | |- preserves _ (array_index _ _) => apply preserves_array_index
  | |- preserves _ (vector_at _ _) => apply preserves_vector_at
  | |- preserves _ (vector_back _) => apply preserves_vector_back
  | |- preserves _ (if ?c then _ else _) => destruct c eqn:?
  end.

Lemma preserves_CurScope I : preserves I CurScope.
Proof. unfold CurScope. repeat preserves_step. Qed.

Lemma preserves_CurScopeType I : preserves I CurScopeType.
Proof. unfold CurScopeType. repeat preserves_step. Qed.

Lemma preserves_reg_read I a : preserves I (reg_read a).
Proof. unfold reg_read. repeat preserves_step. Qed.

(** The scope engine keeps every property that does not depend on the
    registers, the instruction pointer, the backup stack and the call
    stack, and that popping a frame above the root keeps. *)
Section scope_engine_preserves.
Variable I : AvidaGP -> Prop.
Hypothesis I_regs : forall r st, I st -> I (set_regs r st).
Hypothesis I_inst_ptr : forall p st, I st -> I (set_inst_ptr p st).
Hypothesis I_reg_stack : forall s st, I st -> I (set_reg_stack s st).
Hypothesis I_call_stack : forall s st, I st -> I (set_call_stack s st).
Hypothesis I_pop : forall st,
  I st -> 1 < size (scope_stack st) ->
  I (set_scope_stack (tail (scope_stack st)) st).

Lemma preserves_reg_write a v : preserves I (reg_write a v).
Proof.
  unfold reg_write. repeat preserves_step.
  apply preserves_modify. intros st. apply I_regs.
Qed.

Lemma preserves_ExitScope_restore rs : preserves I (ExitScope_restore rs).
Proof.
  induction rs as [|b rs IH]; simpl; [apply preserves_ret|].
  apply preserves_bind; [apply preserves_CurScope|]. intros cur.
  destruct (rb_scope b =? cur); [|apply preserves_ret].
  apply preserves_bind; [apply preserves_reg_write|]. intros _.
  apply preserves_bind; [|intros _; exact IH].
  apply preserves_modify. intros st. apply I_reg_stack.
Qed.

(** [ExitScope] leaves the scope stack alone until it pops it. *)
Lemma ExitScope_restore_scope_stack rs st a st' :
  ExitScope_restore rs st = Ok (a, st') -> scope_stack st' = scope_stack st.
Proof.
  revert st. induction rs as [|b rs IH]; simpl; intros st H.
  - apply ret_inv in H as [_ ->]. reflexivity.
  - apply bind_inv in H as (cur & st1 & H1 & H).
    assert (st1 = st) as ->.
    { unfold CurScope in H1. rewrite bind_get in H1.
      destruct (scope_stack st); [discriminate|].
      apply ret_inv in H1 as [_ ->]. reflexivity. }
    destruct (rb_scope b =? cur); [|apply ret_inv in H as [_ ->]; reflexivity].
    apply bind_inv in H as (u & st2 & H2 & H).
    unfold reg_write in H2.
    apply bind_inv in H2 as (i & st3 & H3 & H2).
    apply array_index_inv in H3 as [-> _].
    rewrite bind_get in H2. apply modify_inv in H2 as ->.
    rewrite bind_modify in H.
    apply IH in H. exact H.
Qed.

Lemma preserves_ExitScope : preserves I ExitScope.
Proof.
  intros st a st' HI H. unfold ExitScope in H. rewrite bind_get in H.
  apply bind_inv in H as (u1 & st1 & H1 & H).
  unfold emp_assert in H1.
  destruct (Z.ltb_spec 1 (size (scope_stack st))) as [Hlen|];
    [|discriminate].
  apply ret_inv in H1 as [_ ->].
  apply bind_inv in H as (u2 & st2 & H2 & H).
  unfold emp_assert in H2.
  destruct (size (scope_stack st) <=? Z.of_nat REGS); [|discriminate].
  apply ret_inv in H2 as [_ ->]. rewrite bind_get in H.
  apply bind_inv in H as (u3 & st3 & H3 & H).
  apply modify_inv in H as ->.
  pose proof (ExitScope_restore_scope_stack _ _ _ _ H3) as Hss.
  rewrite <- Hss. apply I_pop; [|rewrite Hss; exact Hlen].
  eapply preserves_ExitScope_restore; [exact HI | exact H3].
Qed.

Lemma preserves_BypassScope_loop n sc : preserves I (BypassScope_loop n sc).
Proof.
  induction n as [|n IH]; simpl; [apply preserves_fail|].
  apply preserves_bind; [apply preserves_get|]. intros ip.
  apply preserves_bind; [apply preserves_get|]. intros g.
  destruct (_ <? _); [|apply preserves_ret].
  apply preserves_bind;
    [apply preserves_modify; intros st; apply I_inst_ptr|]. intros _.
  apply preserves_bind; [apply preserves_vector_at|]. intros inst.
  destruct (_ && _); [|exact IH].
  apply preserves_modify. intros st. apply I_inst_ptr.
Qed.

Lemma preserves_BypassScope sc : preserves I (BypassScope sc).
Proof.
  unfold BypassScope.
  apply preserves_bind; [apply preserves_CurScope|]. intros cur.
  destruct (_ <? _); [apply preserves_ret|].
  apply preserves_bind; [apply preserves_ExitScope|]. intros _.
  apply preserves_bind; [apply preserves_get|]. intros g.
  apply preserves_BypassScope_loop.
Qed.

Lemma preserves_ResetIP_loop n : preserves I (ResetIP_loop n).
Proof.
  induction n as [|n IH]; simpl; [apply preserves_fail|].
  apply preserves_bind; [apply preserves_get|]. intros ss.
  destruct (_ <? _); [|apply preserves_ret].
  apply preserves_bind; [apply preserves_ExitScope|]. intros _. exact IH.
Qed.

Lemma preserves_ResetIP : preserves I ResetIP.
Proof.
  unfold ResetIP.
  apply preserves_bind;
    [apply preserves_modify; intros st; apply I_inst_ptr|]. intros _.
  apply preserves_bind; [apply preserves_get|]. intros ss.
  apply preserves_bind; [apply preserves_ResetIP_loop|]. intros _.
  apply preserves_modify. intros st. apply I_call_stack.
Qed.

Lemma preserves_UpdateScope_return : preserves I UpdateScope_return.
Proof.
  unfold UpdateScope_return.
  apply preserves_bind; [apply preserves_get|]. intros cs.
  apply preserves_bind; [apply preserves_vector_back|]. intros rp.
  apply preserves_bind;
    [apply preserves_modify; intros st; apply I_inst_ptr|]. intros _.
  apply preserves_bind; [apply preserves_get|]. intros g.
  destruct (_ <=? _); [apply preserves_ResetIP|].
  apply preserves_bind;
    [apply preserves_modify; intros st; apply I_call_stack|]. intros _.
  apply preserves_ExitScope.
Qed.
End scope_engine_preserves.

Lemma CurScope_inv st cur st' :
  CurScope st = Ok (cur, st') ->
  st' = st /\ exists top rest, scope_stack st = top :: rest /\ cur = scope top.
Proof.
  unfold CurScope. rewrite bind_get.
  destruct (scope_stack st) as [|top rest]; [discriminate|].
  intros H. apply ret_inv in H as [-> ->]. eauto.
Qed.

Lemma CurScopeType_inv st ty st' :
  CurScopeType st = Ok (ty, st') ->
  st' = st /\ exists top rest, scope_stack st = top :: rest /\ ty = type top.
Proof.
  unfold CurScopeType. rewrite bind_get.
  destruct (scope_stack st) as [|top rest]; [discriminate|].
  intros H. apply ret_inv in H as [-> ->]. eauto.
Qed.

(** The dispatcher keeps every property that depends on the scope stack
    alone and that pushing a deeper frame and popping a frame above the
    root keep. *)
Section dispatcher_preserves.
Variable I : AvidaGP -> Prop.
Hypothesis I_regs : forall r st, I st -> I (set_regs r st).
Hypothesis I_outputs : forall r st, I st -> I (set_outputs r st).
Hypothesis I_stacks : forall s st, I st -> I (set_stacks s st).
Hypothesis I_fun_starts : forall f st, I st -> I (set_fun_starts f st).
Hypothesis I_inst_ptr : forall p st, I st -> I (set_inst_ptr p st).
Hypothesis I_reg_stack : forall s st, I st -> I (set_reg_stack s st).
Hypothesis I_call_stack : forall s st, I st -> I (set_call_stack s st).
Hypothesis I_errors : forall e st, I st -> I (set_errors e st).
Hypothesis I_pop : forall st,
  I st -> 1 < size (scope_stack st) ->
  I (set_scope_stack (tail (scope_stack st)) st).
Hypothesis I_push : forall st top rest new_scope ty ip,
  I st -> scope_stack st = top :: rest -> scope top < new_scope ->
  I (set_scope_stack (mkScopeInfo new_scope ty ip :: scope_stack st) st).

Create HintDb preserves.
Local Hint Resolve preserves_reg_read preserves_reg_write
  preserves_ExitScope preserves_BypassScope preserves_ResetIP
  preserves_UpdateScope_return preserves_CurScope preserves_CurScopeType
  preserves_modify : preserves.

Ltac preserves_auto :=
  repeat first [ preserves_step | solve [eauto with preserves] ].

Lemma preserves_PushStack sid v : preserves I (PushStack sid v).
Proof. unfold PushStack. preserves_auto. Qed.

Lemma preserves_PopStack sid : preserves I (PopStack sid).
Proof.
  unfold PopStack. preserves_auto.
  match goal with |- preserves _ (match ?x with _ => _ end) => destruct x end;
    preserves_auto.
Qed.

Local Hint Resolve preserves_PushStack preserves_PopStack : preserves.

Section bodies.
Variable ProcessInst_rec : Instruction -> M unit.
Variable UpdateScope_rec : Z -> ScopeType -> M bool.
Hypothesis ProcessInst_rec_preserves :
  forall inst, preserves I (ProcessInst_rec inst).
Hypothesis UpdateScope_rec_preserves :
  forall new_scope ty, preserves I (UpdateScope_rec new_scope ty).

Local Hint Resolve ProcessInst_rec_preserves UpdateScope_rec_preserves
  : preserves.

Lemma preserves_UpdateScope_body new_scope ty :
  preserves I (UpdateScope_body ProcessInst_rec UpdateScope_rec new_scope ty).
Proof.
  intros st b st' HI H. unfold UpdateScope_body in H.
  apply bind_inv in H as (cur & st1 & Hcur & H).
  apply CurScope_inv in Hcur as (-> & top & rest & Hss & ->).
  destruct (Z.ltb_spec (scope top) (size_t_incr new_scope)) as [Hlt|Hge].
  - rewrite !bind_get, bind_modify in H. apply ret_inv in H as [_ ->].
    eapply I_push; eauto.
  - apply bind_inv in H as (cur_type & st1 & Hty & H).
    apply CurScopeType_inv in Hty as (-> & _).
    match type of H with
    | ?m _ = _ => cut (preserves I m); [intros P; exact (P _ _ _ HI H)|]
    end.
    destruct cur_type; preserves_auto.
Qed.

Lemma preserves_ProcessInst_body inst :
  preserves I (ProcessInst_body UpdateScope_rec inst).
Proof.
  unfold ProcessInst_body. destruct (id inst); preserves_auto.
Qed.
End bodies.

Lemma preserves_dispatch fuel :
  (forall inst, preserves I (ProcessInst_fuel fuel inst)) /\
  (forall new_scope ty, preserves I (UpdateScope_fuel fuel new_scope ty)).
Proof.
  induction fuel as [|n [IHP IHU]]; simpl.
  - split; intros; apply preserves_fail.
  - split; intros.
    + apply preserves_ProcessInst_body, IHU.
    + apply preserves_UpdateScope_body; assumption.
Qed.

Lemma preserves_ProcessInst inst : preserves I (ProcessInst inst).
Proof.
  intros st a st' HI H. unfold ProcessInst in H.
  eapply (proj1 (preserves_dispatch _)); eassumption.
Qed.

Lemma preserves_SingleProcess : preserves I SingleProcess.
Proof.
  pose proof preserves_ProcessInst.
  unfold SingleProcess. preserves_auto.
Qed.

Lemma preserves_Process n : preserves I (Process n).
Proof.
  pose proof preserves_SingleProcess.
  induction n as [|n IH]; simpl; preserves_auto.
Qed.
End dispatcher_preserves.

(** ** The scope stack *)

Lemma exec_inv {A} (m : M A) st st' :
  exec m st = Ok st' -> exists a, m st = Ok (a, st').
Proof.
  unfold exec. destruct (m st) as [[a s]|e]; [|discriminate].
  intros [= <-]. eauto.
Qed.

Lemma scope_stack_inv_pop st :
  scope_stack_inv st -> 1 < size (scope_stack st) ->
  scope_stack_inv (set_scope_stack (tail (scope_stack st)) st).
Proof.
  unfold scope_stack_inv, size. cbn [scope_stack set_scope_stack].
  destruct (scope_stack st) as [|a [|b r]]; cbn [length tail]; [lia | lia |].
  intros (_ & Hlast & Hlev) _. split; [discriminate|].
  split; [exact Hlast | apply Hlev].
Qed.

Lemma scope_stack_inv_push st top rest new_scope ty ip :
  scope_stack_inv st -> scope_stack st = top :: rest -> scope top < new_scope ->
  scope_stack_inv
    (set_scope_stack (mkScopeInfo new_scope ty ip :: scope_stack st) st).
Proof.
  unfold scope_stack_inv. cbn [scope_stack set_scope_stack].
  intros (_ & Hlast & Hlev) Hss Hlt. rewrite Hss in *.
  split; [discriminate|].
  split; [exact Hlast|]. split; [exact Hlt | exact Hlev].
Qed.

Lemma ResetHardware_body_preserves i : preserves scope_stack_inv (ResetHardware_body i).
Proof.
  unfold ResetHardware_body, reg_write.
  repeat first [ preserves_step
               | apply preserves_modify; intros st H; exact H ].
Qed.

Lemma for_each_preserves I l body :
  (forall i, preserves I (body i)) -> preserves I (for_each l body).
Proof.
  intros Hb. induction l as [|i l IH]; simpl; [apply preserves_ret|].
  apply preserves_bind; [apply Hb | intros _; exact IH].
Qed.

Lemma ResetIP_preserves : preserves scope_stack_inv ResetIP.
Proof.
  apply preserves_ResetIP; try (intros ? st H; exact H).
  apply scope_stack_inv_pop.
Qed.

Lemma ResetHardware_preserves : preserves scope_stack_inv ResetHardware.
Proof.
  unfold ResetHardware.
  apply preserves_bind;
    [apply for_each_preserves, ResetHardware_body_preserves|]. intros _.
  apply preserves_bind; [apply preserves_modify; intros st H; exact H|].
  intros _. apply ResetIP_preserves.
Qed.

Lemma Reset_preserves : preserves scope_stack_inv Reset.
Proof.
  unfold Reset.
  apply preserves_bind; [apply preserves_modify; intros st H; exact H|].
  intros _. apply ResetHardware_preserves.
Qed.

(** Every public operation, and with [OpProcessInst] every instruction
    executed, keeps the invariant of the scope stack. *)
Lemma perform_preserves op : preserves scope_stack_inv (perform op).
Proof.
  destruct op; cbn [perform].
  - apply Reset_preserves.
  - apply ResetHardware_preserves.
  - apply ResetIP_preserves.
  - unfold SetInst.
    repeat first [ preserves_step
                 | apply preserves_modify; intros st H; exact H ].
  - apply preserves_modify. intros st H. exact H.
  - unfold PushInst.
    repeat first [ preserves_step
                 | apply preserves_modify; intros st H; exact H ].
  - apply preserves_ProcessInst; try (intros ? st H; exact H);
      [apply scope_stack_inv_pop | apply scope_stack_inv_push].
  - apply preserves_SingleProcess; try (intros ? st H; exact H);
      [apply scope_stack_inv_pop | apply scope_stack_inv_push].
  - apply preserves_Process; try (intros ? st H; exact H);
      [apply scope_stack_inv_pop | apply scope_stack_inv_push].
Qed.

Lemma AvidaGP_members_inv : scope_stack_inv AvidaGP_members.
Proof.
  unfold scope_stack_inv. cbn [scope_stack AvidaGP_members].
  split; [discriminate|]. split; [reflexivity | exact Logic.I].
Qed.

Lemma AvidaGP_new_inv st : AvidaGP_new = Ok st -> scope_stack_inv st.
Proof.
  unfold AvidaGP_new. intros H. apply exec_inv in H as [a H].
  exact (Reset_preserves _ _ _ AvidaGP_members_inv H).
Qed.

(** C7. In every reachable state the scope stack is not empty, its bottom
    frame is [(0, ROOT, 0)], and the levels of its frames increase strictly
    from the bottom to the top: the constructor establishes this, and every
    public operation that ends without an error, so every instruction
    executed, the ones the scope engine dispatches included, keeps it. *)
Theorem scope_stack_invariant :
  (forall st : AvidaGP,
     reachable st ->
     scope_stack st <> [] /\
     last (scope_stack st) = Some (mkScopeInfo 0 ROOT 0) /\
     levels_increase (scope_stack st)) /\
  (forall (op : operation) (st st' : AvidaGP),
     scope_stack_inv st -> exec (perform op) st = Ok st' ->
     scope_stack_inv st').
Proof.
  assert (forall op st st',
            scope_stack_inv st -> exec (perform op) st = Ok st' ->
            scope_stack_inv st') as Hstep.
  { intros op st st' Hinv Hop. apply exec_inv in Hop as [a Hop].
    eapply perform_preserves; [exact Hinv | exact Hop]. }
  split; [|exact Hstep].
  induction 1 as [st Hnew | op st st' _ IH Hop].
  - apply AvidaGP_new_inv, Hnew.
  - exact (Hstep op st st' IH Hop).
Qed.

Lemma AvidaGP_new_fresh : AvidaGP_new = Ok AvidaGP_fresh.
Proof. vm_compute. reflexivity. Qed.

(** What [run] builds is reachable. *)
Lemma reachable_run g steps st : run g steps = Ok st -> reachable st.
Proof.
  unfold run. rewrite AvidaGP_new_fresh. intros H.
  apply (reachable_perform (OpProcess steps)
           (set_genome g AvidaGP_fresh)).
  - apply (reachable_perform (OpSetGenome g) AvidaGP_fresh).
    + apply reachable_new, AvidaGP_new_fresh.
    + reflexivity.
  - exact H.
Qed.

Lemma nested_state_run : run nested_genome 7 = Ok nested_state.
Proof. vm_compute. reflexivity. Qed.

Lemma scope_stack_invariant_witness :
  (scope_stack nested_state <> [] /\
   last (scope_stack nested_state) = Some (mkScopeInfo 0 ROOT 0) /\
   levels_increase (scope_stack nested_state)) /\
  exists st',
    exec (perform (OpProcessInst (Inst Scope 0 0 0))) nested_state = Ok st' /\
    scope_stack_inv st'.
Proof.
  split.
  - apply (proj1 scope_stack_invariant nested_state).
    apply (reachable_run nested_genome 7), nested_state_run.
  - eexists. split; [vm_compute; reflexivity|].
    apply (proj2 scope_stack_invariant (OpProcessInst (Inst Scope 0 0 0))
             nested_state).
    + apply (proj1 scope_stack_invariant nested_state).
      apply (reachable_run nested_genome 7), nested_state_run.
    + vm_compute. reflexivity.
Defined.

(** ** The error counter *)

Lemma hoare_bind {A B} P Q R (m : M A) (k : A -> M B) :
  hoare P m Q -> (forall a, hoare Q (k a) R) -> hoare P (bind m k) R.
Proof.
  intros Hm Hk st b st'' HP H.
  apply bind_inv in H as (a & st' & H1 & H2).
  eapply Hk; [|exact H2]. eapply Hm; [exact HP | exact H1].
Qed.

Lemma hoare_preserves {A} I (m : M A) : preserves I m -> hoare I m I.
Proof. intros H. exact H. Qed.

Lemma hoare_weaken {A} P Q Q' (m : M A) :
  hoare P m Q -> (forall st, Q st -> Q' st) -> hoare P m Q'.
Proof. intros H HQ st a st' HP Hm. eapply HQ, H; eassumption. Qed.

(** Properties that depend on the error counter and the genome alone are
    kept by everything that writes neither. *)
Section frame.
Variable I : AvidaGP -> Prop.
Hypothesis I_frame : forall st st',
  errors st' = errors st -> genome st' = genome st -> I st -> I st'.

Lemma frame_modify f :
  (forall st, errors (f st) = errors st /\ genome (f st) = genome st) ->
  preserves I (modify f).
Proof.
  intros Hf. apply preserves_modify. intros st. apply I_frame; apply Hf.
Qed.

Lemma frame_reg_write a v : preserves I (reg_write a v).
Proof.
  apply preserves_reg_write. intros r st. apply I_frame; reflexivity.
Qed.

Lemma frame_ExitScope : preserves I ExitScope.
Proof.
  apply preserves_ExitScope; intros; eapply I_frame; try eassumption;
    reflexivity.
Qed.

Lemma frame_BypassScope sc : preserves I (BypassScope sc).
Proof.
  apply preserves_BypassScope; intros; eapply I_frame; try eassumption;
    reflexivity.
Qed.

Lemma frame_UpdateScope_return : preserves I UpdateScope_return.
Proof.
  apply preserves_UpdateScope_return; intros; eapply I_frame;
    try eassumption; reflexivity.
Qed.

Lemma frame_PushStack sid v : preserves I (PushStack sid v).
Proof.
  apply preserves_PushStack. intros s st. apply I_frame; reflexivity.
Qed.

Lemma frame_PopStack sid : preserves I (PopStack sid).
Proof.
  apply preserves_PopStack. intros s st. apply I_frame; reflexivity.
Qed.
End frame.

Ltac frame_auto HI :=
  repeat first
    [ progress cbv beta
    | preserves_step
    | apply preserves_CurScope
    | apply preserves_CurScopeType
    | apply preserves_reg_read
    | apply (frame_reg_write _ HI)
    | apply (frame_ExitScope _ HI)
    | apply (frame_BypassScope _ HI)
    | apply (frame_UpdateScope_return _ HI)
    | apply (frame_PushStack _ HI)
    | apply (frame_PopStack _ HI)
    | apply (frame_modify _ HI); intros; split; reflexivity
    | match goal with
      | |- preserves _ (match ?x with _ => _ end) => destruct x
      end ].

Lemma reg_read_inv a st x st' :
  reg_read a st = Ok (x, st') ->
  st' = st /\ exists i : fin REGS, to_size_t a = rix i /\ x = regs st !!! i.
Proof.
  unfold reg_read. intros H.
  apply bind_inv in H as (i & st1 & Hi & H).
  apply array_index_inv in Hi as [-> Hi].
  rewrite bind_get in H. apply ret_inv in H as [-> ->].
  split; [reflexivity|]. exists i. split; [exact Hi | reflexivity].
Qed.

Lemma vector_at_inv {A} (v : list A) pos st x st' :
  vector_at v pos st = Ok (x, st') -> st' = st /\ x ∈ v.
Proof.
  unfold vector_at. destruct (_ <? _); [|discriminate].
  destruct (v !! _) as [y|] eqn:E; [|discriminate].
  intros H. apply ret_inv in H as [-> ->]. split; [reflexivity|].
  eapply list_elem_of_lookup_2, E.
Qed.

Lemma vector_at_lookup {A} (v : list A) pos st x st' :
  vector_at v pos st = Ok (x, st') ->
  st' = st /\ v !! Z.to_nat (to_size_t pos) = Some x /\ to_size_t pos < size v.
Proof.
  unfold vector_at.
  destruct (Z.ltb_spec (to_size_t pos) (Z.of_nat (length v))) as [Hlt|];
    [|discriminate].
  destruct (v !! _) as [y|] eqn:E; [|discriminate].
  intros H. apply ret_inv in H as [-> ->]. repeat split; assumption.
Qed.

Lemma hoare_val_bind {A B} (P : AvidaGP -> Prop) (m : M A) (k : A -> M B)
    (Q : B -> AvidaGP -> Prop) :
  preserves P m ->
  (forall a, hoare_val P (k a) Q) ->
  hoare_val P (bind m k) Q.
Proof.
  intros Hm Hk st b st' HP H.
  apply bind_inv in H as (a & st1 & H1 & H2).
  exact (Hk a st1 b st' (Hm _ _ _ HP H1) H2).
Qed.

Lemma unwound_here st : unwound_from st st.
Proof. split; [split; reflexivity | apply unwinds_here]. Qed.

Section errors_accounting.
Variable st0 : AvidaGP.

Local Abbreviation untouched := (untouched_from (errors st0) (genome st0)).
Local Abbreviation counted := (counted_from (errors st0) (genome st0)).
Local Abbreviation unwound := (unwound_from st0).
Local Abbreviation after_UpdateScope := (after_UpdateScope_from st0).
Local Abbreviation after_ProcessInst := (after_ProcessInst_from st0).

Lemma untouched_frame st st' :
  errors st' = errors st -> genome st' = genome st ->
  untouched st -> untouched st'.
Proof. unfold untouched_from. intros -> ->. trivial. Qed.

Lemma unwound_same {A} (m : M A) :
  (forall st a st', m st = Ok (a, st') -> st' = st) -> preserves unwound m.
Proof. intros Hm st a st' HU H. rewrite (Hm _ _ _ H). exact HU. Qed.

Lemma unwound_ExitScope : preserves unwound ExitScope.
Proof.
  intros st [] st' [HU Hw] H. split.
  - exact (frame_ExitScope _ untouched_frame _ _ _ HU H).
  - exact (unwinds_ExitScope _ _ _ Hw H).
Qed.

Lemma unwound_return : preserves unwound UpdateScope_return.
Proof.
  intros st [] st' [HU Hw] H. split.
  - exact (frame_UpdateScope_return _ untouched_frame _ _ _ HU H).
  - exact (unwinds_return _ _ _ Hw H).
Qed.

Lemma unwound_CurScope : preserves unwound CurScope.
Proof. apply preserves_CurScope. Qed.

Lemma unwound_CurScopeType : preserves unwound CurScopeType.
Proof. apply preserves_CurScopeType. Qed.

Section bodies.
Variable ProcessInst_rec : Instruction -> M unit.
Variable UpdateScope_rec : Z -> ScopeType -> M bool.
Hypothesis ProcessInst_rec_errors : forall inst s u st',
  unwound s -> ProcessInst_rec inst s = Ok (u, st') ->
  after_ProcessInst inst s st'.
Hypothesis UpdateScope_rec_errors : forall new_scope ty,
  hoare_val unwound (UpdateScope_rec new_scope ty) after_UpdateScope.

(** A dispatch of an instruction of the genome by [UpdateScope]. *)
Lemma redispatch_errors :
  hoare_val unwound
    (gen <- get genome ;;
     ip <- get inst_ptr ;;
     inst <- vector_at gen ip ;;
     ProcessInst_rec inst ;;;
     ret false)
    after_UpdateScope.
Proof.
  intros st b st' HU H.
  rewrite !bind_get in H.
  apply bind_inv in H as (inst & st1 & Hat & H).
  apply vector_at_lookup in Hat as (-> & Hl & _).
  apply bind_inv in H as (u & st2 & HP & H).
  apply ret_inv in H as [-> ->].
  destruct (ProcessInst_rec_errors _ _ _ _ HU HP) as [Hun|[Hc Hz]];
    [left; exact Hun|].
  right. split; [reflexivity|]. split; [exact Hc|].
  destruct Hz as [(Hz & Hw & Hst)|[_ Hz]]; [|exact Hz].
  destruct HU as [[He Hg] _].
  exists inst, st.
  split; [exact Hw|]. split; [exact Hl|]. split; [exact Hz|].
  split; [exact He|]. split; [exact Hg|exact Hst].
Qed.

Lemma UpdateScope_body_errors new_scope ty :
  hoare_val unwound
    (UpdateScope_body ProcessInst_rec UpdateScope_rec new_scope ty)
    after_UpdateScope.
Proof.
  unfold UpdateScope_body.
  apply hoare_val_bind; [apply unwound_CurScope|]. intros cur.
  destruct (cur <? size_t_incr new_scope).
  { intros st b st' [HU _] H. left. revert st b st' HU H.
    change (preserves untouched
              (ss <- get scope_stack ;;
               ip <- get inst_ptr ;;
               modify (set_scope_stack
                         (mkScopeInfo (size_t_incr new_scope) ty ip :: ss)) ;;;
               ret true)).
    frame_auto untouched_frame. }
  apply hoare_val_bind; [apply unwound_CurScopeType|]. intros cur_type.
  destruct cur_type.
  - apply hoare_val_bind; [|intros _; apply UpdateScope_rec_errors].
    apply unwound_ExitScope.
  - apply hoare_val_bind; [|intros _; apply UpdateScope_rec_errors].
    apply unwound_ExitScope.
  - intros st b st' HU H. rewrite bind_get in H.
    apply bind_inv in H as (top & s1 & Hback & H).
    assert (s1 = st /\ exists rest, scope_stack st = top :: rest)
      as [-> [rest Hss]].
    { destruct (scope_stack st) as [|t r]; [discriminate Hback|].
      apply ret_inv in Hback as [-> ->]. eauto. }
    apply bind_inv in H as (u & s2 & Hjump & H).
    apply modify_inv in Hjump as ->.
    revert H.
    apply (hoare_val_bind unwound ExitScope); [apply unwound_ExitScope| |].
    + intros _. apply redispatch_errors.
    + destruct HU as [HU Hw]. split.
      * revert HU. apply untouched_frame; reflexivity.
      * exact (unwinds_loop _ _ _ _ Hw Hss).
  - apply hoare_val_bind; [apply unwound_return|].
    intros _. apply redispatch_errors.
Qed.

Lemma ProcessInst_body_errors inst s u st' :
  unwound s -> ProcessInst_body UpdateScope_rec inst s = Ok (u, st') ->
  after_ProcessInst inst s st'.
Proof.
  intros HU H. unfold ProcessInst_body in H.
  assert (forall m : M unit,
            preserves untouched m -> m s = Ok (u, st') ->
            after_ProcessInst inst s st') as Hsimple.
  { intros m Hm Hrun. left. exact (Hm _ _ _ (proj1 HU) Hrun). }
  (* Once [UpdateScope] has returned [false], the case is over; after
     [true], what follows leaves the counter alone. *)
  assert (forall (m : M bool) (k : bool -> M unit),
            uses_UpdateScope (id inst) = true ->
            hoare_val unwound m after_UpdateScope ->
            (forall s1, k false s1 = Ok (tt, s1)) ->
            preserves untouched (k true) ->
            bind m k s = Ok (u, st') ->
            after_ProcessInst inst s st') as Hscope.
  { intros m k Huses Hm Hfalse Htrue Hrun.
    apply bind_inv in Hrun as (b & s1 & Hm1 & Hk1).
    destruct (Hm _ _ _ HU Hm1) as [Hun|(-> & Hc & Hz)].
    - left. destruct b; [exact (Htrue _ _ _ Hun Hk1)|].
      rewrite Hfalse in Hk1. injection Hk1 as _ <-. exact Hun.
    - rewrite Hfalse in Hk1. injection Hk1 as _ <-.
      right. split; [exact Hc|]. right. split; assumption. }
  assert (forall rest : float -> M unit,
            (id inst = Div \/ id inst = Mod) ->
            (forall denom, preserves untouched (rest denom)) ->
            (denom <- reg_read (arg1 inst) ;;
             if PrimFloat.eqb denom 0%float then
               e' <- get errors ;; modify (set_errors (size_t_incr e'))
             else rest denom) s = Ok (u, st') ->
            after_ProcessInst inst s st') as Hdiv.
  { intros rest Hid Hrest Hrun.
    apply bind_inv in Hrun as (denom & s1 & Hread & Hrun).
    apply reg_read_inv in Hread as (-> & b & Hb & ->).
    destruct (PrimFloat.eqb (regs s !!! b) 0%float) eqn:Hzero.
    - rewrite bind_get in Hrun. apply modify_inv in Hrun as ->.
      right. destruct HU as [[He Hg] Hw]. split.
      + split; [cbn; rewrite He; reflexivity | exact Hg].
      + left. split; [|split; [exact Hw|reflexivity]].
        split; [exact Hid|]. exists b. split; assumption.
    - left. exact (Hrest _ _ _ _ (proj1 HU) Hrun). }
  destruct (id inst) eqn:Hid;
    try (solve [eapply Hsimple; [|exact H]; frame_auto untouched_frame]).
  - (* Div *)
    eapply (Hdiv (fun denom => x <- reg_read (arg0 inst) ;;
                    reg_write (arg2 inst) (PrimFloat.div x denom)));
      [left; reflexivity| |exact H].
    intros denom. frame_auto untouched_frame.
  - (* Mod *)
    eapply (Hdiv (fun base => x <- reg_read (arg0 inst) ;;
                    reg_write (arg2 inst) (PrimFloat.div x base)));
      [right; reflexivity| |exact H].
    intros base. frame_auto untouched_frame.
  - (* If *)
    eapply Hscope; [reflexivity|apply UpdateScope_rec_errors| | |exact H].
    + reflexivity.
    + cbn [negb]. frame_auto untouched_frame.
  - (* While *)
    eapply Hscope; [reflexivity|apply UpdateScope_rec_errors| | |exact H].
    + reflexivity.
    + cbn [negb]. frame_auto untouched_frame.
  - (* Countdown *)
    eapply Hscope; [reflexivity|apply UpdateScope_rec_errors| | |exact H].
    + reflexivity.
    + cbn [negb]. frame_auto untouched_frame.
  - (* Scope *)
    eapply Hscope; [reflexivity|apply UpdateScope_rec_errors| | |exact H].
    + reflexivity.
    + frame_auto untouched_frame.
  - (* Define *)
    eapply Hscope; [reflexivity|apply UpdateScope_rec_errors| | |exact H].
    + reflexivity.
    + cbn [negb]. frame_auto untouched_frame.
  - (* Call *)
    apply bind_inv in H as (i & s1 & Hi & H).
    apply array_index_inv in Hi as [-> _].
    rewrite !bind_get in H.
    destruct (size (genome s) <=? to_size_t (fun_starts s !!! i)).
    { left. apply ret_inv in H as [_ ->]. exact (proj1 HU). }
    apply bind_inv in H as (def & s1 & Hdef & H).
    apply vector_at_inv in Hdef as [-> _].
    destruct (negb (bool_decide (id def = Define))).
    { left. apply ret_inv in H as [_ ->]. exact (proj1 HU). }
    eapply Hscope; [reflexivity|apply UpdateScope_rec_errors| | |exact H].
    + reflexivity.
    + cbn [negb]. frame_auto untouched_frame.
Qed.
End bodies.

Lemma dispatch_errors fuel :
  (forall inst s u st',
     unwound s -> ProcessInst_fuel fuel inst s = Ok (u, st') ->
     after_ProcessInst inst s st') /\
  (forall new_scope ty,
     hoare_val unwound (UpdateScope_fuel fuel new_scope ty)
       after_UpdateScope).
Proof.
  induction fuel as [|n [IHP IHU]]; simpl.
  - split; [intros inst s u st' _ [=] | intros new_scope ty st b st' _ [=]].
  - split.
    + intros inst s u st'. apply ProcessInst_body_errors, IHU.
    + intros new_scope ty. apply UpdateScope_body_errors; assumption.
Qed.
End errors_accounting.

Lemma zero_divisor_step (op : InstID) (a c : Z) (b : fin REGS) st :
  op = Div \/ op = Mod ->
  PrimFloat.eqb (regs st !!! b) 0%float = true ->
  ProcessInst (Inst op a (rix b) c) st =
  Ok (tt, set_errors (size_t_incr (errors st)) st).
Proof.
  intros Hop Hb. rewrite ProcessInst_unfold. unfold ProcessInst_body.
  cbn [id Inst].
  change (arg1 (Inst op a (rix b) c)) with (rix b).
  destruct Hop as [-> | ->];
    rewrite (bind_Ok _ _ _ _ _ (reg_read_rix b st)), Hb; reflexivity.
Qed.

Lemma size_t_incr_small z : 0 <= z < 2 ^ 64 - 1 -> size_t_incr z = z + 1.
Proof. intros H. unfold size_t_incr. apply to_size_t_small. lia. Qed.

Lemma returning_state_run : run return_genome 3 = Ok returning_state.
Proof. vm_compute. reflexivity. Qed.

Lemma returned_state_run :
  UpdateScope_return returning_state = Ok (tt, returned_state) /\
  genome returned_state !! Z.to_nat (to_size_t (inst_ptr returned_state)) =
    Some (Inst Div 1 0 2).
Proof. split; vm_compute; reflexivity. Qed.

(** C5. In every state in which [regs[b] == 0], [Div a b c] and [Mod a b c]
    end without an error, with [errors] incremented once (by exactly one
    below the largest [size_t]) and every register, [regs[c]] included, as
    before.  And whenever a dispatched instruction leaves [errors] changed,
    it went up by that one increment, made by a [Div] or a [Mod] in the very
    state in which its divisor was zero, and that increment is the last thing
    the dispatch did.  Either the instruction itself is that [Div] or [Mod],
    its divisor is zero in the starting state and the final state is the
    starting state with the counter incremented; or its case called
    [UpdateScope], and the scope engine unwound the starting state (by
    [ExitScope], the jump back to the start of a loop, the return from a
    function) to a state [s] and dispatched the [Div] or [Mod] of the genome
    that is under the instruction pointer of [s]: [s] has the starting
    counter and genome, the divisor is zero in [s], and the final state is
    [s] with the counter incremented.  No other opcode touches the
    counter. *)
Theorem errors_count_zero_divisors :
  (forall (op : InstID) (a c : Z) (b : fin REGS) (st : AvidaGP),
     op = Div \/ op = Mod ->
     PrimFloat.eqb (regs st !!! b) 0%float = true ->
     exists st',
       ProcessInst (Inst op a (rix b) c) st = Ok (tt, st') /\
       errors st' = size_t_incr (errors st) /\
       (0 <= errors st < 2 ^ 64 - 1 -> errors st' = errors st + 1) /\
       regs st' = regs st) /\
  (forall (inst : Instruction) (st st' : AvidaGP),
     ProcessInst inst st = Ok (tt, st') ->
     errors st' <> errors st ->
     errors st' = size_t_incr (errors st) /\
     ((zero_divisor inst st /\ counted_in st st') \/
      (uses_UpdateScope (id inst) = true /\
       redispatched_zero_divisor st st'))).
Proof.
  split.
  - intros op a c b st Hop Hb. eexists.
    split; [apply zero_divisor_step; assumption|].
    split; [reflexivity|]. split; [|reflexivity].
    intros Hrange. cbn [errors set_errors]. apply size_t_incr_small, Hrange.
  - intros inst st st' Hrun Hne. unfold ProcessInst in Hrun.
    destruct (proj1 (dispatch_errors st (depth_bound st)) inst st tt st')
      as [[He _]|[[He _] Hz]];
      [apply unwound_here | exact Hrun | congruence |].
    split; [exact He|].
    destruct Hz as [(Hz & _ & Hc)|Hz]; [left; split; assumption|].
    right. exact Hz.
Qed.

Lemma errors_count_zero_divisors_witness :
  (exists st',
     ProcessInst (Inst Div 5 0 3) AvidaGP_fresh = Ok (tt, st') /\
     errors st' = size_t_incr (errors AvidaGP_fresh) /\
     (0 <= errors AvidaGP_fresh < 2 ^ 64 - 1 ->
      errors st' = errors AvidaGP_fresh + 1) /\
     regs st' = regs AvidaGP_fresh) /\
  (errors (set_errors 1 AvidaGP_fresh) = size_t_incr (errors AvidaGP_fresh) /\
   ((zero_divisor (Inst Div 5 0 3) AvidaGP_fresh /\
     counted_in AvidaGP_fresh (set_errors 1 AvidaGP_fresh)) \/
    (uses_UpdateScope (id (Inst Div 5 0 3)) = true /\
     redispatched_zero_divisor AvidaGP_fresh (set_errors 1 AvidaGP_fresh)))) /\
  (errors (set_errors 1 returned_state) = size_t_incr (errors returning_state) /\
   ((zero_divisor (Inst Scope 0 0 0) returning_state /\
     counted_in returning_state (set_errors 1 returned_state)) \/
    (uses_UpdateScope (id (Inst Scope 0 0 0)) = true /\
     redispatched_zero_divisor returning_state
       (set_errors 1 returned_state)))).
Proof.
  split; [|split].
  - apply (proj1 errors_count_zero_divisors Div 5 3 0%fin AvidaGP_fresh).
    + left. reflexivity.
    + reflexivity.
  - apply (proj2 errors_count_zero_divisors (Inst Div 5 0 3) AvidaGP_fresh
             (set_errors 1 AvidaGP_fresh)).
    + vm_compute. reflexivity.
    + vm_compute. discriminate.
  - apply (proj2 errors_count_zero_divisors (Inst Scope 0 0 0) returning_state
             (set_errors 1 returned_state)).
    + vm_compute. reflexivity.
    + vm_compute. discriminate.
Defined.

(** ** The auxiliary stacks *)

Lemma PushStack_rix (s : fin REGS) v st :
  size (stacks st !!! s) < STACK_CAP ->
  PushStack (rix s) v st =
  Ok (tt, set_stacks (vinsert s (v :: stacks st !!! s) (stacks st)) st).
Proof.
  intros Hlen. unfold PushStack.
  rewrite (bind_Ok _ _ _ _ _ (array_index_rix s st)), bind_get.
  destruct (Z.leb_spec STACK_CAP (size (stacks st !!! s))); [lia|].
  reflexivity.
Qed.

Lemma PopStack_rix (s : fin REGS) out rest st :
  stacks st !!! s = out :: rest ->
  PopStack (rix s) st = Ok (out, set_stacks (vinsert s rest (stacks st)) st).
Proof.
  intros Hs. unfold PopStack.
  rewrite (bind_Ok _ _ _ _ _ (array_index_rix s st)), bind_get, Hs.
  reflexivity.
Qed.

Lemma Push_step (r s : fin REGS) z st :
  size (stacks st !!! s) < STACK_CAP ->
  ProcessInst (Inst Push (rix r) (rix s) z) st =
  Ok (tt, set_stacks (vinsert s (regs st !!! r :: stacks st !!! s) (stacks st))
            st).
Proof.
  intros Hlen. rewrite ProcessInst_unfold. unfold ProcessInst_body.
  cbn [id Inst].
  change (arg0 (Inst Push (rix r) (rix s) z)) with (rix r).
  change (arg1 (Inst Push (rix r) (rix s) z)) with (rix s).
  rewrite (bind_Ok _ _ _ _ _ (reg_read_rix r st)).
  apply PushStack_rix, Hlen.
Qed.

Lemma Pop_step (r s : fin REGS) z out rest st :
  stacks st !!! s = out :: rest ->
  ProcessInst (Inst Pop (rix s) (rix r) z) st =
  Ok (tt, set_regs (vinsert r out (regs st))
            (set_stacks (vinsert s rest (stacks st)) st)).
Proof.
  intros Hs. rewrite ProcessInst_unfold. unfold ProcessInst_body.
  cbn [id Inst].
  change (arg0 (Inst Pop (rix s) (rix r) z)) with (rix s).
  change (arg1 (Inst Pop (rix s) (rix r) z)) with (rix r).
  rewrite (bind_Ok _ _ _ _ _ (PopStack_rix s out rest st Hs)).
  apply (reg_write_rix r out (set_stacks (vinsert s rest (stacks st)) st)).
Qed.

(** C10. In every state in which [stacks[s]] holds fewer than [STACK_CAP]
    entries, [Push r s] ends in a state whose [stacks[s]] is the old one
    with [regs[r]] on top, and [Pop s r] run next pops that value and ends
    in the state before the [Push]: every register, [regs[r]] included, and
    every stack is as it was. *)
Theorem Push_Pop_restores (r s : fin REGS) (z z' : Z) (st : AvidaGP) :
  size (stacks st !!! s) < STACK_CAP ->
  exists st1,
    ProcessInst (Inst Push (rix r) (rix s) z) st = Ok (tt, st1) /\
    stacks st1 !!! s = regs st !!! r :: stacks st !!! s /\
    ProcessInst (Inst Pop (rix s) (rix r) z') st1 = Ok (tt, st).
Proof.
  intros Hlen. eexists. split; [apply Push_step, Hlen|].
  split; [apply vlookup_insert|].
  erewrite Pop_step; [|apply vlookup_insert].
  destruct st as [g rg inp out stk fs ip ss rs cs er].
  unfold set_regs, set_stacks. cbn.
  rewrite vinsert_vinsert, !vlookup_insert_self. reflexivity.
Qed.

Lemma Push_Pop_restores_witness :
  exists st1,
    ProcessInst (Inst Push 3 7 0) AvidaGP_fresh = Ok (tt, st1) /\
    stacks st1 !!! 7%fin = [3%float] /\
    ProcessInst (Inst Pop 7 3 0) st1 = Ok (tt, AvidaGP_fresh).
Proof.
  apply (Push_Pop_restores 3%fin 7%fin 0 0 AvidaGP_fresh). reflexivity.
Defined.

(** ** Register indices out of range *)

Lemma array_index_eq pos (i : fin REGS) st :
  to_size_t pos = rix i -> array_index REGS pos st = Ok (i, st).
Proof.
  intros H. pose proof (array_index_rix i st) as Hr.
  unfold array_index in *. cbv zeta in *.
  rewrite to_size_t_rix in Hr. rewrite H. exact Hr.
Qed.

Lemma reg_read_eq a (i : fin REGS) st :
  to_size_t a = rix i -> reg_read a st = Ok (regs st !!! i, st).
Proof.
  intros H. unfold reg_read.
  rewrite (bind_Ok _ _ _ _ _ (array_index_eq a i st H)). reflexivity.
Qed.

Lemma reg_write_eq a (i : fin REGS) v st :
  to_size_t a = rix i ->
  reg_write a v st = Ok (tt, set_regs (vinsert i v (regs st)) st).
Proof.
  intros H. unfold reg_write.
  rewrite (bind_Ok _ _ _ _ _ (array_index_eq a i st H)). reflexivity.
Qed.

Lemma reg_read_fail a st :
  Z.of_nat REGS <= to_size_t a -> reg_read a st = Err AssertFail.
Proof.
  intros H. unfold reg_read. apply bind_Err, array_index_fail, H.
Qed.

Lemma reg_write_fail a v st :
  Z.of_nat REGS <= to_size_t a -> reg_write a v st = Err AssertFail.
Proof.
  intros H. unfold reg_write. apply bind_Err, array_index_fail, H.
Qed.

Lemma PopStack_fail a st :
  Z.of_nat REGS <= to_size_t a -> PopStack a st = Err AssertFail.
Proof.
  intros H. unfold PopStack. apply bind_Err, array_index_fail, H.
Qed.

Lemma fin_of_nat_lt n pos :
  (pos < n)%nat -> exists i : fin n, fin_of_nat n pos = Some i.
Proof.
  revert pos. induction n as [|n IH]; intros pos H; [lia|]. simpl.
  destruct pos as [|pos]; [eauto|].
  destruct (IH pos) as [i ->]; [lia|]. simpl. eauto.
Qed.

Lemma array_index_ok pos st :
  to_size_t pos < Z.of_nat REGS ->
  exists i : fin REGS, array_index REGS pos st = Ok (i, st).
Proof.
  intros H. pose proof (to_size_t_range pos) as Hr.
  destruct (fin_of_nat_lt REGS (Z.to_nat (to_size_t pos))) as [i Hi]; [lia|].
  exists i. unfold array_index.
  destruct (Z.ltb_spec (to_size_t pos) (Z.of_nat REGS)); [|lia].
  rewrite Hi. reflexivity.
Qed.

Lemma PushStack_fail a v st :
  Z.of_nat REGS <= to_size_t a -> PushStack a v st = Err AssertFail.
Proof.
  intros H. unfold PushStack. apply bind_Err, array_index_fail, H.
Qed.

(** An index expression either yields the element or fails the assertion. *)
Lemma array_index_total pos st :
  (exists i : fin REGS, array_index REGS pos st = Ok (i, st)) \/
  array_index REGS pos st = Err AssertFail.
Proof.
  destruct (Z.lt_ge_cases (to_size_t pos) (Z.of_nat REGS)) as [Hlt|Hge].
  - left. apply array_index_ok, Hlt.
  - right. apply array_index_fail, Hge.
Qed.

Lemma reg_read_total a st :
  (exists x, reg_read a st = Ok (x, st)) \/ reg_read a st = Err AssertFail.
Proof.
  destruct (array_index_total a st) as [[i Hi]|Hi].
  - left. exists (regs st !!! i). unfold reg_read.
    rewrite (bind_Ok _ _ _ _ _ Hi). reflexivity.
  - right. unfold reg_read. apply bind_Err, Hi.
Qed.

Lemma PopStack_total a st :
  (exists x st1, PopStack a st = Ok (x, st1)) \/
  PopStack a st = Err AssertFail.
Proof.
  destruct (array_index_total a st) as [[i Hi]|Hi].
  - left. unfold PopStack. rewrite (bind_Ok _ _ _ _ _ Hi), bind_get.
    destruct (stacks st !!! i); eexists _, _; reflexivity.
  - right. unfold PopStack. apply bind_Err, Hi.
Qed.

Lemma CurScope_top st :
  scope_stack st <> [] -> exists cur, CurScope st = Ok (cur, st).
Proof.
  intros Hne. unfold CurScope. rewrite bind_get.
  destruct (scope_stack st) as [|top rest]; [contradiction|].
  exists (scope top). reflexivity.
Qed.

(** The rest of a case, once an argument out of range is known: the
    accesses before the failing one return or fail the same assertion. *)
Ltac index_fail :=
  unfold out_of_range in *;
  first
    [ apply reg_write_fail; assumption
    | apply PushStack_fail; assumption
    | apply bind_Err, reg_read_fail; assumption
    | apply bind_Err, array_index_fail; assumption
    | apply bind_Err, PopStack_fail; assumption
    | match goal with
      | |- bind (reg_read ?a) _ ?s = _ =>
          let E := fresh "E" in
          destruct (reg_read_total a s) as [[? E]|E];
          [rewrite (bind_Ok _ _ _ _ _ E); index_fail
          |exact (bind_Err _ _ _ _ E)]
      | |- bind (array_index REGS ?a) _ ?s = _ =>
          let E := fresh "E" in
          destruct (array_index_total a s) as [[? E]|E];
          [rewrite (bind_Ok _ _ _ _ _ E); index_fail
          |exact (bind_Err _ _ _ _ E)]
      | |- bind (PopStack ?a) _ ?s = _ =>
          let E := fresh "E" in
          destruct (PopStack_total a s) as [(? & ? & E)|E];
          [rewrite (bind_Ok _ _ _ _ _ E); index_fail
          |exact (bind_Err _ _ _ _ E)]
      | |- bind (get _) _ _ = _ => rewrite bind_get; index_fail
      end ].

Lemma ProcessInst_index_fail inst st :
  index_out_of_range inst st -> ProcessInst inst st = Err AssertFail.
Proof.
  intros H. rewrite ProcessInst_unfold.
  unfold index_out_of_range in H. unfold ProcessInst_body.
  assert (forall ty (k : bool -> M unit),
            enters inst ty st ->
            (forall s1, k true s1 = Err AssertFail) ->
            bind (UpdateScope_fuel (4 * length (scope_stack st) + 5)
                    (to_size_t (arg1 inst)) ty) k st = Err AssertFail)
    as Hscope.
  { intros ty k [st1 Hin] Hk.
    change (UpdateScope_fuel (4 * length (scope_stack st) + 5)
              (to_size_t (arg1 inst)) ty st = Ok (true, st1)) in Hin.
    rewrite (bind_Ok _ _ _ _ _ Hin). apply Hk. }
  assert (forall rest : float -> M unit,
            out_of_range (arg1 inst) \/
            (exists b : fin REGS,
               to_size_t (arg1 inst) = rix b /\
               PrimFloat.eqb (regs st !!! b) 0%float = false /\
               (out_of_range (arg0 inst) \/ out_of_range (arg2 inst))) ->
            (forall denom,
               out_of_range (arg0 inst) \/ out_of_range (arg2 inst) ->
               rest denom st = Err AssertFail) ->
            (denom <- reg_read (arg1 inst) ;;
             if PrimFloat.eqb denom 0%float then
               e' <- get errors ;; modify (set_errors (size_t_incr e'))
             else rest denom) st = Err AssertFail) as Hdiv.
  { intros rest [Hb|(b & Hb & Hnz & Hac)] Hrest.
    - apply bind_Err, reg_read_fail, Hb.
    - rewrite (bind_Ok _ _ _ _ _ (reg_read_eq _ b st Hb)), Hnz.
      apply Hrest, Hac. }
  destruct (id inst) eqn:Hid; try contradiction.
  - (* Inc *) index_fail.
  - (* Dec *) index_fail.
  - (* Not *) index_fail.
  - (* SetReg *) index_fail.
  - (* Add *) destruct H as [H|[H|H]]; index_fail.
  - (* Sub *) destruct H as [H|[H|H]]; index_fail.
  - (* Mult *) destruct H as [H|[H|H]]; index_fail.
  - (* Div *)
    apply (Hdiv (fun denom => x <- reg_read (arg0 inst) ;;
                   reg_write (arg2 inst) (PrimFloat.div x denom)) H).
    intros denom [Ha|Hc]; index_fail.
  - (* Mod *)
    apply (Hdiv (fun base => x <- reg_read (arg0 inst) ;;
                   reg_write (arg2 inst) (PrimFloat.div x base)) H).
    intros base [Ha|Hc]; index_fail.
  - (* TestEqu *) destruct H as [H|[H|H]]; index_fail.
  - (* TestNEqu *) destruct H as [H|[H|H]]; index_fail.
  - (* TestLess *) destruct H as [H|[H|H]]; index_fail.
  - (* If *)
    destruct H as [H Hin]. apply (Hscope _ _ Hin).
    intros s1. cbn [negb]. index_fail.
  - (* While *)
    destruct H as [H Hin]. apply (Hscope _ _ Hin).
    intros s1. cbn [negb]. index_fail.
  - (* Countdown *)
    destruct H as [H Hin]. apply (Hscope _ _ Hin).
    intros s1. cbn [negb]. index_fail.
  - (* Define *)
    destruct H as [H Hin]. apply (Hscope _ _ Hin).
    intros s1. cbn [negb]. index_fail.
  - (* Call *) index_fail.
  - (* Push *) destruct H as [H|H]; index_fail.
  - (* Pop *) destruct H as [H|H]; index_fail.
  - (* Input *) destruct H as [H|H]; index_fail.
  - (* Output *) destruct H as [H|H]; index_fail.
  - (* CopyVal *) destruct H as [H|H]; index_fail.
  - (* ScopeReg *)
    destruct H as [H Hne]. destruct (CurScope_top st Hne) as [cur Hcur].
    rewrite (bind_Ok _ _ _ _ _ Hcur). index_fail.
Qed.

(** ** The register an instruction assigns to *)

Lemma reg_write_inv a v st u st' :
  reg_write a v st = Ok (u, st') ->
  exists i : fin REGS,
    to_size_t a = rix i /\ st' = set_regs (vinsert i v (regs st)) st.
Proof.
  unfold reg_write. intros H.
  apply bind_inv in H as (i & st1 & Hi & H).
  apply array_index_inv in Hi as [-> Hi].
  rewrite bind_get in H. apply modify_inv in H.
  exists i. split; assumption.
Qed.

Lemma reg_write_changes a v (r : vec float REGS) s u st' (i : fin REGS) :
  regs s = r -> reg_write a v s = Ok (u, st') ->
  regs st' !!! i <> r !!! i -> to_size_t a = rix i.
Proof.
  intros Hr H Hne. apply reg_write_inv in H as (j & Hj & ->).
  destruct (decide (j = i)) as [->|Hji]; [exact Hj|].
  exfalso. apply Hne. cbn [regs set_regs].
  rewrite vlookup_insert_ne by exact Hji. rewrite Hr. reflexivity.
Qed.

Lemma PopStack_regs a st x st' :
  PopStack a st = Ok (x, st') -> regs st' = regs st.
Proof.
  intros H.
  refine (preserves_PopStack (fun s => regs s = regs st) _ a st x st' eq_refl H).
  intros s0 s1 Hs. exact Hs.
Qed.

Lemma PushStack_regs a v st u st' :
  PushStack a v st = Ok (u, st') -> regs st' = regs st.
Proof.
  intros H.
  refine (preserves_PushStack (fun s => regs s = regs st) _ a v st u st' eq_refl H).
  intros s0 s1 Hs. exact Hs.
Qed.

(** The reads at the head of a case, which leave the state as it is. *)
Ltac reads_inv H :=
  repeat
    (let Hr := fresh "Hr" in
     match type of H with
     | bind (get _) _ _ = _ => rewrite bind_get in H
     | bind (reg_read _) _ _ = _ =>
         apply bind_inv in H as (? & ? & Hr & H);
         apply reg_read_inv in Hr as (-> & _)
     | bind (array_index _ _) _ _ = _ =>
         apply bind_inv in H as (? & ? & Hr & H);
         apply array_index_inv in Hr as (-> & _)
     | bind CurScope _ _ = _ =>
         apply bind_inv in H as (? & ? & Hr & H);
         apply CurScope_inv in Hr as (-> & _)
     end).

Lemma ProcessInst_destination inst st st' (i : fin REGS) :
  uses_UpdateScope (id inst) = false -> id inst <> Break ->
  ProcessInst inst st = Ok (tt, st') ->
  regs st' !!! i <> regs st !!! i ->
  exists a, destination inst = Some a /\ to_size_t a = rix i.
Proof.
  intros Huses Hbreak H Hne. rewrite ProcessInst_unfold in H.
  unfold ProcessInst_body in H. unfold destination.
  assert (forall s v a,
            reg_write a v s = Ok (tt, st') -> regs s = regs st ->
            exists a', Some a = Some a' /\ to_size_t a' = rix i) as Hwrite.
  { intros s v a Hw Hs. exists a. split; [reflexivity|].
    exact (reg_write_changes _ _ _ _ _ _ _ Hs Hw Hne). }
  assert (forall o : option Z,
            regs st' = regs st ->
            exists a', o = Some a' /\ to_size_t a' = rix i) as Hsame.
  { intros o Hs. exfalso. apply Hne. rewrite Hs. reflexivity. }
  assert (forall (rest : float -> M unit) a,
            (forall denom, rest denom st = Ok (tt, st') ->
               exists a', Some a = Some a' /\ to_size_t a' = rix i) ->
            (denom <- reg_read (arg1 inst) ;;
             if PrimFloat.eqb denom 0%float then
               e' <- get errors ;; modify (set_errors (size_t_incr e'))
             else rest denom) st = Ok (tt, st') ->
            exists a', Some a = Some a' /\ to_size_t a' = rix i) as Hdiv.
  { intros rest a Hrest Hrun. reads_inv Hrun.
    match type of Hrun with
    | (if ?c then _ else _) _ = _ => destruct c
    end.
    - rewrite bind_get in Hrun. apply modify_inv in Hrun as ->.
      apply Hsame. reflexivity.
    - eapply Hrest, Hrun. }
  destruct (id inst) eqn:Hid; try discriminate Huses; try congruence.
  - (* Inc *) reads_inv H. eapply Hwrite; [exact H|reflexivity].
  - (* Dec *) reads_inv H. eapply Hwrite; [exact H|reflexivity].
  - (* Not *) reads_inv H. eapply Hwrite; [exact H|reflexivity].
  - (* SetReg *) eapply Hwrite; [exact H|reflexivity].
  - (* Add *) reads_inv H. eapply Hwrite; [exact H|reflexivity].
  - (* Sub *) reads_inv H. eapply Hwrite; [exact H|reflexivity].
  - (* Mult *) reads_inv H. eapply Hwrite; [exact H|reflexivity].
  - (* Div *)
    eapply (Hdiv (fun denom => x <- reg_read (arg0 inst) ;;
                    reg_write (arg2 inst) (PrimFloat.div x denom)));
      [|exact H].
    intros denom Hr. reads_inv Hr. eapply Hwrite; [exact Hr|reflexivity].
  - (* Mod *)
    eapply (Hdiv (fun base => x <- reg_read (arg0 inst) ;;
                    reg_write (arg2 inst) (PrimFloat.div x base)));
      [|exact H].
    intros base Hr. reads_inv Hr. eapply Hwrite; [exact Hr|reflexivity].
  - (* TestEqu *) reads_inv H. eapply Hwrite; [exact H|reflexivity].
  - (* TestNEqu *) reads_inv H. eapply Hwrite; [exact H|reflexivity].
  - (* TestLess *) reads_inv H. eapply Hwrite; [exact H|reflexivity].
  - (* Push *)
    reads_inv H. apply Hsame. eapply PushStack_regs, H.
  - (* Pop *)
    apply bind_inv in H as (x & s1 & Hpop & H).
    eapply Hwrite; [exact H|]. eapply PopStack_regs, Hpop.
  - (* Input *) reads_inv H. eapply Hwrite; [exact H|reflexivity].
  - (* Output *)
    reads_inv H. apply modify_inv in H as ->. apply Hsame. reflexivity.
  - (* CopyVal *) reads_inv H. eapply Hwrite; [exact H|reflexivity].
  - (* ScopeReg *)
    reads_inv H. apply modify_inv in H as ->. apply Hsame. reflexivity.
  - (* Unknown *) discriminate H.
Qed.

(** C1, as the code has it.  No index is reduced modulo [REGS].  An index
    that passes the bounds check of [operator[]] is the argument itself (as
    a [size_t]), and every argument in [0, REGS) passes it and selects the
    element of that number.  For every opcode and every argument that its
    case in [ProcessInst] indexes an array of [REGS] entries with (see
    [index_out_of_range]), an argument of [REGS] or more makes the
    instruction fail the assertion of [emp::array], in every state.  And
    when an instruction whose case does not go through the scope engine
    returns, a register that differs afterwards is the one whose number is
    the destination argument of the instruction, itself. *)
Theorem register_index_is_checked :
  (forall (pos : Z) (i : fin REGS) (st st' : AvidaGP),
     array_index REGS pos st = Ok (i, st') -> to_size_t pos = rix i /\ st' = st) /\
  (forall (i : fin REGS) (st : AvidaGP), array_index REGS (rix i) st = Ok (i, st)) /\
  (forall (inst : Instruction) (st : AvidaGP),
     index_out_of_range inst st ->
     ProcessInst inst st = Err AssertFail) /\
  (forall (inst : Instruction) (st st' : AvidaGP) (i : fin REGS),
     uses_UpdateScope (id inst) = false -> id inst <> Break ->
     ProcessInst inst st = Ok (tt, st') ->
     regs st' !!! i <> regs st !!! i ->
     exists a, destination inst = Some a /\ to_size_t a = rix i).
Proof.
  split; [|split; [|split]].
  - intros pos i st st' H. apply array_index_inv in H as [-> H].
    split; [exact H | reflexivity].
  - apply array_index_rix.
  - intros inst st H. apply ProcessInst_index_fail, H.
  - intros inst st st' i Huses Hbreak Hrun Hne.
    destruct (ProcessInst_destination inst st st' i Huses Hbreak Hrun Hne)
      as (a & Ha & Hi).
    exists a. split; [exact Ha | exact Hi].
Qed.

Lemma register_index_is_checked_witness :
  (to_size_t 5 = rix 5%fin /\ AvidaGP_fresh = AvidaGP_fresh) /\
  ProcessInst (Inst Add 21 0 1) AvidaGP_fresh = Err AssertFail /\
  ProcessInst (Inst Add 0 16 0) AvidaGP_fresh = Err AssertFail /\
  ProcessInst (Inst Add 0 0 16) AvidaGP_fresh = Err AssertFail /\
  ProcessInst (Inst CopyVal 0 16 0) AvidaGP_fresh = Err AssertFail /\
  ProcessInst (Inst Div 16 1 2) AvidaGP_fresh = Err AssertFail /\
  ProcessInst (Inst ScopeReg 16 0 0) AvidaGP_fresh = Err AssertFail /\
  ProcessInst (Inst If 16 0 0) AvidaGP_fresh = Err AssertFail /\
  ProcessInst (Inst Countdown 16 0 0) AvidaGP_fresh = Err AssertFail /\
  ProcessInst (Inst Define 16 0 0) AvidaGP_fresh = Err AssertFail /\
  (exists a, destination (Inst Inc 5 0 0) = Some a /\ to_size_t a = rix 5%fin).
Proof.
  pose proof (proj1 (proj2 (proj2 register_index_is_checked))) as Hfail.
  refine (conj _ (conj _ (conj _ (conj _ (conj _ (conj _ (conj _
            (conj _ (conj _ (conj _ _)))))))))).
  - apply (proj1 register_index_is_checked 5 5%fin AvidaGP_fresh AvidaGP_fresh).
    reflexivity.
  - apply (Hfail (Inst Add 21 0 1) AvidaGP_fresh).
    left. vm_compute. discriminate.
  - apply (Hfail (Inst Add 0 16 0) AvidaGP_fresh).
    right. left. vm_compute. discriminate.
  - apply (Hfail (Inst Add 0 0 16) AvidaGP_fresh).
    right. right. vm_compute. discriminate.
  - apply (Hfail (Inst CopyVal 0 16 0) AvidaGP_fresh).
    right. vm_compute. discriminate.
  - apply (Hfail (Inst Div 16 1 2) AvidaGP_fresh).
    right. exists 1%fin.
    split; [reflexivity|]. split; [vm_compute; reflexivity|].
    left. vm_compute. discriminate.
  - apply (Hfail (Inst ScopeReg 16 0 0) AvidaGP_fresh).
    split; [|discriminate]. vm_compute. discriminate.
  - apply (Hfail (Inst If 16 0 0) AvidaGP_fresh).
    split; [vm_compute; discriminate|]. eexists. vm_compute. reflexivity.
  - apply (Hfail (Inst Countdown 16 0 0) AvidaGP_fresh).
    split; [vm_compute; discriminate|]. eexists. vm_compute. reflexivity.
  - apply (Hfail (Inst Define 16 0 0) AvidaGP_fresh).
    split; [vm_compute; discriminate|]. eexists. vm_compute. reflexivity.
  - apply (proj2 (proj2 (proj2 register_index_is_checked)) (Inst Inc 5 0 0)
             AvidaGP_fresh
             (set_regs (vinsert 5%fin 6%float (regs AvidaGP_fresh))
                AvidaGP_fresh) 5%fin).
    + reflexivity.
    + discriminate.
    + vm_compute. reflexivity.
    + intros Heq.
      apply (f_equal (fun x => PrimFloat.eqb x 5%float)) in Heq.
      vm_compute in Heq. discriminate Heq.
Defined.

(** C1, as the specification has it, fails: with the argument 16 the
    register is not [16 mod 16 = 0] but none, and [Inc 16] is an assertion
    failure, where [Inc 0] is defined. *)
Lemma register_index_16_not_reduced :
  ProcessInst (Inst Inc 16 0 0) AvidaGP_fresh = Err AssertFail /\
  (exists st', ProcessInst (Inst Inc (16 mod 16) 0 0) AvidaGP_fresh = Ok (tt, st')) /\
  ~ (exists st', ProcessInst (Inst Inc 16 0 0) AvidaGP_fresh = Ok (tt, st')).
Proof.
  assert (ProcessInst (Inst Inc 16 0 0) AvidaGP_fresh = Err AssertFail) as H
    by (vm_compute; reflexivity).
  split; [exact H|]. split.
  - eexists. vm_compute. reflexivity.
  - intros [st' H']. rewrite H in H'. discriminate H'.
Qed.

(** ** Leaving scopes: [ExitScope] and [ResetIP] *)

Lemma scopes_apart_trans st1 st2 st3 :
  scopes_apart st1 st2 -> scopes_apart st2 st3 -> scopes_apart st1 st3.
Proof.
  unfold scopes_apart.
  intros (?&?&?&?&?&?&?&?) (?&?&?&?&?&?&?&?). repeat split; congruence.
Qed.

Lemma ExitScope_restore_ok rs st top rest :
  scope_stack st = top :: rest -> reg_stack st = rs -> backups_valid rs ->
  exists st',
    ExitScope_restore rs st = Ok (tt, st') /\
    scope_stack st' = scope_stack st /\ scopes_apart st st' /\
    backups_valid (reg_stack st').
Proof.
  revert st. induction rs as [|b rs IH]; intros st Hss Hrs Hv; simpl.
  - exists st. rewrite Hrs. repeat split; try reflexivity; exact Hv.
  - unfold CurScope. rewrite bind_assoc, bind_get, Hss. cbn [vector_back].
    rewrite bind_assoc, !bind_ret.
    destruct (rb_scope b =? scope top).
    + inversion Hv as [|? ? Hb Hv']; subst.
      destruct (array_index_ok (reg_id b) st Hb) as [i Hi].
      unfold reg_write. rewrite !bind_assoc, (bind_Ok _ _ _ _ _ Hi).
      rewrite bind_assoc, bind_get, bind_modify, bind_modify.
      destruct (IH (set_reg_stack rs (set_regs (vinsert i (value b) (regs st)) st)))
        as (st' & Hrun & Hss' & Hap & Hv''); [exact Hss | reflexivity | exact Hv' |].
      exists st'. split; [exact Hrun|]. split; [rewrite Hss'; exact Hss|].
      split; [|exact Hv''].
      eapply scopes_apart_trans; [|exact Hap]. repeat split.
    + exists st. rewrite Hrs. repeat split; try reflexivity; assumption.
Qed.

Lemma ExitScope_ok st top below rest :
  scope_stack st = top :: below :: rest ->
  size (scope_stack st) <= Z.of_nat REGS ->
  backups_valid (reg_stack st) ->
  exists st',
    ExitScope st = Ok (tt, st') /\
    scope_stack st' = below :: rest /\ scopes_apart st st' /\
    backups_valid (reg_stack st').
Proof.
  intros Hss Hlen Hv. unfold ExitScope. rewrite bind_get.
  assert ((1 <? size (scope_stack st)) = true) as ->.
  { apply Z.ltb_lt. rewrite Hss. unfold size. cbn [length]. lia. }
  cbn [emp_assert]. rewrite bind_ret.
  assert ((size (scope_stack st) <=? Z.of_nat REGS) = true) as ->
    by (apply Z.leb_le, Hlen).
  cbn [emp_assert]. rewrite bind_ret, bind_get.
  destruct (ExitScope_restore_ok (reg_stack st) st top (below :: rest))
    as (st1 & Hrun & Hss1 & Hap & Hv1); [exact Hss | reflexivity | exact Hv |].
  rewrite (bind_Ok _ _ _ _ _ Hrun). unfold modify.
  eexists. split; [reflexivity|]. rewrite Hss. cbn [tail scope_stack set_scope_stack].
  split; [reflexivity|]. split; [|exact Hv1].
  eapply scopes_apart_trans; [exact Hap|]. repeat split.
Qed.

Lemma ResetIP_loop_ok ss : forall st n bottom,
  scope_stack st = ss -> last ss = Some bottom ->
  size ss <= Z.of_nat REGS -> backups_valid (reg_stack st) ->
  (length ss <= n)%nat ->
  exists st',
    ResetIP_loop n st = Ok (tt, st') /\
    scope_stack st' = [bottom] /\ scopes_apart st st' /\
    backups_valid (reg_stack st').
Proof.
  induction ss as [|top ss IH]; intros st n bottom Hss Hlast Hlen Hv Hn;
    [discriminate Hlast|].
  destruct n as [|n]; [cbn [length] in Hn; lia|]. simpl.
  rewrite bind_get, Hss.
  destruct ss as [|below rest].
  - injection Hlast as <-. exists st. cbn.
    repeat split; try reflexivity; [exact Hss | exact Hv].
  - assert ((1 <? size (top :: below :: rest)) = true) as ->.
    { apply Z.ltb_lt. unfold size. cbn [length]. lia. }
    destruct (ExitScope_ok st top below rest) as (st1 & Hrun & Hss1 & Hap & Hv1);
      [exact Hss | rewrite Hss; exact Hlen | exact Hv |].
    rewrite (bind_Ok _ _ _ _ _ Hrun).
    destruct (IH st1 n bottom) as (st' & Hrun' & Hss' & Hap' & Hv');
      [exact Hss1 | exact Hlast | | exact Hv1 | cbn [length] in Hn |- *; lia |].
    { unfold size in *. cbn [length] in Hlen |- *. lia. }
    exists st'. split; [exact Hrun'|]. split; [exact Hss'|].
    split; [|exact Hv']. eapply scopes_apart_trans; eassumption.
Qed.

Lemma ResetIP_ok st bottom :
  last (scope_stack st) = Some bottom ->
  size (scope_stack st) <= Z.of_nat REGS ->
  backups_valid (reg_stack st) ->
  exists st',
    ResetIP st = Ok (tt, st') /\
    inst_ptr st' = 0 /\ scope_stack st' = [bottom] /\ call_stack st' = [] /\
    genome st' = genome st /\ errors st' = errors st /\
    inputs st' = inputs st /\ outputs st' = outputs st /\
    stacks st' = stacks st /\ fun_starts st' = fun_starts st /\
    backups_valid (reg_stack st').
Proof.
  intros Hlast Hlen Hv. unfold ResetIP. rewrite bind_modify, bind_get.
  destruct (ResetIP_loop_ok (scope_stack st) (set_inst_ptr 0 st)
              (S (length (scope_stack st))) bottom)
    as (st1 & Hrun & Hss & Hap & Hv1);
    [reflexivity | exact Hlast | exact Hlen | exact Hv | lia |].
  cbn [scope_stack set_inst_ptr].
  rewrite (bind_Ok _ _ _ _ _ Hrun). unfold modify. eexists.
  split; [reflexivity|].
  destruct Hap as (?&?&?&?&?&Hip&?&?).
  cbn [inst_ptr scope_stack call_stack genome errors inputs outputs stacks
       fun_starts reg_stack set_call_stack].
  repeat split; assumption.
Qed.

(** ** The return from a function at the end of the genome *)

(** C2, as the code has it.  [UpdateScope] is called (by a structured
    instruction or a [Call]) with a scope argument for which [new <=
    current], the top frame is a [FUNCTION] frame and the return position
    on top of the call stack is [genome.size()] or more.  Then the return
    runs [ResetIP]: when the scope stack holds at most [REGS] frames above
    and including the root and the backed-up registers exist, the
    instruction pointer is 0, only the root frame is left and the call stack
    is empty, the return position included; the instruction at position 0
    is dispatched from that state. *)
Theorem function_return_past_end (fuel : nat) (arg : Z) (ty : ScopeType)
    (st : AvidaGP) (top : ScopeInfo) (rest : list ScopeInfo)
    (ret_pos : Z) (cs : list Z) :
  scope_stack st = top :: rest ->
  type top = FUNCTION ->
  size_t_incr arg <= scope top ->
  call_stack st = ret_pos :: cs ->
  size (genome st) <= ret_pos ->
  last (scope_stack st) = Some (mkScopeInfo 0 ROOT 0) ->
  size (scope_stack st) <= Z.of_nat REGS ->
  backups_valid (reg_stack st) ->
  exists st_w,
    UpdateScope_return st = Ok (tt, st_w) /\
    inst_ptr st_w = 0 /\
    scope_stack st_w = [mkScopeInfo 0 ROOT 0] /\
    call_stack st_w = [] /\
    genome st_w = genome st /\
    UpdateScope_fuel (S fuel) arg ty st =
      (inst <- vector_at (genome st_w) 0 ;;
       ProcessInst_fuel fuel inst ;;;
       ret false) st_w.
Proof.
  intros Hss Hty Hle Hcs Hrp Hlast Hlen Hv.
  destruct (ResetIP_ok (set_inst_ptr ret_pos st) (mkScopeInfo 0 ROOT 0))
    as (st_w & Hrun & Hip & Hss_w & Hcs_w & Hg & _); [assumption..|].
  assert (UpdateScope_return st = Ok (tt, st_w)) as Hret.
  { unfold UpdateScope_return. rewrite bind_get, Hcs. cbn [vector_back].
    rewrite bind_ret, bind_modify, bind_get. cbn [genome set_inst_ptr].
    destruct (Z.leb_spec (size (genome st)) ret_pos); [exact Hrun | lia]. }
  exists st_w. repeat (split; [assumption|]).
  cbn [UpdateScope_fuel]. unfold UpdateScope_body.
  unfold CurScope, CurScopeType.
  rewrite bind_assoc, bind_get, Hss. cbn [vector_back].
  rewrite bind_assoc, !bind_ret.
  destruct (Z.ltb_spec (scope top) (size_t_incr arg)); [lia|].
  rewrite bind_assoc, bind_get, Hss. cbn [vector_back].
  rewrite bind_assoc, !bind_ret, Hty.
  rewrite (bind_Ok _ _ _ _ _ Hret), !bind_get, Hip. reflexivity.
Qed.

Lemma call_at_end_state_run : run call_at_end_genome 3 = Ok call_at_end_state.
Proof. vm_compute. reflexivity. Qed.

Lemma function_return_past_end_witness :
  exists st_w,
    UpdateScope_return call_at_end_state = Ok (tt, st_w) /\
    inst_ptr st_w = 0 /\
    scope_stack st_w = [mkScopeInfo 0 ROOT 0] /\
    call_stack st_w = [] /\
    genome st_w = genome call_at_end_state /\
    UpdateScope_fuel 9 0 BASIC call_at_end_state =
      (inst <- vector_at (genome st_w) 0 ;;
       ProcessInst_fuel 8 inst ;;;
       ret false) st_w.
Proof.
  apply (function_return_past_end 8 0 BASIC call_at_end_state
           (mkScopeInfo 2 FUNCTION 3)
           [mkScopeInfo 1 BASIC 2; mkScopeInfo 0 ROOT 0] 4 []).
  - reflexivity.
  - reflexivity.
  - vm_compute. discriminate.
  - reflexivity.
  - vm_compute. discriminate.
  - reflexivity.
  - vm_compute. discriminate.
  - apply Forall_nil_2.
Defined.

(** C2, as the specification has it, fails.  In the reachable state
    [call_at_end_state] the next instruction is [Scope 0], the top frame is a
    [FUNCTION] frame at level 2 and the return position 4 is the size of the
    genome; after the return the call stack is empty, so the return position
    is no longer on it, and it is empty when the dispatch of [Scope 0] has
    ended. *)
Lemma function_return_clears_call_stack :
  run call_at_end_genome 3 = Ok call_at_end_state /\
  genome call_at_end_state !! Z.to_nat (inst_ptr call_at_end_state) = Some (Inst Scope 0 0 0) /\
  (type <$> head (scope_stack call_at_end_state)) = Some FUNCTION /\
  (size_t_incr 0 <=? 2) = true /\
  call_stack call_at_end_state = [4] /\
  size (genome call_at_end_state) = 4 /\
  (exists st_w,
     UpdateScope_return call_at_end_state = Ok (tt, st_w) /\
     inst_ptr st_w = 0 /\
     call_stack st_w = [] /\
     call_stack st_w <> call_stack call_at_end_state) /\
  (exists st',
     ProcessInst (Inst Scope 0 0 0) call_at_end_state = Ok (tt, st') /\
     call_stack st' = []).
Proof.
  split; [exact call_at_end_state_run|].
  repeat (split; [reflexivity|]). split.
  - eexists. split; [vm_compute; reflexivity|].
    repeat (split; [reflexivity|]). discriminate.
  - eexists. split; [vm_compute; reflexivity | reflexivity].
Qed.

(** ** Scenarios *)

Lemma countdown_state_run : run countdown_genome 20 = Ok countdown_state.
Proof. vm_compute. reflexivity. Qed.

(** C8, as the code has it.  No instruction after [Inc 1] closes the scope
    of the [Countdown], so the loop never goes back: every pass over the
    genome sets [r0 = 3] and [r1 = 0] again, enters the body once, and the
    wrap at the end of the genome leaves the scope.  After the 20 steps,
    five passes, [r1 = 1] and [r0 = 2]. *)
Theorem countdown_scenario :
  exists st,
    run countdown_genome 20 = Ok st /\
    regs st !!! 1%fin = 1%float /\ regs st !!! 0%fin = 2%float /\
    run countdown_genome 4 = Ok st /\
    exec (Process 4) st = Ok st.
Proof.
  exists countdown_state. split; [exact countdown_state_run|].
  split; [reflexivity|]. split; [reflexivity|].
  split; vm_compute; reflexivity.
Qed.

(** C8, as the specification has it, fails: after the 20 steps [r1] is not
    3 and [r0] is not 0. *)
Lemma countdown_scenario_not_three :
  exists st,
    run countdown_genome 20 = Ok st /\
    PrimFloat.eqb (regs st !!! 1%fin) 3%float = false /\
    PrimFloat.eqb (regs st !!! 0%fin) 0%float = false /\
    ~ (regs st !!! 1%fin = 3%float /\ regs st !!! 0%fin = 0%float).
Proof.
  exists countdown_state. split; [exact countdown_state_run|].
  split; [reflexivity|]. split; [reflexivity|].
  intros [H _].
  assert (PrimFloat.eqb (regs countdown_state !!! 1%fin) 3%float = true) as E
    by (rewrite H; reflexivity).
  vm_compute in E. discriminate E.
Qed.

(** ** The empty genome *)

Lemma vector_at_nil {A} pos st : @vector_at A [] pos st = Err OutOfRange.
Proof.
  unfold vector_at. pose proof (to_size_t_range pos).
  destruct (Z.ltb_spec (to_size_t pos) (Z.of_nat (@length A []))) as [Hlt|];
    [cbn in Hlt; lia | reflexivity].
Qed.

(** With an empty genome [SingleProcess] reads [genome[inst_ptr]] outside
    the vector, whatever the state. *)
Lemma SingleProcess_empty_genome st :
  genome st = [] -> exists e, SingleProcess st = Err e.
Proof.
  intros Hg. unfold SingleProcess. rewrite !bind_get, Hg.
  destruct (size [] <=? inst_ptr st).
  - destruct (ResetIP st) as [[u st1]|e] eqn:E.
    + rewrite (bind_Ok _ _ _ _ _ E), bind_get.
      exists OutOfRange. apply bind_Err, vector_at_nil.
    + exists e. apply bind_Err, E.
  - rewrite bind_ret, bind_get.
    exists OutOfRange. apply bind_Err, vector_at_nil.
Qed.

(** C3, on the code.  On a machine whose genome is empty [process(k)] is a
    no-op only for [k = 0]; for every [k >= 1] the first step ends in an
    error.  On the machine the constructor builds, the error is the read of
    [genome[0]] outside the empty vector. *)
Theorem Process_empty_genome (k : nat) (st : AvidaGP) :
  genome st = [] ->
  Process 0 st = Ok (tt, st) /\
  (exists e, Process (S k) st = Err e) /\
  genome AvidaGP_fresh = [] /\
  Process (S k) AvidaGP_fresh = Err OutOfRange.
Proof.
  intros Hg. split; [reflexivity|]. split; [|split; [reflexivity|]].
  - destruct (SingleProcess_empty_genome st Hg) as [e He].
    exists e. cbn [Process]. apply bind_Err, He.
  - cbn [Process]. apply bind_Err. vm_compute. reflexivity.
Qed.

Lemma Process_empty_genome_witness :
  Process 0 AvidaGP_fresh = Ok (tt, AvidaGP_fresh) /\
  (exists e, Process 1 AvidaGP_fresh = Err e) /\
  genome AvidaGP_fresh = [] /\
  Process 1 AvidaGP_fresh = Err OutOfRange.
Proof.
  apply (Process_empty_genome 0 AvidaGP_fresh). reflexivity.
Defined.

(** ** [ResetHardware] *)

Lemma backup_state_run : run backup_genome 3 = Ok backup_state.
Proof. vm_compute. reflexivity. Qed.

Lemma deep_state_run : run deep_genome 16 = Ok deep_state.
Proof. vm_compute. reflexivity. Qed.

(** C6, on the code.  [ResetHardware] sets [regs[i] = i] and only then
    calls [ResetIP], whose [ExitScope] writes the registers backed up by
    [ScopeReg] back: from the reachable state [backup_state], in which scope 1
    holds a backup of [regs[3] = 9], the reset ends with [regs[3] = 9].  A
    backup made in the root scope is never popped: from the state reached
    by [ScopeReg 3] alone the reset leaves it on the backup stack.  And
    from the reachable state [deep_state], whose scope stack holds
    seventeen frames, the reset fails the assertion
    [scope_stack.size() <= REGS] of [ExitScope]. *)
Theorem ResetHardware_after_ScopeReg :
  reachable backup_state /\
  (exists st',
     ResetHardware backup_state = Ok (tt, st') /\
     regs st' !!! 3%fin = 9%float /\
     PrimFloat.eqb (regs st' !!! 3%fin) (double_of_int 3) = false) /\
  (exists st st',
     run [Inst ScopeReg 3 0 0] 1 = Ok st /\
     ResetHardware st = Ok (tt, st') /\
     reg_stack st' = [mkRegBackup 0 3 3%float]) /\
  reachable deep_state /\
  length (scope_stack deep_state) = 17%nat /\
  ResetHardware deep_state = Err AssertFail.
Proof.
  split; [apply (reachable_run backup_genome 3), backup_state_run|].
  split; [eexists; split; [vm_compute; reflexivity|]; split; reflexivity|].
  split.
  { eexists. eexists. split; [vm_compute; reflexivity|].
    split; [vm_compute; reflexivity | reflexivity]. }
  split; [apply (reachable_run deep_genome 16), deep_state_run|].
  split; [reflexivity|]. vm_compute. reflexivity.
Qed.

(** ** The genome printer *)

Lemma append_cons c (s t : string) : String c s +:+ t = String c (s +:+ t).
Proof. reflexivity. Qed.

Lemma append_nil_l (s : string) : "" +:+ s = s.
Proof. reflexivity. Qed.

Lemma append_assoc (s1 s2 s3 : string) : (s1 +:+ s2) +:+ s3 = s1 +:+ s2 +:+ s3.
Proof.
  induction s1 as [|c s1 IH]; [reflexivity|].
  rewrite !append_cons. f_equal. exact IH.
Qed.

Lemma append_nil_r (s : string) : s +:+ "" = s.
Proof.
  induction s as [|c s IH]; [reflexivity|].
  rewrite append_cons. f_equal. exact IH.
Qed.

Lemma put_spaces_append n os : put_spaces n os = os +:+ spaces n.
Proof.
  unfold spaces. revert os. induction n as [|n IH]; intros os; simpl.
  - symmetry. apply append_nil_r.
  - rewrite (IH (os +:+ " ")), (IH ("" +:+ " ")), append_nil_l, append_assoc.
    reflexivity.
Qed.

Lemma put_args_append l os : put_args l os = os +:+ args_text l.
Proof.
  unfold args_text. revert os. induction l as [|a l IH]; intros os; simpl.
  - symmetry. apply append_nil_r.
  - rewrite (IH (os +:+ " " +:+ pretty a)), (IH ("" +:+ " " +:+ pretty a)).
    rewrite append_nil_l, !append_assoc. reflexivity.
Qed.

Lemma PrintGenome_body_printed inst cur os :
  PrintGenome_body (cur, os) inst =
  (depth_after cur inst,
   os +:+ printed_genome 1 cur [inst]).
Proof.
  cbn [printed_genome]. unfold PrintGenome_body, depth_after, line_text.
  fold (line_depth cur inst). rewrite !Nat.mul_1_l.
  rewrite !put_spaces_append, put_args_append.
  f_equal.
  destruct (negb (InstScope inst =? 0) && (InstScope inst =? cur));
    destruct (negb (InstScope inst =? 0) &&
              (line_depth cur inst <? InstScope inst));
    rewrite ?append_assoc, ?append_nil_r, ?append_nil_l; reflexivity.
Qed.

Lemma PrintGenome_fold g : forall cur os,
  fold_left PrintGenome_body g (cur, os) =
  (fold_left depth_after g cur, os +:+ printed_genome 1 cur g).
Proof.
  induction g as [|inst g IH]; intros cur os.
  - cbn. rewrite append_nil_r. reflexivity.
  - cbn [fold_left]. rewrite PrintGenome_body_printed, IH. f_equal.
    cbn [printed_genome].
    rewrite ?append_assoc, ?append_nil_r, ?append_nil_l. reflexivity.
Qed.

Lemma line_text_starts inst cur :
  exists c rest, line_text cur inst = String c rest /\ c <> " "%char.
Proof.
  unfold line_text. destruct (id inst); cbn [GetName];
    rewrite append_cons; eexists; eexists;
    (split; [reflexivity | discriminate]).
Qed.

(** C9, as the code has it.  For every genome, what [PrintGenome] writes
    is, instruction by instruction, the line of the instruction indented by
    exactly one space per scope depth, the depth being folded along the
    genome with [InstScope]: after the spaces the line starts with the name
    of the instruction, which is no space. *)
Theorem PrintGenome_indentation (g : list Instruction) :
  PrintGenome g = printed_genome 1 0 g /\
  (forall inst cur,
     exists c rest, line_text cur inst = String c rest /\ c <> " "%char).
Proof.
  split.
  - unfold PrintGenome. rewrite PrintGenome_fold. reflexivity.
  - intros inst cur. apply line_text_starts.
Qed.

(** C9, as the specification has it, fails: [Inc 0] inside scope 1, at
    depth 1, is written after one space, not two. *)
Lemma PrintGenome_not_two_spaces :
  PrintGenome [Inst Scope 0 0 0; Inst Inc 0 0 0] =
    "Scope 0 --> " +:+ endl +:+ " Inc 0" +:+ endl /\
  line_depth (depth_after 0 (Inst Scope 0 0 0)) (Inst Inc 0 0 0) = 1 /\
  printed_genome 2 0 [Inst Scope 0 0 0; Inst Inc 0 0 0] =
    "Scope 0 --> " +:+ endl +:+ "  Inc 0" +:+ endl /\
  PrintGenome [Inst Scope 0 0 0; Inst Inc 0 0 0] <>
    printed_genome 2 0 [Inst Scope 0 0 0; Inst Inc 0 0 0].
Proof.
  split; [vm_compute; reflexivity|]. split; [reflexivity|].
  split; [vm_compute; reflexivity|]. vm_compute. discriminate.
Qed.

(** ** The recursion bound of the embedding is never reached *)

Lemma safe_ret {A} (a : A) : safe (ret a).
Proof. intros st. discriminate. Qed.

Lemma safe_get {A} (f : AvidaGP -> A) : safe (get f).
Proof. intros st. discriminate. Qed.

Lemma safe_modify f : safe (modify f).
Proof. intros st. discriminate. Qed.

Lemma safe_fail {A} e : e <> OutOfFuel -> safe (@fail A e).
Proof. intros He st [= H]. exact (He H). Qed.

Lemma safe_bind {A B} (m : M A) (k : A -> M B) :
  safe m -> (forall a, safe (k a)) -> safe (bind m k).
Proof.
  intros Hm Hk st. unfold bind. specialize (Hm st).
  destruct (m st) as [[a st']|e]; [apply Hk|].
  intros [= ->]. apply Hm. reflexivity.
Qed.

Lemma safe_emp_assert b : safe (emp_assert b).
Proof. destruct b; [apply safe_ret | apply safe_fail; discriminate]. Qed.

Lemma safe_array_index n pos : safe (array_index n pos).
Proof.
  unfold array_index. destruct (_ <? _); [|apply safe_fail; discriminate].
  destruct (fin_of_nat _ _); [apply safe_ret | apply safe_fail; discriminate].
Qed.

Lemma safe_vector_at {A} (v : list A) pos : safe (vector_at v pos).
Proof.
  unfold vector_at. destruct (_ <? _); [|apply safe_fail; discriminate].
  destruct (v !! _); [apply safe_ret | apply safe_fail; discriminate].
Qed.

Lemma safe_vector_back {A} (v : list A) : safe (vector_back v).
Proof. destruct v; [apply safe_fail; discriminate | apply safe_ret]. Qed.

Ltac safe_step :=
  lazymatch goal with
  | |- safe (bind _ _) => apply safe_bind; [|intros ?]
  | |- safe (ret _) => apply safe_ret
  | |- safe (get _) => apply safe_get
  | |- safe (modify _) => apply safe_modify
  | |- safe (fail _) => apply safe_fail; discriminate
  | |- safe (emp_assert _) => apply safe_emp_assert
  | |- safe (array_index _ _) => apply safe_array_index
  | |- safe (vector_at _ _) => apply safe_vector_at
  | |- safe (vector_back _) => apply safe_vector_back
  | |- safe (if ?c then _ else _) => destruct c
  | |- safe (match ?x with _ => _ end) => destruct x
  end.

Lemma safe_CurScope : safe CurScope.
Proof. unfold CurScope. repeat safe_step. Qed.

Lemma safe_CurScopeType : safe CurScopeType.
Proof. unfold CurScopeType. repeat safe_step. Qed.

Lemma safe_reg_read a : safe (reg_read a).
Proof. unfold reg_read. repeat safe_step. Qed.

Lemma safe_reg_write a v : safe (reg_write a v).
Proof. unfold reg_write. repeat safe_step. Qed.

Lemma safe_PushStack sid v : safe (PushStack sid v).
Proof. unfold PushStack. repeat safe_step. Qed.

Lemma safe_PopStack sid : safe (PopStack sid).
Proof. unfold PopStack. repeat safe_step. Qed.

Lemma safe_ExitScope_restore rs : safe (ExitScope_restore rs).
Proof.
  induction rs as [|b rs IH]; simpl; [apply safe_ret|].
  apply safe_bind; [apply safe_CurScope|]. intros cur.
  destruct (_ =? _); [|apply safe_ret].
  apply safe_bind; [apply safe_reg_write|]. intros _.
  apply safe_bind; [apply safe_modify|]. intros _. exact IH.
Qed.

Lemma safe_ExitScope : safe ExitScope.
Proof.
  unfold ExitScope. repeat safe_step. apply safe_ExitScope_restore.
Qed.

Lemma runs_bind {A B} P Q R (m : M A) (k : A -> M B) :
  runs P m Q -> (forall a, runs Q (k a) R) -> runs P (bind m k) R.
Proof.
  intros Hm Hk st HP. specialize (Hm st HP). unfold bind.
  destruct (m st) as [[a st']|e]; [apply Hk, Hm | exact Hm].
Qed.

Lemma runs_safe {A} P Q (m : M A) : safe m -> hoare P m Q -> runs P m Q.
Proof.
  intros Hs Hh st HP. specialize (Hs st).
  destruct (m st) as [[a st']|e] eqn:E.
  - eapply Hh; [exact HP | exact E].
  - intros ->. apply Hs. reflexivity.
Qed.

Lemma runs_weaken {A} (P P' Q Q' : AvidaGP -> Prop) (m : M A) :
  runs P m Q -> (forall st, P' st -> P st) -> (forall st, Q st -> Q' st) ->
  runs P' m Q'.
Proof.
  intros H HP HQ st HP'. specialize (H st (HP st HP')).
  destruct (m st) as [[a st']|e]; [apply HQ, H | exact H].
Qed.

Lemma steady_intro {A} (m : M A) :
  safe m -> preserves genome_fits m -> steady m.
Proof. intros Hs Hp. apply runs_safe; [exact Hs | exact Hp]. Qed.

Lemma genome_fits_frame st st' :
  errors st' = errors st -> genome st' = genome st ->
  genome_fits st -> genome_fits st'.
Proof. unfold genome_fits. intros _ ->. trivial. Qed.

Lemma ExitScope_inv st u st' :
  ExitScope st = Ok (u, st') ->
  scope_stack st' = tail (scope_stack st) /\ 1 < size (scope_stack st) /\
  genome st' = genome st /\ call_stack st' = call_stack st.
Proof.
  intros H. unfold ExitScope in H. rewrite bind_get in H.
  apply bind_inv in H as (u1 & st1 & H1 & H).
  unfold emp_assert in H1.
  destruct (Z.ltb_spec 1 (size (scope_stack st))) as [Hlen|]; [|discriminate].
  apply ret_inv in H1 as [_ ->].
  apply bind_inv in H as (u2 & st2 & H2 & H).
  unfold emp_assert in H2.
  destruct (size (scope_stack st) <=? Z.of_nat REGS); [|discriminate].
  apply ret_inv in H2 as [_ ->]. rewrite bind_get in H.
  apply bind_inv in H as (u3 & st3 & H3 & H).
  apply modify_inv in H as ->. cbn [scope_stack genome call_stack set_scope_stack].
  split; [reflexivity|]. split; [exact Hlen|].
  assert (preserves (fun s => genome s = genome st /\ call_stack s = call_stack st)
            (ExitScope_restore (reg_stack st))) as Hp.
  { apply preserves_ExitScope_restore; intros ? s Hs; exact Hs. }
  exact (Hp _ _ _ (conj eq_refl eq_refl) H3).
Qed.

Lemma BypassScope_loop_safe n sc : forall st,
  genome_fits st ->
  Z.max 0 (size (genome st) - size_t_incr (inst_ptr st)) < Z.of_nat n ->
  BypassScope_loop n sc st <> Err OutOfFuel.
Proof.
  induction n as [|n IH]; intros st Hfit Hn; [lia|]. simpl.
  rewrite !bind_get.
  destruct (Z.ltb_spec (size_t_incr (inst_ptr st)) (size (genome st)))
    as [Hlt|Hge]; [|discriminate].
  rewrite bind_modify.
  pose proof (safe_vector_at (genome st) (size_t_incr (inst_ptr st))
                (set_inst_ptr (size_t_incr (inst_ptr st)) st)) as Hsafe.
  unfold bind.
  destruct (vector_at (genome st) (size_t_incr (inst_ptr st)) _)
    as [[inst st1]|e] eqn:E; [|intros [= ->]; apply Hsafe; reflexivity].
  apply vector_at_inv in E as [-> _].
  destruct (_ && _); [discriminate|].
  apply IH; [exact Hfit|]. cbn [genome inst_ptr set_inst_ptr].
  unfold genome_fits in Hfit.
  pose proof (to_size_t_range (inst_ptr st + 1)) as Hr.
  unfold size_t_incr in *.
  rewrite (to_size_t_small (to_size_t (inst_ptr st + 1) + 1)) by lia. lia.
Qed.

Lemma steady_BypassScope sc : steady (BypassScope sc).
Proof.
  intros st Hfit.
  pose proof (preserves_BypassScope genome_fits
                (fun _ _ H => H) (fun _ _ H => H) (fun _ _ H => H)
                (fun _ H _ => H) sc st) as Hp.
  destruct (BypassScope sc st) as [[u st']|e] eqn:E;
    [exact (Hp _ _ Hfit eq_refl)|].
  intros ->. revert E. unfold BypassScope.
  pose proof (safe_CurScope st) as Hc. unfold bind at 1.
  destruct (CurScope st) as [[cur st1]|e] eqn:Ec;
    [|intros [= ->]; apply Hc; reflexivity].
  apply CurScope_inv in Ec as [-> _].
  destruct (cur <? size_t_incr sc); [discriminate|].
  pose proof (safe_ExitScope st) as He. unfold bind at 1.
  destruct (ExitScope st) as [[u st1]|e] eqn:Ee;
    [|intros [= ->]; apply He; reflexivity].
  apply ExitScope_inv in Ee as (_ & _ & Hg & _).
  rewrite bind_get. apply BypassScope_loop_safe.
  - unfold genome_fits. rewrite Hg. exact Hfit.
  - pose proof (to_size_t_range (inst_ptr st1 + 1)). unfold size, size_t_incr. lia.
Qed.

Lemma ResetIP_loop_runs n : forall st,
  (length (scope_stack st) < n)%nat ->
  match ResetIP_loop n st with
  | Ok (_, st') =>
      (length (scope_stack st') <= 1)%nat /\ genome st' = genome st /\
      (scope_stack st <> [] -> scope_stack st' <> [])
  | Err e => e <> OutOfFuel
  end.
Proof.
  induction n as [|n IH]; intros st Hn; [lia|]. simpl. rewrite bind_get.
  destruct (Z.ltb_spec 1 (size (scope_stack st))) as [Hlt|Hge].
  - pose proof (safe_ExitScope st) as He. unfold bind.
    destruct (ExitScope st) as [[u st1]|e] eqn:Ee;
      [|intros ->; apply He; reflexivity].
    apply ExitScope_inv in Ee as (Hss & _ & Hg & _).
    specialize (IH st1).
    destruct (scope_stack st) as [|top [|below rest]] eqn:Es;
      try (unfold size in Hlt; cbn [length] in Hlt; lia).
    cbn [tail] in Hss. rewrite Hss in IH. cbn [length] in IH, Hn.
    specialize (IH ltac:(lia)).
    destruct (ResetIP_loop n st1) as [[u' st']|e]; [|exact IH].
    destruct IH as (Hl & Hg' & Hne).
    split; [exact Hl|]. split; [congruence|]. intros _. apply Hne. discriminate.
  - unfold size in Hge. split; [lia|]. split; [reflexivity | trivial].
Qed.

Lemma ResetIP_runs st :
  match ResetIP st with
  | Ok (_, st') =>
      (length (scope_stack st') <= 1)%nat /\ genome st' = genome st /\
      call_stack st' = []
  | Err e => e <> OutOfFuel
  end.
Proof.
  unfold ResetIP. rewrite bind_modify, bind_get.
  pose proof (ResetIP_loop_runs (S (length (scope_stack st)))
                (set_inst_ptr 0 st)) as H.
  cbn [scope_stack set_inst_ptr] in H. specialize (H ltac:(lia)).
  unfold bind.
  destruct (ResetIP_loop _ _) as [[u st1]|e]; [|exact H].
  destruct H as (Hl & Hg & _). cbn. repeat split; assumption.
Qed.

(** The return from a function leaves fewer nested calls to make. *)
Lemma UpdateScope_return_runs st :
  scope_stack st <> [] ->
  match UpdateScope_return st with
  | Ok (_, st') =>
      genome st' = genome st /\ (call_depth st' + 1 <= call_depth st)%nat
  | Err e => e <> OutOfFuel
  end.
Proof.
  intros Hne. unfold UpdateScope_return. rewrite bind_get.
  destruct (call_stack st) as [|rp cs] eqn:Ecs; [discriminate|].
  cbn [vector_back]. rewrite bind_ret, bind_modify, bind_get.
  cbn [genome set_inst_ptr].
  destruct (size (genome st) <=? rp).
  - pose proof (ResetIP_runs (set_inst_ptr rp st)) as H.
    destruct (ResetIP _) as [[u st']|e]; [|exact H].
    destruct H as (Hl & Hg & Hcs). split; [exact Hg|].
    unfold call_depth. rewrite Hcs, Ecs.
    destruct (scope_stack st); [contradiction|]. cbn [length]. lia.
  - rewrite bind_modify.
    pose proof (safe_ExitScope (set_call_stack (tail (rp :: cs)) (set_inst_ptr rp st)))
      as He.
    destruct (ExitScope _) as [[u st']|e] eqn:Ee;
      [|intros ->; apply He; reflexivity].
    apply ExitScope_inv in Ee as (Hss & Hlen & Hg & Hcs).
    split; [exact Hg|]. unfold call_depth. rewrite Hss, Hcs, Ecs.
    cbn [scope_stack call_stack set_call_stack set_inst_ptr tail] in *.
    destruct (scope_stack st) as [|top rest]; [contradiction|].
    cbn [length tail]. destruct cs; lia.
Qed.

Lemma steady_bind {A B} (m : M A) (k : A -> M B) :
  steady m -> (forall a, steady (k a)) -> steady (bind m k).
Proof. apply runs_bind. Qed.

Ltac safe_auto :=
  repeat first
    [ safe_step
    | apply safe_CurScope
    | apply safe_CurScopeType
    | apply safe_reg_read
    | apply safe_reg_write
    | apply safe_PushStack
    | apply safe_PopStack
    | apply safe_ExitScope ].

Ltac steady_auto :=
  repeat first
    [ progress cbv beta
    | apply steady_BypassScope
    | solve [apply steady_intro; [safe_auto | frame_auto genome_fits_frame]]
    | solve [apply steady_intro;
             [apply safe_modify | apply preserves_modify; intros ? H; exact H]]
    | apply steady_bind; [|intros ?]
    | match goal with
      | |- steady (if ?c then _ else _) => destruct c
      | |- steady (match ?x with _ => _ end) => destruct x
      end ].

Section fuel.
Variable n : nat.

Hypothesis ProcessInst_runs : forall inst,
  runs (fuel_for_ProcessInst n) (ProcessInst_fuel n inst) genome_fits.
Hypothesis UpdateScope_runs : forall new_scope ty,
  runs (fuel_for_UpdateScope n) (UpdateScope_fuel n new_scope ty) genome_fits.

Lemma ProcessInst_step_runs inst :
  runs (fuel_for_ProcessInst (S n)) (ProcessInst_fuel (S n) inst) genome_fits.
Proof.
  assert (forall new_scope ty (k : bool -> M unit),
            (forall b, steady (k b)) ->
            runs (fuel_for_ProcessInst (S n))
              (bind (UpdateScope_fuel n new_scope ty) k) genome_fits) as Hscope.
  { intros new_scope ty k Hk. eapply runs_bind; [|exact Hk].
    eapply runs_weaken; [apply UpdateScope_runs| |trivial].
    intros st [Hfit Hd]. split; [exact Hfit | lia]. }
  assert (forall m : M unit,
            steady m -> runs (fuel_for_ProcessInst (S n)) m genome_fits)
    as Hsimple.
  { intros m Hm. eapply runs_weaken; [exact Hm| |trivial].
    intros st [Hfit _]. exact Hfit. }
  intros st HP. cbn [ProcessInst_fuel]. revert st HP.
  change (runs (fuel_for_ProcessInst (S n))
            (ProcessInst_body (UpdateScope_fuel n) inst) genome_fits).
  unfold ProcessInst_body.
  destruct (id inst);
    try (solve [apply Hsimple; steady_auto]);
    try (solve [apply Hscope; intros b; steady_auto]).
  (* Call *)
  intros st HP.
  pose proof (safe_array_index REGS (arg0 inst) st) as Hs. unfold bind at 1.
  destruct (array_index REGS (arg0 inst) st) as [[i st1]|e] eqn:Ei;
    [|intros ->; apply Hs; reflexivity].
  apply array_index_inv in Ei as [-> _]. rewrite !bind_get.
  destruct (size (genome st) <=? to_size_t (fun_starts st !!! i));
    [exact (proj1 HP)|].
  pose proof (safe_vector_at (genome st) (to_size_t (fun_starts st !!! i)) st)
    as Hv. unfold bind at 1.
  destruct (vector_at (genome st) _ st) as [[def st1]|e] eqn:Ed;
    [|intros ->; apply Hv; reflexivity].
  apply vector_at_inv in Ed as [-> _].
  destruct (negb _); [exact (proj1 HP)|].
  refine (Hscope _ _ _ _ st HP). intros b. steady_auto.
Qed.

Lemma UpdateScope_step_runs new_scope ty :
  runs (fuel_for_UpdateScope (S n)) (UpdateScope_fuel (S n) new_scope ty)
    genome_fits.
Proof.
  intros st [Hfit Hd]. cbn [UpdateScope_fuel]. unfold UpdateScope_body.
  pose proof (safe_CurScope st) as Hc. unfold bind at 1.
  destruct (CurScope st) as [[cur st1]|e] eqn:Ec;
    [|intros ->; apply Hc; reflexivity].
  apply CurScope_inv in Ec as (-> & top & rest & Hss & ->).
  destruct (scope top <? size_t_incr new_scope); [exact Hfit|].
  unfold CurScopeType. rewrite bind_assoc, bind_get, Hss. cbn [vector_back].
  rewrite bind_assoc, !bind_ret.
  (* after a frame is popped *)
  assert (forall st0 st1 u,
            ExitScope st0 = Ok (u, st1) ->
            scope_stack st0 = scope_stack st -> genome st0 = genome st ->
            call_stack st0 = call_stack st ->
            genome_fits st1 /\ (call_depth st1 + 2 <= call_depth st)%nat)
    as Hpop.
  { intros st0 st1 u He Hs0 Hg0 Hc0.
    apply ExitScope_inv in He as (Hs1 & _ & Hg & Hcs).
    split; [unfold genome_fits; rewrite Hg, Hg0; exact Hfit|].
    unfold call_depth. rewrite Hs1, Hcs, Hs0, Hc0, Hss. cbn [tail length]. lia. }
  (* the dispatch of [genome[inst_ptr]] *)
  assert (forall st1,
            genome_fits st1 -> (call_depth st1 + 1 <= call_depth st)%nat ->
            match (g <- get genome ;;
                   ip <- get inst_ptr ;;
                   inst <- vector_at g ip ;;
                   ProcessInst_fuel n inst ;;;
                   ret false) st1 with
            | Ok (_, st') => genome_fits st'
            | Err e => e <> OutOfFuel
            end) as Hdispatch.
  { intros st1 Hfit1 Hd1. rewrite !bind_get.
    pose proof (safe_vector_at (genome st1) (inst_ptr st1) st1) as Hv.
    unfold bind at 1.
    destruct (vector_at (genome st1) (inst_ptr st1) st1) as [[inst st2]|e] eqn:Ev;
      [|intros ->; apply Hv; reflexivity].
    apply vector_at_inv in Ev as [-> _].
    pose proof (ProcessInst_runs inst st1) as Hp. unfold bind.
    destruct (ProcessInst_fuel n inst st1) as [[u st']|e];
      [|apply Hp; split; [exact Hfit1 | lia]].
    apply Hp. split; [exact Hfit1 | lia]. }
  destruct (type top).
  - (* ROOT *)
    pose proof (safe_ExitScope st) as He. unfold bind at 1.
    destruct (ExitScope st) as [[u st1]|e] eqn:Ee;
      [|intros ->; apply He; reflexivity].
    destruct (Hpop _ st1 u Ee eq_refl eq_refl eq_refl) as [Hfit1 Hd1].
    apply UpdateScope_runs. split; [exact Hfit1 | lia].
  - (* BASIC *)
    pose proof (safe_ExitScope st) as He. unfold bind at 1.
    destruct (ExitScope st) as [[u st1]|e] eqn:Ee;
      [|intros ->; apply He; reflexivity].
    destruct (Hpop _ st1 u Ee eq_refl eq_refl eq_refl) as [Hfit1 Hd1].
    apply UpdateScope_runs. split; [exact Hfit1 | lia].
  - (* LOOP *)
    rewrite bind_get, Hss. cbn [vector_back]. rewrite bind_ret, bind_modify.
    pose proof (safe_ExitScope (set_inst_ptr (start_pos top) st)) as He.
    unfold bind at 1.
    destruct (ExitScope (set_inst_ptr (start_pos top) st)) as [[u st1]|e] eqn:Ee;
      [|intros ->; apply He; reflexivity].
    destruct (Hpop _ st1 u Ee eq_refl eq_refl eq_refl) as [Hfit1 Hd1].
    apply Hdispatch; [exact Hfit1 | lia].
  - (* FUNCTION *)
    pose proof (UpdateScope_return_runs st) as Hr.
    rewrite Hss in Hr. specialize (Hr ltac:(discriminate)).
    unfold bind at 1.
    destruct (UpdateScope_return st) as [[u st1]|e]; [|exact Hr].
    destruct Hr as [Hg Hd1].
    apply Hdispatch; [unfold genome_fits; rewrite Hg; exact Hfit | exact Hd1].
Qed.
End fuel.

Lemma dispatch_runs n :
  (forall inst,
     runs (fuel_for_ProcessInst n) (ProcessInst_fuel n inst) genome_fits) /\
  (forall new_scope ty,
     runs (fuel_for_UpdateScope n) (UpdateScope_fuel n new_scope ty) genome_fits).
Proof.
  induction n as [|n [IHP IHU]].
  - split; intros; intros st [_ Hd]; lia.
  - split; intros.
    + apply ProcessInst_step_runs; assumption.
    + apply UpdateScope_step_runs; assumption.
Qed.

(** The fuel [ProcessInst] is given is enough: a dispatch ends in a state
    or in an assertion failure or an access out of range, in every state
    whose genome has a size that a [size_t] holds. *)
Theorem ProcessInst_has_fuel (inst : Instruction) (st : AvidaGP) :
  size (genome st) < 2 ^ 64 -> ProcessInst inst st <> Err OutOfFuel.
Proof.
  intros Hfit. unfold ProcessInst.
  pose proof (proj1 (dispatch_runs (depth_bound st)) inst st) as H.
  assert (fuel_for_ProcessInst (depth_bound st) st) as HP.
  { split; [exact Hfit|]. unfold depth_bound, call_depth.
    destruct (call_stack st); lia. }
  specialize (H HP). intros E. rewrite E in H. apply H. reflexivity.
Qed.

Lemma genome_fits_kept k : preserves genome_fits (Process k).
Proof.
  apply preserves_Process; try (intros ? st H; exact H).
  - intros st H _. exact H.
  - intros st top rest new_scope ty ip H _ _. exact H.
Qed.

(** Neither do [SingleProcess] and [Process] end for lack of fuel. *)
Theorem Process_has_fuel (k : nat) (st : AvidaGP) :
  size (genome st) < 2 ^ 64 -> Process k st <> Err OutOfFuel.
Proof.
  revert st. induction k as [|k IH]; intros st Hfit; [discriminate|].
  cbn [Process].
  assert (SingleProcess st <> Err OutOfFuel) as Hs.
  { unfold SingleProcess. rewrite !bind_get.
    assert (forall st1, genome st1 = genome st ->
              (ip <- get inst_ptr ;;
               inst <- vector_at (genome st) ip ;;
               ProcessInst inst ;;;
               ip <- get inst_ptr ;;
               modify (set_inst_ptr (size_t_incr ip))) st1 <> Err OutOfFuel)
      as Hrest.
    { intros st1 Hg. rewrite bind_get.
      pose proof (safe_vector_at (genome st) (inst_ptr st1) st1) as Hv.
      unfold bind at 1.
      destruct (vector_at (genome st) (inst_ptr st1) st1) as [[inst st2]|e] eqn:Ev;
        [|intros [= ->]; apply Hv; reflexivity].
      apply vector_at_inv in Ev as [-> _].
      pose proof (ProcessInst_has_fuel inst st1) as Hp.
      rewrite Hg in Hp. specialize (Hp Hfit). unfold bind at 1.
      destruct (ProcessInst inst st1) as [[u st2]|e];
        [discriminate | intros [= ->]; apply Hp; reflexivity]. }
    destruct (size (genome st) <=? inst_ptr st).
    - pose proof (ResetIP_runs st) as Hr. unfold bind at 1.
      destruct (ResetIP st) as [[u st1]|e].
      + apply Hrest. apply Hr.
      + intros [= ->]. apply Hr. reflexivity.
    - rewrite bind_ret. apply Hrest. reflexivity. }
  unfold bind. destruct (SingleProcess st) as [[u st1]|e] eqn:E.
  - apply IH. destruct u.
    apply (genome_fits_kept 1 st tt st1 Hfit).
    cbn [Process]. rewrite (bind_Ok _ _ _ _ _ E). reflexivity.
  - intros [= ->]. apply Hs. reflexivity.
Qed.

(** ** [ResetHardware] when no register is backed up *)

Lemma ResetHardware_loop st :
  for_each (Z.of_nat <$> seq 0 REGS) ResetHardware_body st =
  Ok (tt, set_fun_starts (fun_starts AvidaGP_fresh)
            (set_stacks (stacks AvidaGP_fresh)
               (set_outputs (outputs AvidaGP_fresh)
                  (set_inputs (inputs AvidaGP_fresh)
                     (set_regs (regs AvidaGP_fresh) st))))).
Proof.
  destruct st as [g rg inp out stk fs ip ss rs cs er].
  unfold REGS in *.
  inv_vec rg; intros. inv_vec inp; intros. inv_vec out; intros.
  inv_vec stk; intros. inv_vec fs; intros.
  vm_compute. reflexivity.
Qed.

Lemma ExitScope_no_backups st top below rest :
  scope_stack st = top :: below :: rest ->
  size (scope_stack st) <= Z.of_nat REGS ->
  reg_stack st = [] ->
  ExitScope st = Ok (tt, set_scope_stack (below :: rest) st).
Proof.
  intros Hss Hlen Hrs. unfold ExitScope. rewrite bind_get.
  assert ((1 <? size (scope_stack st)) = true) as ->.
  { apply Z.ltb_lt. rewrite Hss. unfold size. cbn [length]. lia. }
  cbn [emp_assert]. rewrite bind_ret.
  assert ((size (scope_stack st) <=? Z.of_nat REGS) = true) as ->
    by (apply Z.leb_le, Hlen).
  cbn [emp_assert]. rewrite bind_ret, bind_get, Hrs. cbn [ExitScope_restore].
  rewrite bind_ret, Hss. reflexivity.
Qed.



(** ** The result of a dispatch does not depend on the recursion bound *)

Lemma refines_refl {A} (m : M A) : refines m m.
Proof. intros st _. reflexivity. Qed.

Lemma refines_bind {A B} (m m' : M A) (k k' : A -> M B) :
  refines m m' -> (forall a, refines (k a) (k' a)) ->
  refines (bind m k) (bind m' k').
Proof.
  intros Hm Hk st H. unfold bind in *.
  destruct (m st) as [[a st1]|e] eqn:E.
  - rewrite (Hm st) by (rewrite E; discriminate). rewrite E.
    apply Hk, H.
  - rewrite (Hm st) by (rewrite E; intros [= ->]; apply H; reflexivity).
    rewrite E. reflexivity.
Qed.

Ltac refines_auto :=
  repeat first
    [ assumption
    | apply refines_refl
    | apply refines_bind; [|intros ?]
    | match goal with
      | H : forall inst, refines _ _ |- refines (?P _) (?P' _) => apply H
      | H : forall new_scope ty, refines _ _ |- refines (?U _ _) (?U' _ _) =>
          apply H
      | |- refines (if ?c then _ else _) _ => destruct c
      | |- refines (match ?x with _ => _ end) _ => destruct x
      end ].

Lemma UpdateScope_body_refines P P' U U' :
  (forall inst, refines (P inst) (P' inst)) ->
  (forall new_scope ty, refines (U new_scope ty) (U' new_scope ty)) ->
  forall new_scope ty,
    refines (UpdateScope_body P U new_scope ty)
      (UpdateScope_body P' U' new_scope ty).
Proof.
  intros HP HU new_scope ty. unfold UpdateScope_body. refines_auto.
Qed.

Lemma ProcessInst_body_refines U U' :
  (forall new_scope ty, refines (U new_scope ty) (U' new_scope ty)) ->
  forall inst, refines (ProcessInst_body U inst) (ProcessInst_body U' inst).
Proof.
  intros HU inst. unfold ProcessInst_body. destruct (id inst); refines_auto.
Qed.

Lemma dispatch_refines_succ n :
  (forall inst, refines (ProcessInst_fuel n inst) (ProcessInst_fuel (S n) inst)) /\
  (forall new_scope ty,
     refines (UpdateScope_fuel n new_scope ty)
       (UpdateScope_fuel (S n) new_scope ty)).
Proof.
  induction n as [|n [IHP IHU]].
  - split; intros; intros st H; exfalso; apply H; reflexivity.
  - split.
    + intros inst st H.
      exact (ProcessInst_body_refines _ _ IHU inst st H).
    + intros new_scope ty st H.
      exact (UpdateScope_body_refines _ _ _ _ IHP IHU new_scope ty st H).
Qed.

Lemma ProcessInst_fuel_more n m inst st :
  (n <= m)%nat -> ProcessInst_fuel n inst st <> Err OutOfFuel ->
  ProcessInst_fuel m inst st = ProcessInst_fuel n inst st.
Proof.
  induction 1 as [|m Hle IH]; intros H; [reflexivity|].
  rewrite <- (IH H).
  apply (proj1 (dispatch_refines_succ m)). rewrite (IH H). exact H.
Qed.

(** X1.  The mutual recursion of [ProcessInst] and [UpdateScope] and the
    loops of [BypassScope] and [ResetIP] end.  In every state whose genome
    has a size that a [size_t] holds, a dispatch needs at most
    [4 * scope_stack.size() + 6] nested calls: with that bound or any larger
    one the embedding gives the same result, which is a state, an assertion
    failure or an access out of range; and [Process] ends likewise. *)
Theorem dispatch_ends (st : AvidaGP) (inst : Instruction) (n k : nat) :
  size (genome st) < 2 ^ 64 -> (depth_bound st <= n)%nat ->
  ProcessInst inst st <> Err OutOfFuel /\
  ProcessInst_fuel n inst st = ProcessInst inst st /\
  Process k st <> Err OutOfFuel.
Proof.
  intros Hfit Hn.
  pose proof (ProcessInst_has_fuel inst st Hfit) as H.
  split; [exact H|]. split; [|apply Process_has_fuel, Hfit].
  unfold ProcessInst in *. apply ProcessInst_fuel_more; assumption.
Qed.

Lemma dispatch_ends_witness :
  ProcessInst (Inst Countdown 0 1 0) countdown_state <> Err OutOfFuel /\
  ProcessInst_fuel 100 (Inst Countdown 0 1 0) countdown_state =
  ProcessInst (Inst Countdown 0 1 0) countdown_state /\
  Process 5 countdown_state <> Err OutOfFuel.
Proof.
  apply (dispatch_ends countdown_state (Inst Countdown 0 1 0) 100 5).
  - reflexivity.
  - vm_compute. lia.
Defined.


(** ** What [ResetHardware] resets in every state *)

Lemma ResetIP_effect st u st' :
  ResetIP st = Ok (u, st') ->
  inst_ptr st' = 0 /\ call_stack st' = [] /\
  (length (scope_stack st') <= 1)%nat /\
  genome st' = genome st /\ inputs st' = inputs st /\
  outputs st' = outputs st /\ stacks st' = stacks st /\
  fun_starts st' = fun_starts st /\ errors st' = errors st.
Proof.
  intros H. pose proof (ResetIP_runs st) as Hr. rewrite H in Hr.
  destruct Hr as (Hlen & Hg & Hcs).
  assert (preserves
            (fun s => inputs s = inputs st /\ outputs s = outputs st /\
                      stacks s = stacks st /\ fun_starts s = fun_starts st /\
                      errors s = errors st) ResetIP) as Hp.
  { apply preserves_ResetIP; try (intros ? s Hs; exact Hs).
    intros s Hs _. exact Hs. }
  pose proof (Hp _ _ _ ltac:(repeat split) H) as (Hi & Ho & Hs & Hf & He).
  assert (inst_ptr st' = 0) as Hip.
  { unfold ResetIP in H. rewrite bind_modify, bind_get in H.
    apply bind_inv in H as (u1 & st1 & H1 & H).
    apply modify_inv in H as ->. cbn [inst_ptr set_call_stack].
    assert (preserves (fun s => inst_ptr s = 0)
              (ResetIP_loop (S (length (scope_stack (set_inst_ptr 0 st))))))
      as Hl.
    { apply preserves_ResetIP_loop; try (intros ? s Hz; exact Hz).
      intros s Hz _. exact Hz. }
    exact (Hl (set_inst_ptr 0 st) _ _ eq_refl H1). }
  repeat split; assumption.
Qed.

Lemma ResetHardware_effect st u st' :
  ResetHardware st = Ok (u, st') -> hardware_reset st' /\ genome st' = genome st.
Proof.
  unfold ResetHardware. intros H.
  rewrite (bind_Ok _ _ _ _ _ (ResetHardware_loop st)), bind_modify in H.
  apply ResetIP_effect in H as (Hip & Hcs & Hlen & Hg & Hi & Ho & Hs & Hf & He).
  unfold hardware_reset. rewrite Hi, Ho, Hs, Hf, He, Hg.
  repeat split; assumption.
Qed.

Lemma Reset_unfold st : Reset st = ResetHardware (set_genome [] st).
Proof. reflexivity. Qed.

(** X3.  Whenever [ResetHardware] returns, whatever the scopes and the
    backups it started with, the genome is kept and every member but the
    registers and the backup stack is that of a new machine: inputs and
    outputs 0, every auxiliary stack empty, every [fun_starts[i] = -1],
    [errors = 0], [inst_ptr = 0], the call stack empty and at most one
    scope frame left.  [Reset] does the same and empties the genome. *)
Theorem ResetHardware_resets_hardware (st st' : AvidaGP) :
  (ResetHardware st = Ok (tt, st') ->
   genome st' = genome st /\
   inputs st' = vreplicate REGS 0%float /\
   outputs st' = vreplicate REGS 0%float /\
   stacks st' = vreplicate REGS [] /\
   fun_starts st' = vreplicate REGS (-1) /\
   errors st' = 0 /\ inst_ptr st' = 0 /\ call_stack st' = [] /\
   (length (scope_stack st') <= 1)%nat) /\
  (Reset st = Ok (tt, st') -> genome st' = [] /\ hardware_reset st').
Proof.
  split; intros H.
  - apply ResetHardware_effect in H as [(?&?&?&?&?&?&?&?) ?].
    repeat split; assumption.
  - rewrite Reset_unfold in H.
    apply ResetHardware_effect in H as [Hr Hg]. split; [exact Hg | exact Hr].
Qed.

Lemma ResetHardware_resets_hardware_witness :
  (genome (set_genome nested_genome AvidaGP_fresh) = genome nested_state /\
   inputs (set_genome nested_genome AvidaGP_fresh) = vreplicate REGS 0%float /\
   outputs (set_genome nested_genome AvidaGP_fresh) = vreplicate REGS 0%float /\
   stacks (set_genome nested_genome AvidaGP_fresh) = vreplicate REGS [] /\
   fun_starts (set_genome nested_genome AvidaGP_fresh) = vreplicate REGS (-1) /\
   errors (set_genome nested_genome AvidaGP_fresh) = 0 /\
   inst_ptr (set_genome nested_genome AvidaGP_fresh) = 0 /\
   call_stack (set_genome nested_genome AvidaGP_fresh) = [] /\
   (length (scope_stack (set_genome nested_genome AvidaGP_fresh)) <= 1)%nat) /\
  (genome AvidaGP_fresh = [] /\ hardware_reset AvidaGP_fresh).
Proof.
  split.
  - apply (proj1 (ResetHardware_resets_hardware nested_state
                    (set_genome nested_genome AvidaGP_fresh))).
    vm_compute. reflexivity.
  - apply (proj2 (ResetHardware_resets_hardware nested_state AvidaGP_fresh)).
    vm_compute. reflexivity.
Defined.

(** ** What execution never writes: the genome and the inputs *)

Lemma execution_frame (g : list Instruction) (inp : vec float REGS) :
  (forall inst,
     preserves (fun s => genome s = g /\ inputs s = inp) (ProcessInst inst)) /\
  preserves (fun s => genome s = g /\ inputs s = inp) SingleProcess /\
  (forall k, preserves (fun s => genome s = g /\ inputs s = inp) (Process k)).
Proof.
  split; [|split]; intros;
    first [ apply preserves_ProcessInst
          | apply preserves_SingleProcess
          | apply preserves_Process ];
    try (intros ? s Hs; exact Hs);
    try (intros s Hs _; exact Hs);
    intros s top rest new_scope ty ip Hs _ _; exact Hs.
Qed.

(** X4.  No instruction writes the genome or the inputs: whenever
    [ProcessInst], [SingleProcess] or [Process] returns, both are what they
    were, whatever was executed on the way. *)
Theorem execution_keeps_genome_and_inputs
    (st st' : AvidaGP) (inst : Instruction) (k : nat) :
  ProcessInst inst st = Ok (tt, st') \/ SingleProcess st = Ok (tt, st') \/
  Process k st = Ok (tt, st') ->
  genome st' = genome st /\ inputs st' = inputs st.
Proof.
  destruct (execution_frame (genome st) (inputs st)) as (HP & HS & HK).
  intros [H|[H|H]].
  - exact (HP inst _ _ _ (conj eq_refl eq_refl) H).
  - exact (HS _ _ _ (conj eq_refl eq_refl) H).
  - exact (HK k _ _ _ (conj eq_refl eq_refl) H).
Qed.

Lemma countdown_state_Process :
  Process 20 (set_genome countdown_genome AvidaGP_fresh) =
  Ok (tt, countdown_state).
Proof. vm_compute. reflexivity. Qed.

Lemma execution_keeps_genome_and_inputs_witness :
  genome countdown_state = genome (set_genome countdown_genome AvidaGP_fresh) /\
  inputs countdown_state = inputs (set_genome countdown_genome AvidaGP_fresh).
Proof.
  apply (execution_keeps_genome_and_inputs
           (set_genome countdown_genome AvidaGP_fresh) countdown_state
           (Inst Inc 0 0 0) 20).
  right. right. exact countdown_state_Process.
Defined.

(** ** The inputs of a machine are zero *)

Lemma SetInst_inv pos inst st u st' :
  SetInst pos inst st = Ok (u, st') ->
  st' = set_genome (<[Z.to_nat (to_size_t pos) := inst]> (genome st)) st.
Proof.
  unfold SetInst. rewrite bind_get. intros H.
  apply bind_inv in H as (old & st1 & H1 & H).
  apply vector_at_inv in H1 as [-> _]. apply modify_inv in H. exact H.
Qed.

Lemma perform_keeps_zero_inputs op :
  preserves (fun s => inputs s = inputs AvidaGP_fresh) (perform op).
Proof.
  destruct op; cbn [perform]; intros st u st' HI H.
  - rewrite Reset_unfold in H. apply ResetHardware_effect in H as [Hr _].
    apply Hr.
  - apply ResetHardware_effect in H as [Hr _]. apply Hr.
  - apply ResetIP_effect in H as (_ & _ & _ & _ & Hi & _). congruence.
  - apply SetInst_inv in H as ->. exact HI.
  - apply modify_inv in H as ->. exact HI.
  - unfold PushInst in H. rewrite bind_get in H.
    apply modify_inv in H as ->. exact HI.
  - destruct (execution_frame (genome st) (inputs AvidaGP_fresh)) as (HP & _).
    exact (proj2 (HP inst _ _ _ (conj eq_refl HI) H)).
  - destruct (execution_frame (genome st) (inputs AvidaGP_fresh))
      as (_ & HS & _).
    exact (proj2 (HS _ _ _ (conj eq_refl HI) H)).
  - destruct (execution_frame (genome st) (inputs AvidaGP_fresh))
      as (_ & _ & HK).
    exact (proj2 (HK num_inst _ _ _ (conj eq_refl HI) H)).
Qed.

Lemma reachable_zero_inputs st :
  reachable st -> inputs st = inputs AvidaGP_fresh.
Proof.
  induction 1 as [st Hnew | op st st' _ IH Hop].
  - rewrite AvidaGP_new_fresh in Hnew. injection Hnew as <-. reflexivity.
  - apply exec_inv in Hop as [a Hop].
    exact (perform_keeps_zero_inputs op _ _ _ IH Hop).
Qed.

(** X5.  The class has no member function that stores an input: the
    constructor zeroes [inputs] and nothing executed afterwards writes it.
    So in every reachable state every input is 0, and an [Input] instruction
    that returns has stored 0 in the register [args[1]] names and has
    changed no other register. *)
Theorem inputs_are_zero (st : AvidaGP) :
  reachable st ->
  inputs st = vreplicate REGS 0%float /\
  (forall inst st',
     id inst = Input -> ProcessInst inst st = Ok (tt, st') ->
     exists j : fin REGS,
       to_size_t (arg1 inst) = rix j /\
       regs st' = vinsert j 0%float (regs st)).
Proof.
  intros Hr. apply reachable_zero_inputs in Hr.
  split; [exact Hr|].
  intros inst st' Hid H. rewrite ProcessInst_unfold in H.
  unfold ProcessInst_body in H. rewrite Hid in H.
  apply bind_inv in H as (i & st1 & Hi & H).
  apply array_index_inv in Hi as [-> _]. rewrite bind_get in H.
  unfold reg_write in H.
  apply bind_inv in H as (j & st1 & Hj & H).
  apply array_index_inv in Hj as [-> Hj]. rewrite bind_get in H.
  apply modify_inv in H as ->. exists j. split; [exact Hj|].
  cbn [regs set_regs]. rewrite Hr.
  change (inputs AvidaGP_fresh) with (vreplicate REGS 0%float).
  rewrite vlookup_replicate. reflexivity.
Qed.

Lemma countdown_state_reachable : reachable countdown_state.
Proof. exact (reachable_run _ _ _ countdown_state_run). Qed.

Lemma inputs_are_zero_witness :
  inputs countdown_state = vreplicate REGS 0%float /\
  exists j : fin REGS,
    to_size_t (arg1 (Inst Input 2 5 0)) = rix j /\
    regs (set_regs (vinsert 5%fin 0%float (regs countdown_state))
            countdown_state) =
    vinsert j 0%float (regs countdown_state).
Proof.
  destruct (inputs_are_zero countdown_state countdown_state_reachable)
    as [H1 H2].
  split; [exact H1|].
  apply (H2 (Inst Input 2 5 0)); [reflexivity | vm_compute; reflexivity].
Defined.

(** ** The error counter over a run *)

Lemma SingleProcess_errors st u st' :
  SingleProcess st = Ok (u, st') ->
  errors st' = errors st \/ errors st' = size_t_incr (errors st).
Proof.
  unfold SingleProcess. rewrite !bind_get. intros H.
  apply bind_inv in H as (u1 & st1 & H1 & H).
  assert (errors st1 = errors st) as He.
  { destruct (size (genome st) <=? inst_ptr st).
    - apply ResetIP_effect in H1. destruct H1 as (_&_&_&_&_&_&_&_&H1).
      exact H1.
    - apply ret_inv in H1 as [_ ->]. reflexivity. }
  rewrite bind_get in H.
  apply bind_inv in H as (inst & st2 & H2 & H).
  apply vector_at_inv in H2 as [-> _].
  apply bind_inv in H as (u3 & st3 & H3 & H).
  rewrite bind_get in H. apply modify_inv in H as ->.
  cbn [errors set_inst_ptr]. rewrite <- He.
  unfold ProcessInst in H3.
  destruct (proj1 (dispatch_errors st1 (depth_bound st1)) inst st1 u3 st3)
    as [[Hu _]|[[Hc _] _]];
    [apply unwound_here | exact H3 | left; exact Hu | right; exact Hc].
Qed.

(** X6.  A step counts at most one error: when [Process(k)] returns, the
    error counter has gone up by [k] at most and has not gone down, as long
    as it does not wrap around. *)
Theorem Process_counts_one_error_a_step (k : nat) (st st' : AvidaGP) :
  0 <= errors st -> errors st + Z.of_nat k < 2 ^ 64 ->
  Process k st = Ok (tt, st') ->
  errors st <= errors st' <= errors st + Z.of_nat k.
Proof.
  revert st. induction k as [|k IH]; intros st H0 Hk H.
  - apply ret_inv in H as [_ ->]. lia.
  - cbn [Process] in H. apply bind_inv in H as (u & st1 & H1 & H).
    apply SingleProcess_errors in H1.
    assert (errors st <= errors st1 <= errors st + 1) as Hs.
    { destruct H1 as [->| ->]; [lia|].
      rewrite size_t_incr_small by lia. lia. }
    specialize (IH st1 ltac:(lia) ltac:(lia) H). lia.
Qed.

Lemma Process_counts_one_error_a_step_witness :
  errors (set_genome countdown_genome AvidaGP_fresh) <= errors countdown_state
  <= errors (set_genome countdown_genome AvidaGP_fresh) + Z.of_nat 20.
Proof.
  apply (Process_counts_one_error_a_step 20
           (set_genome countdown_genome AvidaGP_fresh) countdown_state).
  - vm_compute. discriminate.
  - reflexivity.
  - exact countdown_state_Process.
Defined.

(** X7.  [Process(m + n)] is [Process(m)] followed by [Process(n)]: the
    loop keeps nothing between two steps but the machine itself, and stops
    at the first step that fails. *)
Theorem Process_add (m n : nat) (st : AvidaGP) :
  Process (m + n) st = (Process m ;;; Process n) st.
Proof.
  revert st. induction m as [|m IH]; intros st; [reflexivity|].
  cbn [Process Nat.add]. rewrite bind_assoc.
  destruct (SingleProcess st) as [[u st1]|e] eqn:E.
  - rewrite !(bind_Ok _ _ _ _ _ E). apply IH.
  - rewrite !(bind_Err _ _ _ _ E). reflexivity.
Qed.

(** ** [BypassScope] and [Break] *)

Lemma ProcessInst_Break inst st :
  id inst = Break -> ProcessInst inst st = BypassScope (to_size_t (arg0 inst)) st.
Proof.
  intros Hid. rewrite ProcessInst_unfold. unfold ProcessInst_body.
  rewrite Hid. reflexivity.
Qed.

(** X8.  A [Break] that names a scope deeper than the current one does
    nothing: when [CurScope() < args[0] + 1], [BypassScope] returns at once
    and the machine is as it was.  So is every [Break] in the root scope
    with an argument of 0 or more. *)
Theorem Break_of_deeper_scope_is_noop
    (inst : Instruction) (st : AvidaGP) (top : ScopeInfo)
    (rest : list ScopeInfo) :
  id inst = Break -> scope_stack st = top :: rest ->
  scope top < size_t_incr (to_size_t (arg0 inst)) ->
  BypassScope (to_size_t (arg0 inst)) st = Ok (tt, st) /\
  ProcessInst inst st = Ok (tt, st).
Proof.
  intros Hid Hss Hlt.
  assert (BypassScope (to_size_t (arg0 inst)) st = Ok (tt, st)) as H.
  { unfold BypassScope, CurScope.
    rewrite bind_assoc, bind_get, Hss. cbn [vector_back].
    rewrite bind_assoc, !bind_ret.
    destruct (Z.ltb_spec (scope top) (size_t_incr (to_size_t (arg0 inst))));
      [reflexivity | lia]. }
  split; [exact H|]. rewrite ProcessInst_Break by exact Hid. exact H.
Qed.

Lemma Break_of_deeper_scope_is_noop_witness :
  BypassScope (to_size_t (arg0 (Inst Break 2 0 0))) skip_state =
  Ok (tt, skip_state) /\
  ProcessInst (Inst Break 2 0 0) skip_state = Ok (tt, skip_state).
Proof.
  apply (Break_of_deeper_scope_is_noop (Inst Break 2 0 0) skip_state
           (mkScopeInfo 2 BASIC 1) [mkScopeInfo 1 BASIC 0; mkScopeInfo 0 ROOT 0]);
    reflexivity.
Defined.

Lemma set_inst_ptr_twice p q st :
  set_inst_ptr q (set_inst_ptr p st) = set_inst_ptr q st.
Proof. reflexivity. Qed.

Lemma set_inst_ptr_same st : set_inst_ptr (inst_ptr st) st = st.
Proof. destruct st. reflexivity. Qed.

Lemma size_t_decr_incr z : 0 <= z < 2 ^ 64 - 1 -> size_t_decr (size_t_incr z) = z.
Proof.
  intros H. rewrite size_t_incr_small by exact H.
  unfold size_t_decr. replace (z + 1 - 1) with z by lia.
  apply to_size_t_small. lia.
Qed.

Lemma BypassScope_loop_lands n sc : forall st u st',
  size (genome st) < 2 ^ 64 -> 0 <= inst_ptr st < 2 ^ 64 - 1 ->
  BypassScope_loop n sc st = Ok (u, st') ->
  exists ip',
    st' = set_inst_ptr ip' st /\ inst_ptr st <= ip' /\
    (forall j, inst_ptr st < j <= ip' ->
       exists inst, genome st !! Z.to_nat j = Some inst /\ closes sc inst = false) /\
    (ip' + 1 < size (genome st) ->
       exists inst,
         genome st !! Z.to_nat (ip' + 1) = Some inst /\ closes sc inst = true).
Proof.
  induction n as [|n IH]; intros st u st' Hfit Hip; [discriminate|].
  simpl. rewrite !bind_get.
  rewrite (size_t_decr_incr (inst_ptr st)) by exact Hip.
  rewrite (size_t_incr_small (inst_ptr st)) by exact Hip.
  destruct (Z.ltb_spec (inst_ptr st + 1) (size (genome st))) as [Hlt|Hge].
  - rewrite bind_modify. intros H.
    apply bind_inv in H as (inst & st1 & H1 & H).
    apply vector_at_lookup in H1 as (-> & Hl & _).
    rewrite to_size_t_small in Hl by lia.
    change (negb (InstScope inst =? 0) && (InstScope inst <=? sc))
      with (closes sc inst) in H.
    destruct (closes sc inst) eqn:Hc.
    + apply modify_inv in H as ->. exists (inst_ptr st).
      rewrite set_inst_ptr_twice, set_inst_ptr_same.
      split; [reflexivity|]. split; [lia|]. split; [intros j Hj; lia|].
      intros _. exists inst. split; assumption.
    + apply IH in H as (ip' & -> & Hle & Hskip & Hnext);
        [|exact Hfit|cbn [inst_ptr set_inst_ptr]; lia].
      cbn [inst_ptr genome set_inst_ptr] in *.
      exists ip'. rewrite set_inst_ptr_twice.
      split; [reflexivity|]. split; [lia|]. split; [|exact Hnext].
      intros j Hj. destruct (Z.eq_dec j (inst_ptr st + 1)) as [->|Hne].
      * exists inst. split; assumption.
      * apply Hskip. lia.
  - intros H. apply ret_inv in H as [_ ->]. exists (inst_ptr st).
    rewrite set_inst_ptr_same.
    split; [reflexivity|]. split; [lia|]. split; intros; lia.
Qed.

Lemma ExitScope_inst_ptr st u st' :
  ExitScope st = Ok (u, st') -> inst_ptr st' = inst_ptr st.
Proof.
  intros H.
  assert (preserves (fun s => inst_ptr s = inst_ptr st) ExitScope) as Hp.
  { apply preserves_ExitScope; try (intros ? s Hs; exact Hs).
    intros s Hs _. exact Hs. }
  exact (Hp _ _ _ eq_refl H).
Qed.

Lemma BypassScope_landing
    (sc : Z) (st st' : AvidaGP) (top : ScopeInfo) (rest : list ScopeInfo) :
  size (genome st) < 2 ^ 64 -> 0 <= inst_ptr st < 2 ^ 64 - 1 ->
  scope_stack st = top :: rest -> size_t_incr sc <= scope top ->
  BypassScope sc st = Ok (tt, st') ->
  scope_stack st' = rest /\ genome st' = genome st /\
  lands (size_t_incr sc) (genome st) (inst_ptr st) (inst_ptr st').
Proof.
  intros Hfit Hip Hss Hle. unfold BypassScope, CurScope.
  rewrite bind_assoc, bind_get, Hss. cbn [vector_back].
  rewrite bind_assoc, !bind_ret.
  destruct (Z.ltb_spec (scope top) (size_t_incr sc)) as [Hlt|_]; [lia|].
  intros H. apply bind_inv in H as (u1 & st1 & H1 & H).
  pose proof (ExitScope_inst_ptr _ _ _ H1) as Hip1.
  apply ExitScope_inv in H1 as (Hss1 & _ & Hg1 & _).
  rewrite bind_get in H.
  apply BypassScope_loop_lands in H as (ip' & -> & Hle' & Hskip & Hnext);
    [|rewrite Hg1; exact Hfit|rewrite Hip1; exact Hip].
  cbn [scope_stack genome inst_ptr set_inst_ptr]. unfold lands.
  rewrite Hg1, Hip1 in *. rewrite Hss1, Hss.
  repeat split; assumption.
Qed.

(** X9.  Where [BypassScope] lands.  When the scope to end is the current
    one or encloses it ([scope + 1 <= CurScope()]), [BypassScope] pops the
    innermost frame, that one only, and moves [inst_ptr] forward over the
    instructions that do not declare a scope of level [scope + 1] or less:
    it stops just before the first instruction that does, or at the last
    instruction of the genome when there is none.  The genome is kept. *)
Theorem BypassScope_lands
    (sc : Z) (st st' : AvidaGP) (top : ScopeInfo) (rest : list ScopeInfo) :
  size (genome st) < 2 ^ 64 -> 0 <= inst_ptr st < 2 ^ 64 - 1 ->
  scope_stack st = top :: rest -> size_t_incr sc <= scope top ->
  BypassScope sc st = Ok (tt, st') ->
  scope_stack st' = rest /\ genome st' = genome st /\
  inst_ptr st <= inst_ptr st' /\
  (forall j, inst_ptr st < j <= inst_ptr st' ->
     exists inst,
       genome st !! Z.to_nat j = Some inst /\
       closes (size_t_incr sc) inst = false) /\
  (inst_ptr st' + 1 < size (genome st) ->
     exists inst,
       genome st !! Z.to_nat (inst_ptr st' + 1) = Some inst /\
       closes (size_t_incr sc) inst = true).
Proof.
  intros Hfit Hip Hss Hle H.
  destruct (BypassScope_landing sc st st' top rest Hfit Hip Hss Hle H)
    as (Hss' & Hg & Hfwd & Hskip & Hnext).
  split; [exact Hss'|]. split; [exact Hg|]. split; [exact Hfwd|].
  split; [exact Hskip | exact Hnext].
Qed.

Lemma skipped_state_run : BypassScope 1 skip_state = Ok (tt, skipped_state).
Proof. vm_compute. reflexivity. Qed.

Lemma BypassScope_lands_witness :
  scope_stack skipped_state = [mkScopeInfo 1 BASIC 0; mkScopeInfo 0 ROOT 0] /\
  genome skipped_state = genome skip_state /\
  inst_ptr skip_state <= inst_ptr skipped_state /\
  (forall j, inst_ptr skip_state < j <= inst_ptr skipped_state ->
     exists inst,
       genome skip_state !! Z.to_nat j = Some inst /\
       closes (size_t_incr 1) inst = false) /\
  (inst_ptr skipped_state + 1 < size (genome skip_state) ->
     exists inst,
       genome skip_state !! Z.to_nat (inst_ptr skipped_state + 1) = Some inst /\
       closes (size_t_incr 1) inst = true).
Proof.
  apply (BypassScope_lands 1 skip_state skipped_state (mkScopeInfo 2 BASIC 1)
           [mkScopeInfo 1 BASIC 0; mkScopeInfo 0 ROOT 0]).
  - reflexivity.
  - split; [vm_compute; discriminate | reflexivity].
  - reflexivity.
  - vm_compute. discriminate.
  - exact skipped_state_run.
Defined.

(** ** [Call] *)


Lemma to_size_t_idem z : to_size_t (to_size_t z) = to_size_t z.
Proof. apply to_size_t_small, to_size_t_range. Qed.

Lemma vector_at_ok {A} (v : list A) pos x st :
  v !! Z.to_nat (to_size_t pos) = Some x -> vector_at v pos st = Ok (x, st).
Proof.
  intros H. unfold vector_at. cbv zeta.
  pose proof (to_size_t_range pos) as Hr.
  pose proof (lookup_lt_Some _ _ _ H) as Hlt.
  destruct (Z.ltb_spec (to_size_t pos) (Z.of_nat (length v))); [|lia].
  rewrite H. reflexivity.
Qed.

Lemma UpdateScope_fuel_enters n new_scope ty st top rest :
  scope_stack st = top :: rest -> scope top < size_t_incr new_scope ->
  UpdateScope_fuel (S n) new_scope ty st = Ok (true, enter new_scope ty st).
Proof.
  intros Hss Hlt. cbn [UpdateScope_fuel]. unfold UpdateScope_body, CurScope.
  rewrite bind_assoc, bind_get, Hss. cbn [vector_back].
  rewrite bind_assoc, !bind_ret.
  destruct (Z.ltb_spec (scope top) (size_t_incr new_scope)); [|lia].
  rewrite !bind_get, bind_modify. unfold enter. rewrite Hss. reflexivity.
Qed.

Lemma ProcessInst_unfold_S inst st :
  ProcessInst inst st =
  ProcessInst_body
    (UpdateScope_fuel (S (4 * length (scope_stack st) + 4))) inst st.
Proof.
  rewrite ProcessInst_unfold.
  replace (4 * length (scope_stack st) + 5)%nat
    with (S (4 * length (scope_stack st) + 4)) by lia.
  reflexivity.
Qed.

(** X10.  A [Call] of a function that is not there is a no-op.  When
    [fun_starts[args[0]]] is -1, as [ResetHardware] leaves it, or any other
    value that as a [size_t] is not a position of the genome, or the
    position of an instruction that is not a [Define] (the genome was
    changed since), [Call] returns with the machine as it was: no frame, no
    return position, no error counted. *)
Theorem Call_of_missing_function_is_noop
    (inst : Instruction) (i : fin REGS) (st : AvidaGP) :
  id inst = Call -> to_size_t (arg0 inst) = rix i ->
  (fun_starts st !!! i = -1 /\ size (genome st) < 2 ^ 64) \/
  size (genome st) <= to_size_t (fun_starts st !!! i) \/
  (exists def,
     genome st !! Z.to_nat (to_size_t (fun_starts st !!! i)) = Some def /\
     id def <> Define) ->
  ProcessInst inst st = Ok (tt, st).
Proof.
  intros Hid Hi Hcase. rewrite ProcessInst_unfold. unfold ProcessInst_body.
  rewrite Hid, (bind_Ok _ _ _ _ _ (array_index_eq _ i st Hi)), !bind_get.
  assert (size (genome st) <= to_size_t (fun_starts st !!! i) \/
          exists def,
            genome st !! Z.to_nat (to_size_t (fun_starts st !!! i)) = Some def /\
            id def <> Define) as [Hge|(def & Hdef & Hne)].
  { destruct Hcase as [[-> Hfit]|H]; [left|exact H].
    change (to_size_t (-1)) with (2 ^ 64 - 1). lia. }
  - destruct (Z.leb_spec (size (genome st)) (to_size_t (fun_starts st !!! i)));
      [reflexivity | lia].
  - destruct (_ <=? _); [reflexivity|].
    rewrite (bind_Ok _ _ _ _ _ (vector_at_ok (genome st) _ def st
                                  ltac:(rewrite to_size_t_idem; exact Hdef))).
    rewrite bool_decide_eq_false_2 by exact Hne. reflexivity.
Qed.

Lemma Call_of_missing_function_is_noop_witness :
  ProcessInst (Inst Call 4 0 0) skip_state = Ok (tt, skip_state).
Proof.
  apply (Call_of_missing_function_is_noop (Inst Call 4 0 0) 4%fin skip_state).
  - reflexivity.
  - reflexivity.
  - left. split; reflexivity.
Defined.

(** X11.  A [Call] of a function that is there.  When the genome holds a
    [Define] at [fun_starts[args[0]]] and that function's scope is deeper
    than the current one, [Call] pushes a [FUNCTION] frame of that scope,
    pushes [inst_ptr + 1] on the call stack as the position to return to,
    and leaves [inst_ptr] on the position after the [Define]; nothing else is
    written. *)
Theorem Call_enters_function
    (inst def : Instruction) (i : fin REGS) (st : AvidaGP)
    (top : ScopeInfo) (rest : list ScopeInfo) :
  id inst = Call -> to_size_t (arg0 inst) = rix i ->
  genome st !! Z.to_nat (to_size_t (fun_starts st !!! i)) = Some def ->
  id def = Define ->
  scope_stack st = top :: rest ->
  scope top < size_t_incr (to_size_t (arg1 def)) ->
  ProcessInst inst st =
  Ok (tt,
      set_inst_ptr (size_t_incr (to_size_t (fun_starts st !!! i)))
        (set_call_stack (size_t_incr (inst_ptr st) :: call_stack st)
           (enter (to_size_t (arg1 def)) FUNCTION st))).
Proof.
  intros Hid Hi Hdef Hdefine Hss Hlt.
  rewrite ProcessInst_unfold_S. unfold ProcessInst_body.
  rewrite Hid, (bind_Ok _ _ _ _ _ (array_index_eq _ i st Hi)), !bind_get.
  pose proof (lookup_lt_Some _ _ _ Hdef) as Hin.
  pose proof (to_size_t_range (fun_starts st !!! i)) as Hr.
  destruct (Z.leb_spec (size (genome st)) (to_size_t (fun_starts st !!! i)));
    [unfold size in *; lia|].
  rewrite (bind_Ok _ _ _ _ _ (vector_at_ok (genome st) _ def st
                                ltac:(rewrite to_size_t_idem; exact Hdef))).
  rewrite bool_decide_eq_true_2 by exact Hdefine. cbn [negb].
  rewrite (bind_Ok _ _ _ _ _
             (UpdateScope_fuel_enters _ _ FUNCTION st top rest Hss Hlt)).
  reflexivity.
Qed.

Lemma Call_enters_function_witness :
  ProcessInst (Inst Call 0 0 0) before_call_state =
  Ok (tt,
      set_inst_ptr (size_t_incr (to_size_t (fun_starts before_call_state !!! 0%fin)))
        (set_call_stack
           (size_t_incr (inst_ptr before_call_state) ::
            call_stack before_call_state)
           (enter (to_size_t (arg1 (Inst Define 0 1 0))) FUNCTION
              before_call_state))).
Proof.
  apply (Call_enters_function (Inst Call 0 0 0) (Inst Define 0 1 0) 0%fin
           before_call_state (mkScopeInfo 1 BASIC 2) [mkScopeInfo 0 ROOT 0]);
    reflexivity.
Defined.

(** ** [If], [While], [Countdown] and [Define] at the start of a deeper scope *)



(** X12.  A test that holds enters the scope.  When the scope [args[1]]
    declares is deeper than the current one and [regs[args[0]]] is not
    zero, [If] pushes a [BASIC] frame and [While] a [LOOP] frame of level
    [args[1] + 1] that starts at [inst_ptr], and nothing else changes;
    [Countdown] pushes the [LOOP] frame and decrements the register. *)
Theorem test_true_enters_scope
    (inst : Instruction) (a : fin REGS) (st : AvidaGP)
    (top : ScopeInfo) (rest : list ScopeInfo) :
  to_size_t (arg0 inst) = rix a ->
  double_is_zero (regs st !!! a) = false ->
  scope_stack st = top :: rest ->
  scope top < size_t_incr (to_size_t (arg1 inst)) ->
  (id inst = If ->
   ProcessInst inst st = Ok (tt, enter (to_size_t (arg1 inst)) BASIC st)) /\
  (id inst = While ->
   ProcessInst inst st = Ok (tt, enter (to_size_t (arg1 inst)) LOOP st)) /\
  (id inst = Countdown ->
   ProcessInst inst st =
   Ok (tt, set_regs (vinsert a (PrimFloat.sub (regs st !!! a) 1%float) (regs st))
             (enter (to_size_t (arg1 inst)) LOOP st))).
Proof.
  intros Ha Htest Hss Hlt.
  repeat split; intros Hid; rewrite ProcessInst_unfold_S;
    unfold ProcessInst_body; rewrite Hid;
    rewrite (bind_Ok _ _ _ _ _
               (UpdateScope_fuel_enters _ _ _ st top rest Hss Hlt));
    cbn [negb];
    rewrite (bind_Ok _ _ _ _ _ (reg_read_eq _ a _ Ha));
    change (regs (enter (to_size_t (arg1 inst)) _ st)) with (regs st);
    rewrite Htest; try reflexivity.
  exact (reg_write_eq _ a _ (enter (to_size_t (arg1 inst)) LOOP st) Ha).
Qed.

Lemma test_true_enters_scope_witness :
  (id (Inst If 1 2 0) = If ->
   ProcessInst (Inst If 1 2 0) skip_state =
   Ok (tt, enter (to_size_t (arg1 (Inst If 1 2 0))) BASIC skip_state)) /\
  (id (Inst If 1 2 0) = While ->
   ProcessInst (Inst If 1 2 0) skip_state =
   Ok (tt, enter (to_size_t (arg1 (Inst If 1 2 0))) LOOP skip_state)) /\
  (id (Inst If 1 2 0) = Countdown ->
   ProcessInst (Inst If 1 2 0) skip_state =
   Ok (tt, set_regs (vinsert 1%fin (PrimFloat.sub (regs skip_state !!! 1%fin) 1%float)
                       (regs skip_state))
             (enter (to_size_t (arg1 (Inst If 1 2 0))) LOOP skip_state))).
Proof.
  apply (test_true_enters_scope (Inst If 1 2 0) 1%fin skip_state
           (mkScopeInfo 2 BASIC 1) [mkScopeInfo 1 BASIC 0; mkScopeInfo 0 ROOT 0]);
    reflexivity.
Defined.

Lemma BypassScope_after_enter sc ty st st' top rest :
  size (genome st) < 2 ^ 64 -> 0 <= inst_ptr st < 2 ^ 64 - 1 ->
  scope_stack st = top :: rest ->
  BypassScope sc (enter sc ty st) = Ok (tt, st') ->
  scope_stack st' = scope_stack st /\ genome st' = genome st /\
  lands (size_t_incr sc) (genome st) (inst_ptr st) (inst_ptr st').
Proof.
  intros Hfit Hip Hss H.
  apply (BypassScope_landing sc (enter sc ty st) st'
           (mkScopeInfo (size_t_incr sc) ty (inst_ptr st)) (scope_stack st))
    in H; [|exact Hfit|exact Hip|reflexivity|cbn [scope]; lia].
  exact H.
Qed.

(** X13.  A test that fails skips the scope.  When the scope [args[1]]
    declares is deeper than the current one and [regs[args[0]]] is zero,
    [If], [While] and [Countdown] push the frame and [BypassScope] pops it
    again: the scope stack is as before and [inst_ptr] has moved forward to
    just before the next instruction that declares a scope of level
    [args[1] + 1] or less, or to the last instruction of the genome. *)
Theorem test_false_skips_scope
    (inst : Instruction) (a : fin REGS) (st st' : AvidaGP)
    (top : ScopeInfo) (rest : list ScopeInfo) :
  id inst = If \/ id inst = While \/ id inst = Countdown ->
  to_size_t (arg0 inst) = rix a ->
  double_is_zero (regs st !!! a) = true ->
  scope_stack st = top :: rest ->
  scope top < size_t_incr (to_size_t (arg1 inst)) ->
  size (genome st) < 2 ^ 64 -> 0 <= inst_ptr st < 2 ^ 64 - 1 ->
  ProcessInst inst st = Ok (tt, st') ->
  scope_stack st' = scope_stack st /\ genome st' = genome st /\
  lands (size_t_incr (to_size_t (arg1 inst))) (genome st)
    (inst_ptr st) (inst_ptr st').
Proof.
  intros Hid Ha Htest Hss Hlt Hfit Hip.
  rewrite ProcessInst_unfold_S. unfold ProcessInst_body.
  destruct Hid as [Hid|[Hid|Hid]]; rewrite Hid;
    rewrite (bind_Ok _ _ _ _ _
               (UpdateScope_fuel_enters _ _ _ st top rest Hss Hlt));
    cbn [negb];
    rewrite (bind_Ok _ _ _ _ _ (reg_read_eq _ a _ Ha));
    change (regs (enter (to_size_t (arg1 inst)) _ st)) with (regs st);
    rewrite Htest;
    apply (BypassScope_after_enter _ _ st st' top rest Hfit Hip Hss).
Qed.

Lemma test_false_skips_scope_witness :
  scope_stack (set_inst_ptr 3 skip_state) = scope_stack skip_state /\
  genome (set_inst_ptr 3 skip_state) = genome skip_state /\
  lands (size_t_incr (to_size_t (arg1 (Inst If 0 2 0)))) (genome skip_state)
    (inst_ptr skip_state) (inst_ptr (set_inst_ptr 3 skip_state)).
Proof.
  apply (test_false_skips_scope (Inst If 0 2 0) 0%fin skip_state
           (set_inst_ptr 3 skip_state)
           (mkScopeInfo 2 BASIC 1) [mkScopeInfo 1 BASIC 0; mkScopeInfo 0 ROOT 0]).
  - left. reflexivity.
  - reflexivity.
  - reflexivity.
  - reflexivity.
  - reflexivity.
  - reflexivity.
  - split; [vm_compute; discriminate | reflexivity].
  - vm_compute. reflexivity.
Defined.

Lemma to_int_small z : 0 <= z < 2 ^ 31 -> to_int z = z.
Proof.
  intros H. unfold to_int. rewrite Z.mod_small; lia.
Qed.

Lemma BypassScope_fun_starts sc st u st' :
  BypassScope sc st = Ok (u, st') -> fun_starts st' = fun_starts st.
Proof.
  intros H.
  assert (preserves (fun s => fun_starts s = fun_starts st) (BypassScope sc))
    as Hp.
  { apply preserves_BypassScope; try (intros ? s Hs; exact Hs).
    intros s Hs _. exact Hs. }
  exact (Hp _ _ _ eq_refl H).
Qed.

(** X14.  [Define] records the function and skips its body.  When the
    scope [args[1]] declares is deeper than the current one, [Define]
    stores [inst_ptr], converted to [int], in [fun_starts[args[0]]] (below
    [2^31] that is the position of the [Define] itself, which [Call] reads
    back), and then bypasses the scope it has just entered: the scope stack
    is as before and [inst_ptr] has moved to just before the next
    instruction that declares a scope of level [args[1] + 1] or less. *)
Theorem Define_records_and_skips
    (inst : Instruction) (i : fin REGS) (st st' : AvidaGP)
    (top : ScopeInfo) (rest : list ScopeInfo) :
  id inst = Define -> to_size_t (arg0 inst) = rix i ->
  scope_stack st = top :: rest ->
  scope top < size_t_incr (to_size_t (arg1 inst)) ->
  size (genome st) < 2 ^ 64 -> 0 <= inst_ptr st < 2 ^ 64 - 1 ->
  ProcessInst inst st = Ok (tt, st') ->
  fun_starts st' = vinsert i (to_int (inst_ptr st)) (fun_starts st) /\
  (inst_ptr st < 2 ^ 31 -> to_size_t (fun_starts st' !!! i) = inst_ptr st) /\
  scope_stack st' = scope_stack st /\ genome st' = genome st /\
  lands (size_t_incr (to_size_t (arg1 inst))) (genome st)
    (inst_ptr st) (inst_ptr st').
Proof.
  intros Hid Hi Hss Hlt Hfit Hip.
  rewrite ProcessInst_unfold_S. unfold ProcessInst_body. rewrite Hid.
  rewrite (bind_Ok _ _ _ _ _
             (UpdateScope_fuel_enters _ _ _ st top rest Hss Hlt)).
  cbn [negb].
  rewrite (bind_Ok _ _ _ _ _ (array_index_eq _ i _ Hi)), !bind_get, bind_modify.
  change (fun_starts (enter (to_size_t (arg1 inst)) BASIC st))
    with (fun_starts st).
  change (inst_ptr (enter (to_size_t (arg1 inst)) BASIC st))
    with (inst_ptr st).
  change (set_fun_starts (vinsert i (to_int (inst_ptr st)) (fun_starts st))
            (enter (to_size_t (arg1 inst)) BASIC st))
    with (enter (to_size_t (arg1 inst)) BASIC
            (set_fun_starts (vinsert i (to_int (inst_ptr st)) (fun_starts st))
               st)).
  intros H. pose proof (BypassScope_fun_starts _ _ _ _ H) as Hf.
  apply (BypassScope_after_enter _ _ _ st' top rest) in H;
    [|exact Hfit|exact Hip|exact Hss].
  cbn [fun_starts scope_stack genome inst_ptr set_fun_starts enter
       set_scope_stack] in *.
  split; [exact Hf|]. split; [|exact H].
  intros H31. rewrite Hf, vlookup_insert, to_int_small by lia.
  apply to_size_t_small. lia.
Qed.

Lemma Define_records_and_skips_witness :
  fun_starts (set_inst_ptr 3
                (set_fun_starts (vinsert 5%fin 2 (fun_starts skip_state))
                   skip_state)) =
  vinsert 5%fin (to_int (inst_ptr skip_state)) (fun_starts skip_state) /\
  (inst_ptr skip_state < 2 ^ 31 ->
   to_size_t
     (fun_starts (set_inst_ptr 3
                    (set_fun_starts (vinsert 5%fin 2 (fun_starts skip_state))
                       skip_state)) !!! 5%fin) = inst_ptr skip_state) /\
  scope_stack (set_inst_ptr 3
                 (set_fun_starts (vinsert 5%fin 2 (fun_starts skip_state))
                    skip_state)) = scope_stack skip_state /\
  genome (set_inst_ptr 3
            (set_fun_starts (vinsert 5%fin 2 (fun_starts skip_state))
               skip_state)) = genome skip_state /\
  lands (size_t_incr (to_size_t (arg1 (Inst Define 5 2 0)))) (genome skip_state)
    (inst_ptr skip_state)
    (inst_ptr (set_inst_ptr 3
                 (set_fun_starts (vinsert 5%fin 2 (fun_starts skip_state))
                    skip_state))).
Proof.
  apply (Define_records_and_skips (Inst Define 5 2 0) 5%fin skip_state
           (set_inst_ptr 3
              (set_fun_starts (vinsert 5%fin 2 (fun_starts skip_state))
                 skip_state))
           (mkScopeInfo 2 BASIC 1) [mkScopeInfo 1 BASIC 0; mkScopeInfo 0 ROOT 0]).
  - reflexivity.
  - reflexivity.
  - reflexivity.
  - reflexivity.
  - reflexivity.
  - split; [vm_compute; discriminate | reflexivity].
  - vm_compute. reflexivity.
Defined.

(** ** [ScopeReg]: the backup and its restoration *)

Lemma rix_inj (i j : fin REGS) : rix i = rix j -> i = j.
Proof.
  unfold rix. intros H. apply (inj fin_to_nat). lia.
Qed.

Lemma ExitScope_restore_keeps (a : fin REGS) rs : forall st u st' top rest,
  scope_stack st = top :: rest ->
  Forall (other_backup (scope top) a) rs ->
  ExitScope_restore rs st = Ok (u, st') -> regs st' !!! a = regs st !!! a.
Proof.
  induction rs as [|b rs IH]; intros st u st' top rest Hss Hrs; simpl.
  - intros H. apply ret_inv in H as [_ ->]. reflexivity.
  - unfold CurScope. rewrite bind_assoc, bind_get, Hss. cbn [vector_back].
    rewrite bind_assoc, !bind_ret.
    inversion Hrs as [|? ? Hb Hrs']; subst.
    destruct (Z.eqb_spec (rb_scope b) (scope top)) as [Heq|Hne].
    + intros H. apply bind_inv in H as (u1 & st1 & H1 & H).
      unfold reg_write in H1.
      apply bind_inv in H1 as (j & st2 & Hj & H1).
      apply array_index_inv in Hj as [-> Hj]. rewrite bind_get in H1.
      apply modify_inv in H1 as ->. rewrite bind_modify in H.
      apply (IH _ _ _ top rest) in H; [|exact Hss|exact Hrs'].
      rewrite H. cbn [regs set_reg_stack set_regs].
      apply vlookup_insert_ne. intros <-. exact (Hb Heq Hj).
    + intros H. apply ret_inv in H as [_ ->]. reflexivity.
Qed.

(** X15.  [ScopeReg] backs a register up, and leaving the scope restores
    it.  [ScopeReg a] pushes the backup [(CurScope(), a, regs[a])] and
    changes nothing else.  When the scope is then left with that backup
    stack, every register may have been overwritten: [ExitScope] gives
    [regs[a]] the value it had at the [ScopeReg], and pops the frame,
    provided no older backup of [a] made in this scope lies beneath, for
    the older one would be restored last. *)
Theorem ScopeReg_restored_at_exit
    (inst : Instruction) (a : fin REGS) (st : AvidaGP)
    (top : ScopeInfo) (rest : list ScopeInfo) :
  id inst = ScopeReg -> to_size_t (arg0 inst) = rix a ->
  scope_stack st = top :: rest ->
  Forall (other_backup (scope top) a) (reg_stack st) ->
  let backed_up :=
    set_reg_stack
      (mkRegBackup (scope top) (rix a) (regs st !!! a) :: reg_stack st) st in
  ProcessInst inst st = Ok (tt, backed_up) /\
  forall (r : vec float REGS) (st' : AvidaGP),
    ExitScope (set_regs r backed_up) = Ok (tt, st') ->
    regs st' !!! a = regs st !!! a /\ scope_stack st' = rest.
Proof.
  intros Hid Ha Hss Hrs backed_up. subst backed_up. split.
  - rewrite ProcessInst_unfold. unfold ProcessInst_body. rewrite Hid.
    cbv iota.
    unfold CurScope. rewrite bind_assoc, bind_get, Hss. cbn [vector_back].
    rewrite bind_assoc, !bind_ret.
    rewrite (bind_Ok _ _ _ _ _ (reg_read_eq _ a _ Ha)), bind_get, Ha.
    reflexivity.
  - intros r st' H.
    pose proof (ExitScope_inv _ _ _ H) as (Hss' & _).
    split; [|rewrite Hss'; cbn; rewrite Hss; reflexivity].
    revert H. unfold ExitScope. rewrite bind_get. intros H.
    apply bind_inv in H as (u1 & st1 & H1 & H).
    unfold emp_assert in H1. destruct (1 <? _); [|discriminate].
    apply ret_inv in H1 as [_ ->].
    apply bind_inv in H as (u2 & st2 & H2 & H).
    unfold emp_assert in H2. destruct (_ <=? _); [|discriminate].
    apply ret_inv in H2 as [_ ->]. rewrite bind_get in H.
    apply bind_inv in H as (u3 & st3 & H3 & H).
    apply modify_inv in H as ->. cbn [regs set_scope_stack].
    revert H3. cbn [reg_stack set_regs set_reg_stack ExitScope_restore].
    unfold CurScope. rewrite bind_assoc, bind_get.
    cbn [scope_stack set_regs set_reg_stack]. rewrite Hss. cbn [vector_back].
    rewrite bind_assoc, !bind_ret. cbn [rb_scope reg_id value].
    rewrite Z.eqb_refl.
    rewrite (bind_Ok _ _ _ _ _
               (reg_write_eq (rix a) a _ _ (to_size_t_rix a))), bind_modify.
    intros H3.
    apply (ExitScope_restore_keeps a _ _ _ _ top rest) in H3;
      [|exact Hss|exact Hrs].
    rewrite H3. cbn [regs set_regs set_reg_stack]. apply vlookup_insert.
Qed.

Lemma ScopeReg_restored_at_exit_witness :
  let backed_up :=
    set_reg_stack
      (mkRegBackup (scope (mkScopeInfo 1 BASIC 1)) (rix 3%fin)
         (regs before_backup_state !!! 3%fin) :: reg_stack before_backup_state)
      before_backup_state in
  ProcessInst (Inst ScopeReg 3 0 0) before_backup_state = Ok (tt, backed_up) /\
  forall (r : vec float REGS) (st' : AvidaGP),
    ExitScope (set_regs r backed_up) = Ok (tt, st') ->
    regs st' !!! 3%fin = regs before_backup_state !!! 3%fin /\
    scope_stack st' = [mkScopeInfo 0 ROOT 0].
Proof.
  apply (ScopeReg_restored_at_exit (Inst ScopeReg 3 0 0) 3%fin
           before_backup_state (mkScopeInfo 1 BASIC 1) [mkScopeInfo 0 ROOT 0]).
  - reflexivity.
  - reflexivity.
  - reflexivity.
  - apply Forall_nil_2.
Defined.

(** ** A scope declared again *)

Lemma UpdateScope_fuel_S n new_scope ty st :
  UpdateScope_fuel (S n) new_scope ty st =
  UpdateScope_body (ProcessInst_fuel n) (UpdateScope_fuel n) new_scope ty st.
Proof. reflexivity. Qed.

(** X16.  The recursive call of [UpdateScope] increments the scope again.
    When [Scope s] is executed in a [BASIC] scope of level [s + 1] or more,
    [UpdateScope] leaves that scope and calls itself with the level
    [s + 1], which it increments a second time: over a frame of a level
    below [s + 2], the frame pushed has the level [s + 2], not [s + 1].
    So a scope declared twice in a row is entered one level deeper the
    second time. *)
Theorem Scope_reopened_one_level_deeper
    (inst : Instruction) (st st' : AvidaGP)
    (top below : ScopeInfo) (rest : list ScopeInfo) :
  id inst = Scope -> scope_stack st = top :: below :: rest ->
  type top = BASIC ->
  size_t_incr (to_size_t (arg0 inst)) <= scope top ->
  scope below < size_t_incr (size_t_incr (to_size_t (arg0 inst))) ->
  ProcessInst inst st = Ok (tt, st') ->
  scope_stack st' =
  mkScopeInfo (size_t_incr (size_t_incr (to_size_t (arg0 inst)))) BASIC
    (inst_ptr st) :: below :: rest.
Proof.
  intros Hid Hss Hty Hle Hlt. rewrite ProcessInst_unfold.
  replace (4 * length (scope_stack st) + 5)%nat
    with (S (S (4 * length rest + 11)))
    by (rewrite Hss; cbn [length]; lia).
  unfold ProcessInst_body. rewrite Hid. cbv iota.
  intros H. apply bind_inv in H as (b & st1 & H1 & H).
  apply ret_inv in H as [_ ->].
  rewrite UpdateScope_fuel_S in H1. revert H1.
  unfold UpdateScope_body, CurScope.
  rewrite bind_assoc, bind_get, Hss. cbn [vector_back].
  rewrite bind_assoc, !bind_ret.
  destruct (Z.ltb_spec (scope top) (size_t_incr (to_size_t (arg0 inst))))
    as [Hlt'|_]; [lia|].
  unfold CurScopeType. rewrite bind_assoc, bind_get, Hss. cbn [vector_back].
  rewrite bind_assoc, !bind_ret, Hty. cbv iota.
  intros H. apply bind_inv in H as (u & st2 & He & H).
  pose proof (ExitScope_inst_ptr _ _ _ He) as Hip.
  apply ExitScope_inv in He as (Hss2 & _).
  rewrite Hss in Hss2. cbn [tail] in Hss2.
  rewrite (UpdateScope_fuel_enters _ _ BASIC st2 below rest Hss2 Hlt) in H.
  injection H as _ <-. unfold enter. cbn [scope_stack set_scope_stack].
  rewrite Hss2, Hip. reflexivity.
Qed.

Lemma reopened_state_run :
  ProcessInst (Inst Scope 1 0 0) skip_state = Ok (tt, reopened_state).
Proof. vm_compute. reflexivity. Qed.

Lemma Scope_reopened_one_level_deeper_witness :
  scope_stack reopened_state =
  mkScopeInfo (size_t_incr (size_t_incr (to_size_t (arg0 (Inst Scope 1 0 0)))))
    BASIC (inst_ptr skip_state) ::
  mkScopeInfo 1 BASIC 0 :: [mkScopeInfo 0 ROOT 0].
Proof.
  apply (Scope_reopened_one_level_deeper (Inst Scope 1 0 0) skip_state
           reopened_state (mkScopeInfo 2 BASIC 1) (mkScopeInfo 1 BASIC 0)
           [mkScopeInfo 0 ROOT 0]).
  - reflexivity.
  - reflexivity.
  - reflexivity.
  - vm_compute. discriminate.
  - reflexivity.
  - exact reopened_state_run.
Defined.

(** ** The auxiliary stacks at their bounds *)

(** X17.  The bounds of an auxiliary stack.  A [Push] on a stack that
    holds [STACK_CAP] values is dropped: the machine is as it was, and no
    error is counted.  A [Pop] from an empty stack stores 0 in the register
    and changes nothing else. *)
Theorem stack_bounds
    (inst : Instruction) (r s : fin REGS) (st : AvidaGP) :
  (id inst = Push ->
   to_size_t (arg0 inst) = rix r -> to_size_t (arg1 inst) = rix s ->
   STACK_CAP <= size (stacks st !!! s) ->
   ProcessInst inst st = Ok (tt, st)) /\
  (id inst = Pop ->
   to_size_t (arg0 inst) = rix s -> to_size_t (arg1 inst) = rix r ->
   stacks st !!! s = [] ->
   ProcessInst inst st = Ok (tt, set_regs (vinsert r 0%float (regs st)) st)).
Proof.
  split; intros Hid H0 H1 Hs; rewrite ProcessInst_unfold;
    unfold ProcessInst_body; rewrite Hid; cbv iota.
  - rewrite (bind_Ok _ _ _ _ _ (reg_read_eq _ r _ H0)). unfold PushStack.
    rewrite (bind_Ok _ _ _ _ _ (array_index_eq _ s _ H1)), bind_get.
    destruct (Z.leb_spec STACK_CAP (size (stacks st !!! s)));
      [reflexivity | lia].
  - unfold PopStack. rewrite bind_assoc.
    rewrite (bind_Ok _ _ _ _ _ (array_index_eq _ s _ H0)).
    rewrite bind_assoc, bind_get, Hs, bind_ret.
    exact (reg_write_eq _ r _ st H1).
Qed.

Lemma stack_bounds_witness :
  ProcessInst (Inst Push 1 2 0) full_stack_state = Ok (tt, full_stack_state) /\
  ProcessInst (Inst Pop 2 1 0) skip_state =
  Ok (tt, set_regs (vinsert 1%fin 0%float (regs skip_state)) skip_state).
Proof.
  split.
  - apply (proj1 (stack_bounds (Inst Push 1 2 0) 1%fin 2%fin full_stack_state));
      first [reflexivity | vm_compute; discriminate].
  - apply (proj2 (stack_bounds (Inst Pop 2 1 0) 1%fin 2%fin skip_state));
      reflexivity.
Defined.

(** ** No auxiliary stack grows beyond [STACK_CAP] *)

Lemma stacks_bounded_PushStack sid v : preserves stacks_bounded (PushStack sid v).
Proof.
  intros st u st' HI. unfold PushStack. intros H.
  apply bind_inv in H as (i & st1 & Hi & H).
  apply array_index_inv in Hi as [-> _]. rewrite bind_get in H.
  destruct (Z.leb_spec STACK_CAP (size (stacks st !!! i))) as [|Hlt].
  - apply ret_inv in H as [_ ->]. exact HI.
  - apply modify_inv in H as ->. intros j. cbn [stacks set_stacks].
    destruct (decide (i = j)) as [<-|Hne].
    + rewrite vlookup_insert. unfold size in *. cbn [length]. lia.
    + rewrite vlookup_insert_ne by exact Hne. apply HI.
Qed.

Lemma stacks_bounded_PopStack sid : preserves stacks_bounded (PopStack sid).
Proof.
  intros st x st' HI. unfold PopStack. intros H.
  apply bind_inv in H as (i & st1 & Hi & H).
  apply array_index_inv in Hi as [-> _]. rewrite bind_get in H.
  destruct (stacks st !!! i) as [|out rest] eqn:Es.
  - apply ret_inv in H as [_ ->]. exact HI.
  - rewrite bind_modify in H. apply ret_inv in H as [_ ->].
    intros j. cbn [stacks set_stacks].
    destruct (decide (i = j)) as [<-|Hne].
    + rewrite vlookup_insert. specialize (HI i). rewrite Es in HI.
      unfold size in *. cbn [length] in HI. lia.
    + rewrite vlookup_insert_ne by exact Hne. apply HI.
Qed.

Lemma stacks_bounded_reg_write a v : preserves stacks_bounded (reg_write a v).
Proof. apply preserves_reg_write. intros r st H. exact H. Qed.

Lemma stacks_bounded_ExitScope : preserves stacks_bounded ExitScope.
Proof.
  apply preserves_ExitScope; try (intros ? st H; exact H).
  intros st H _. exact H.
Qed.

Lemma stacks_bounded_BypassScope sc : preserves stacks_bounded (BypassScope sc).
Proof.
  apply preserves_BypassScope; try (intros ? st H; exact H).
  intros st H _. exact H.
Qed.

Lemma stacks_bounded_ResetIP : preserves stacks_bounded ResetIP.
Proof.
  apply preserves_ResetIP; try (intros ? st H; exact H).
  intros st H _. exact H.
Qed.

Lemma stacks_bounded_UpdateScope_return :
  preserves stacks_bounded UpdateScope_return.
Proof.
  apply preserves_UpdateScope_return; try (intros ? st H; exact H).
  intros st H _. exact H.
Qed.

Ltac keeps_stacks :=
  repeat first
    [ assumption
    | preserves_step
    | apply preserves_CurScope
    | apply preserves_CurScopeType
    | apply preserves_reg_read
    | apply stacks_bounded_reg_write
    | apply stacks_bounded_ExitScope
    | apply stacks_bounded_BypassScope
    | apply stacks_bounded_ResetIP
    | apply stacks_bounded_UpdateScope_return
    | apply stacks_bounded_PushStack
    | apply stacks_bounded_PopStack
    | match goal with
      | H : forall inst, preserves _ (?P inst) |- preserves _ (?P _) => apply H
      | H : forall new_scope ty, preserves _ (?U new_scope ty)
        |- preserves _ (?U _ _) => apply H
      end
    | apply preserves_modify; intros ? HI; exact HI
    | match goal with
      | |- preserves _ (match ?x with _ => _ end) => destruct x
      end ].

Lemma stacks_bounded_dispatch fuel :
  (forall inst, preserves stacks_bounded (ProcessInst_fuel fuel inst)) /\
  (forall new_scope ty,
     preserves stacks_bounded (UpdateScope_fuel fuel new_scope ty)).
Proof.
  induction fuel as [|n [IHP IHU]].
  - split; intros; apply preserves_fail.
  - split.
    + intros inst.
      change (preserves stacks_bounded
                (ProcessInst_body (UpdateScope_fuel n) inst)).
      unfold ProcessInst_body. destruct (id inst); keeps_stacks.
    + intros new_scope ty.
      change (preserves stacks_bounded
                (UpdateScope_body (ProcessInst_fuel n) (UpdateScope_fuel n)
                   new_scope ty)).
      unfold UpdateScope_body. keeps_stacks.
Qed.

Lemma stacks_bounded_ProcessInst inst :
  preserves stacks_bounded (ProcessInst inst).
Proof.
  intros st a st' HI H. unfold ProcessInst in H.
  exact (proj1 (stacks_bounded_dispatch _) inst _ _ _ HI H).
Qed.

Lemma stacks_bounded_SingleProcess : preserves stacks_bounded SingleProcess.
Proof.
  pose proof stacks_bounded_ProcessInst as HP.
  unfold SingleProcess. keeps_stacks.
Qed.

Lemma stacks_bounded_fresh st :
  stacks st = stacks AvidaGP_fresh -> stacks_bounded st.
Proof.
  intros H i. rewrite H.
  change (stacks AvidaGP_fresh) with (vreplicate REGS (@nil float)).
  rewrite vlookup_replicate. unfold size, STACK_CAP. cbn [length]. lia.
Qed.

Lemma stacks_bounded_perform op : preserves stacks_bounded (perform op).
Proof.
  destruct op; cbn [perform].
  - intros st u st' _ H. rewrite Reset_unfold in H.
    apply ResetHardware_effect in H as [Hr _].
    apply stacks_bounded_fresh, Hr.
  - intros st u st' _ H. apply ResetHardware_effect in H as [Hr _].
    apply stacks_bounded_fresh, Hr.
  - apply stacks_bounded_ResetIP.
  - intros st u st' HI H. apply SetInst_inv in H as ->. exact HI.
  - apply preserves_modify. intros st H. exact H.
  - unfold PushInst. keeps_stacks.
  - apply stacks_bounded_ProcessInst.
  - apply stacks_bounded_SingleProcess.
  - pose proof stacks_bounded_SingleProcess as HS.
    induction num_inst as [|k IH]; simpl; keeps_stacks.
Qed.

(** X18.  [STACK_CAP] is never exceeded.  In every reachable state every
    auxiliary stack holds at most [STACK_CAP] values: the constructor
    leaves them empty, [PushStack] is the only writer that adds a value and
    it checks the bound first, and every public operation keeps the
    bound. *)
Theorem stacks_stay_bounded :
  (forall st : AvidaGP,
     reachable st ->
     forall i : fin REGS, size (stacks st !!! i) <= STACK_CAP) /\
  (forall (op : operation) (st st' : AvidaGP),
     stacks_bounded st -> exec (perform op) st = Ok st' -> stacks_bounded st').
Proof.
  assert (forall op st st',
            stacks_bounded st -> exec (perform op) st = Ok st' ->
            stacks_bounded st') as Hstep.
  { intros op st st' HI Hop. apply exec_inv in Hop as [a Hop].
    exact (stacks_bounded_perform op _ _ _ HI Hop). }
  split; [|exact Hstep].
  induction 1 as [st Hnew | op st st' _ IH Hop].
  - rewrite AvidaGP_new_fresh in Hnew. injection Hnew as <-.
    apply stacks_bounded_fresh. reflexivity.
  - exact (Hstep op st st' IH Hop).
Qed.

Lemma full_stack_state_run : run full_stack_genome 16 = Ok full_stack_state.
Proof. vm_compute. reflexivity. Qed.

Lemma stacks_stay_bounded_witness :
  (forall i : fin REGS, size (stacks full_stack_state !!! i) <= STACK_CAP) /\
  stacks_bounded full_stack_state.
Proof.
  split.
  - apply (proj1 stacks_stay_bounded full_stack_state).
    exact (reachable_run _ _ _ full_stack_state_run).
  - apply (proj2 stacks_stay_bounded (OpProcessInst (Inst Push 1 2 0))
             full_stack_state full_stack_state).
    + intros i. inv_fin i; [vm_compute; discriminate|].
      repeat (intros i; inv_fin i; [vm_compute; discriminate|]).
      intros i. inv_fin i.
    + vm_compute. reflexivity.
Defined.

(** ** The instruction library *)

(** X19.  The table of [GetInstLib].  No two opcodes are registered under
    the same name, so a name determines its opcode; no opcode is registered
    with more than [INST_ARGS] arguments, so the loop of [PrintGenome] that
    writes [GetNumArgs] arguments never reads outside [args], and writes
    exactly that many. *)
Theorem instruction_library_names_and_arities :
  (forall i j : InstID, GetName i = GetName j -> i = j) /\
  (forall i : InstID, (GetNumArgs i <= INST_ARGS)%nat) /\
  (forall inst : Instruction,
     length (take (GetNumArgs (id inst)) (vec_to_list (args inst))) =
     GetNumArgs (id inst)).
Proof.
  assert (forall i : InstID, (GetNumArgs i <= INST_ARGS)%nat) as Hle.
  { intros i. unfold INST_ARGS. destruct i; cbn [GetNumArgs]; lia. }
  split; [|split; [exact Hle|]].
  - intros i j H. destruct i, j; first [reflexivity | discriminate H].
  - intros inst. rewrite length_take, length_vec_to_list.
    specialize (Hle (id inst)). lia.
Qed.

(** ** Editing the genome *)

Lemma GetInst_lookup pos st x st' :
  GetInst pos st = Ok (x, st') <->
  st' = st /\ genome st !! Z.to_nat (to_size_t pos) = Some x.
Proof.
  unfold GetInst. rewrite bind_get. split.
  - intros H. apply vector_at_lookup in H as (-> & Hl & _). auto.
  - intros [-> Hl]. apply vector_at_ok, Hl.
Qed.

Lemma vector_at_out {A} (v : list A) pos st :
  size v <= to_size_t pos -> vector_at v pos st = Err OutOfRange.
Proof.
  intros H. unfold vector_at. cbv zeta.
  destruct (Z.ltb_spec (to_size_t pos) (Z.of_nat (length v)));
    [unfold size in H; lia | reflexivity].
Qed.

(** X20.  [SetInst] and [GetInst].  After [SetInst(pos, inst)], [GetInst]
    gives [inst] at [pos] and what it gave before at every other position,
    and the genome has the size it had.  At a position that is not in the
    genome both are an access out of range: [SetInst] does not extend the
    genome. *)
Theorem SetInst_then_GetInst (pos : Z) (inst : Instruction) (st st' : AvidaGP) :
  (SetInst pos inst st = Ok (tt, st') ->
   GetInst pos st' = Ok (inst, st') /\
   size (genome st') = size (genome st) /\
   forall pos' x,
     to_size_t pos' <> to_size_t pos ->
     GetInst pos' st' = Ok (x, st') <-> GetInst pos' st = Ok (x, st)) /\
  (size (genome st) <= to_size_t pos ->
   SetInst pos inst st = Err OutOfRange /\ GetInst pos st = Err OutOfRange).
Proof.
  split.
  - intros H. pose proof H as Hin. revert Hin. unfold SetInst.
    rewrite bind_get. intros Hin.
    apply bind_inv in Hin as (old & st1 & Hold & _).
    apply vector_at_lookup in Hold as (_ & Hold & _).
    apply lookup_lt_Some in Hold.
    apply SetInst_inv in H as ->. cbn [genome set_genome].
    split; [|split].
    + apply GetInst_lookup. split; [reflexivity|]. cbn [genome set_genome].
      apply list_lookup_insert_eq. exact Hold.
    + unfold size. rewrite length_insert. reflexivity.
    + intros pos' x Hne. rewrite !GetInst_lookup. cbn [genome set_genome].
      rewrite list_lookup_insert_ne.
      * split; intros [_ Hl]; split; first [reflexivity | exact Hl].
      * pose proof (to_size_t_range pos). pose proof (to_size_t_range pos').
        lia.
  - intros Hout. split.
    + unfold SetInst. rewrite bind_get. apply bind_Err, vector_at_out, Hout.
    + unfold GetInst. rewrite bind_get. apply vector_at_out, Hout.
Qed.

Lemma SetInst_then_GetInst_witness :
  (GetInst 2 (set_genome (<[2%nat := Inst Dec 7 0 0]> skip_genome) skip_state) =
   Ok (Inst Dec 7 0 0,
       set_genome (<[2%nat := Inst Dec 7 0 0]> skip_genome) skip_state) /\
   size (genome (set_genome (<[2%nat := Inst Dec 7 0 0]> skip_genome) skip_state)) =
   size (genome skip_state) /\
   forall pos' x,
     to_size_t pos' <> to_size_t 2 ->
     GetInst pos'
       (set_genome (<[2%nat := Inst Dec 7 0 0]> skip_genome) skip_state) =
     Ok (x, set_genome (<[2%nat := Inst Dec 7 0 0]> skip_genome) skip_state) <->
     GetInst pos' skip_state = Ok (x, skip_state)) /\
  (SetInst 6 (Inst Dec 7 0 0) skip_state = Err OutOfRange /\
   GetInst 6 skip_state = Err OutOfRange).
Proof.
  split.
  - apply (proj1 (SetInst_then_GetInst 2 (Inst Dec 7 0 0) skip_state
                    (set_genome (<[2%nat := Inst Dec 7 0 0]> skip_genome)
                       skip_state))).
    vm_compute. reflexivity.
  - apply (proj2 (SetInst_then_GetInst 6 (Inst Dec 7 0 0) skip_state
                    skip_state)).
    vm_compute. discriminate.
Defined.

Lemma Instruction_Set_all i a0 a1 a2 old :
  Instruction_Set i a0 a1 a2 old = Inst i a0 a1 a2.
Proof.
  destruct old as [oi oargs]. unfold Instruction_Set, Inst, INST_ARGS in *.
  cbn [id args]. inv_vec oargs. intros x y z. reflexivity.
Qed.

(** X21.  The two overloads of [SetInst] agree.  [Instruction::Set]
    assigns the opcode and all three arguments, so nothing of the old
    instruction is left: [SetInst(pos, id, a0, a1, a2)] is
    [SetInst(pos, Instruction(id, a0, a1, a2))], with the same bounds
    check; and [PushInst(id, a0, a1, a2)] is
    [PushInst(Instruction(id, a0, a1, a2))]. *)
Theorem SetInst_overloads_agree
    (pos : Z) (i : InstID) (a0 a1 a2 : Z) (st : AvidaGP) :
  SetInst_id pos i a0 a1 a2 st = SetInst pos (Inst i a0 a1 a2) st /\
  PushInst_id i a0 a1 a2 st = PushInst (Inst i a0 a1 a2) st.
Proof.
  split; [|reflexivity].
  unfold SetInst_id, SetInst. rewrite !bind_get. unfold bind.
  destruct (vector_at (genome st) pos st) as [[old st1]|e]; [|reflexivity].
  rewrite Instruction_Set_all. reflexivity.
Qed.

(** X22.  [PushInst] appends.  It never fails; afterwards the genome is
    one instruction longer, [GetInst] gives the new instruction at the old
    size and what it gave before at every position below. *)
Theorem PushInst_appends (inst : Instruction) (st : AvidaGP) :
  size (genome st) < 2 ^ 64 ->
  exists st',
    PushInst inst st = Ok (tt, st') /\
    size (genome st') = size (genome st) + 1 /\
    GetInst (size (genome st)) st' = Ok (inst, st') /\
    forall pos x,
      GetInst pos st = Ok (x, st) -> GetInst pos st' = Ok (x, st').
Proof.
  intros Hfit. eexists. split; [reflexivity|]. cbn [genome set_genome].
  split; [|split].
  - unfold size. rewrite length_app. cbn [length]. lia.
  - apply GetInst_lookup. split; [reflexivity|]. cbn [genome set_genome].
    rewrite to_size_t_small by (unfold size in *; lia).
    unfold size. rewrite Nat2Z.id. apply list_lookup_middle. reflexivity.
  - intros pos x H. apply GetInst_lookup in H as [_ H].
    apply GetInst_lookup. split; [reflexivity|]. cbn [genome set_genome].
    apply lookup_app_l_Some, H.
Qed.

Lemma PushInst_appends_witness :
  exists st',
    PushInst (Inst Inc 1 0 0) skip_state = Ok (tt, st') /\
    size (genome st') = size (genome skip_state) + 1 /\
    GetInst (size (genome skip_state)) st' = Ok (Inst Inc 1 0 0, st') /\
    forall pos x,
      GetInst pos skip_state = Ok (x, skip_state) ->
      GetInst pos st' = Ok (x, st').
Proof.
  apply (PushInst_appends (Inst Inc 1 0 0) skip_state). reflexivity.
Defined.

(** ** [ResetIP] *)

(** X23.  [ResetIP] a second time changes nothing.  Whenever [ResetIP]
    returns, [inst_ptr] is 0, the call stack is empty and at most one scope
    frame is left, whatever was open; from there [ResetIP] returns the same
    machine. *)
Theorem ResetIP_twice (st st' : AvidaGP) :
  ResetIP st = Ok (tt, st') ->
  inst_ptr st' = 0 /\ call_stack st' = [] /\
  (length (scope_stack st') <= 1)%nat /\
  ResetIP st' = Ok (tt, st').
Proof.
  intros H. apply ResetIP_effect in H as (Hip & Hcs & Hlen & _).
  split; [exact Hip|]. split; [exact Hcs|]. split; [exact Hlen|].
  unfold ResetIP. rewrite bind_modify, bind_get.
  cbn [scope_stack set_inst_ptr]. cbn [ResetIP_loop].
  rewrite bind_assoc, bind_get. cbn [scope_stack set_inst_ptr].
  destruct (Z.ltb_spec 1 (size (scope_stack st'))) as [Hlt|_];
    [unfold size in Hlt; lia|].
  rewrite bind_ret. unfold modify.
  destruct st' as [g rg inp out stk fs ip ss rs cs er].
  cbn in Hip, Hcs. subst ip cs. reflexivity.
Qed.

Lemma ResetIP_twice_witness :
  inst_ptr (set_scope_stack [mkScopeInfo 0 ROOT 0] (set_inst_ptr 0 nested_state))
  = 0 /\
  call_stack
    (set_scope_stack [mkScopeInfo 0 ROOT 0] (set_inst_ptr 0 nested_state)) = [] /\
  (length
     (scope_stack
        (set_scope_stack [mkScopeInfo 0 ROOT 0] (set_inst_ptr 0 nested_state)))
   <= 1)%nat /\
  ResetIP (set_scope_stack [mkScopeInfo 0 ROOT 0] (set_inst_ptr 0 nested_state)) =
  Ok (tt, set_scope_stack [mkScopeInfo 0 ROOT 0] (set_inst_ptr 0 nested_state)).
Proof.
  apply (ResetIP_twice nested_state
           (set_scope_stack [mkScopeInfo 0 ROOT 0] (set_inst_ptr 0 nested_state))).
  vm_compute. reflexivity.
Defined.

(** * EventDrivenGP *)

(** ** The memories *)

Lemma Get_value key (m : EventDrivenGP.memory_t) :
  EventDrivenGP.Get key m =
  (default EventDrivenGP.DEFAULT_MEM_VALUE (m !! key), m).
Proof.
  unfold EventDrivenGP.Get, EventDrivenGP.Has, EventDrivenGP.at_key.
  destruct (m !! key) as [v|] eqn:E.
  - rewrite bool_decide_eq_true_2 by eauto. reflexivity.
  - rewrite bool_decide_eq_false_2 by (intros [v Hv]; discriminate).
    reflexivity.
Qed.

Lemma Set_insert key v (m : EventDrivenGP.memory_t) :
  EventDrivenGP.Set_ key v m = <[key := v]> m.
Proof.
  unfold EventDrivenGP.Set_, EventDrivenGP.at_key.
  destruct (m !! key); cbn [snd]; [reflexivity | apply insert_insert_eq].
Qed.

Lemma Access_value key (m : EventDrivenGP.memory_t) :
  EventDrivenGP.Access key m =
  (default EventDrivenGP.DEFAULT_MEM_VALUE (m !! key),
   <[key := default EventDrivenGP.DEFAULT_MEM_VALUE (m !! key)]> m).
Proof.
  unfold EventDrivenGP.Access, EventDrivenGP.Has. cbv zeta.
  destruct (m !! key) as [v|] eqn:E.
  - rewrite bool_decide_eq_true_2 by eauto. cbn [negb from_option].
    unfold EventDrivenGP.at_key. rewrite E, insert_id by exact E.
    reflexivity.
  - rewrite bool_decide_eq_false_2 by (intros [v Hv]; discriminate).
    cbn [negb from_option]. rewrite Set_insert. unfold EventDrivenGP.at_key.
    rewrite lookup_insert_eq. reflexivity.
Qed.

(** X24.  The accessors of a memory.  [GetLocal] and its like read
    without writing, and give the default 0 for a key that is not there.
    [SetLocal] stores the value under the key and touches no other key.
    [AccessLocal] gives what [GetLocal] gives; it creates the entry where
    there was none, but through [GetLocal] the memory looks as before, for
    every key; and two calls of [AccessLocal] leave the same memory in
    either order. *)
Theorem memory_accessors
    (m : EventDrivenGP.memory_t) (key key' : Z) (v : float) :
  EventDrivenGP.Get key m = (default 0%float (m !! key), m) /\
  EventDrivenGP.Set_ key v m = <[key := v]> m /\
  (EventDrivenGP.Access key m).1 = (EventDrivenGP.Get key m).1 /\
  is_Some ((EventDrivenGP.Access key m).2 !! key) /\
  (EventDrivenGP.Get key' (EventDrivenGP.Access key m).2).1 =
  (EventDrivenGP.Get key' m).1 /\
  (EventDrivenGP.Get key' (EventDrivenGP.Set_ key v m)).1 =
  (if decide (key' = key) then v else (EventDrivenGP.Get key' m).1) /\
  (EventDrivenGP.Access key' (EventDrivenGP.Access key m).2).2 =
  (EventDrivenGP.Access key (EventDrivenGP.Access key' m).2).2.
Proof.
  split; [apply Get_value|]. split; [apply Set_insert|].
  rewrite !Access_value, !Get_value, Set_insert. cbn [fst snd].
  split; [reflexivity|]. split; [rewrite lookup_insert_eq; eauto|].
  split; [|split].
  - destruct (decide (key = key')) as [->|Hne].
    + rewrite lookup_insert_eq. reflexivity.
    + rewrite lookup_insert_ne by exact Hne. reflexivity.
  - destruct (decide (key' = key)) as [->|Hne].
    + rewrite lookup_insert_eq. reflexivity.
    + rewrite lookup_insert_ne by congruence. reflexivity.
  - destruct (decide (key = key')) as [->|Hne].
    + reflexivity.
    + rewrite !lookup_insert_ne by congruence.
      apply insert_insert_ne. congruence.
Qed.

(** ** The arithmetic instructions *)

Lemma local_value s k :
  EventDrivenGP.local s k = default 0%float (EventDrivenGP.local_mem s !! k).
Proof.
  unfold EventDrivenGP.local, EventDrivenGP.GetLocal. rewrite Get_value.
  reflexivity.
Qed.

Lemma set_local_mem_same s :
  EventDrivenGP.set_local_mem (EventDrivenGP.local_mem s) s = s.
Proof. destruct s. reflexivity. Qed.

Lemma GetLocal_value k s :
  EventDrivenGP.GetLocal k s = (EventDrivenGP.local s k, s).
Proof.
  rewrite local_value. unfold EventDrivenGP.GetLocal. rewrite Get_value.
  rewrite set_local_mem_same. reflexivity.
Qed.

Lemma SetLocal_value k v s :
  EventDrivenGP.SetLocal k v s =
  EventDrivenGP.set_local_mem (<[k := v]> (EventDrivenGP.local_mem s)) s.
Proof. unfold EventDrivenGP.SetLocal. rewrite Set_insert. reflexivity. Qed.

Lemma AccessLocal_value k s :
  EventDrivenGP.AccessLocal k s =
  (EventDrivenGP.local s k,
   EventDrivenGP.set_local_mem
     (<[k := EventDrivenGP.local s k]> (EventDrivenGP.local_mem s)) s).
Proof.
  rewrite local_value. unfold EventDrivenGP.AccessLocal.
  rewrite Access_value. reflexivity.
Qed.

Lemma local_insert k v m s k' :
  EventDrivenGP.local (EventDrivenGP.set_local_mem (<[k := v]> m) s) k' =
  if decide (k' = k) then v else default 0%float (m !! k').
Proof.
  rewrite local_value. cbn [EventDrivenGP.local_mem EventDrivenGP.set_local_mem].
  destruct (decide (k' = k)) as [->|Hne].
  - rewrite lookup_insert_eq. reflexivity.
  - rewrite lookup_insert_ne by congruence. reflexivity.
Qed.

Lemma stores_local_body hw s rest key v body m :
  EventDrivenGP.cur_core hw = Some (s :: rest) ->
  body s = EventDrivenGP.set_local_mem (<[key := v]> m) s ->
  (forall k, k <> key -> default 0%float (m !! k) = EventDrivenGP.local s k) ->
  stores_local (EventDrivenGP.on_cur_state body hw) hw s rest key v.
Proof.
  intros Hc Hb Hm. unfold EventDrivenGP.on_cur_state. rewrite Hc, Hb.
  eexists. split; [reflexivity|]. split.
  - intros k. rewrite local_insert. destruct (decide (k = key)); [reflexivity|].
    apply Hm. assumption.
  - destruct s. reflexivity.
Qed.

Lemma touch_view (m : gmap Z float) k k' :
  default 0%float (<[k := default 0%float (m !! k)]> m !! k') =
  default 0%float (m !! k').
Proof.
  destruct (decide (k = k')) as [->|Hne].
  - rewrite lookup_insert_eq. reflexivity.
  - rewrite lookup_insert_ne by exact Hne. reflexivity.
Qed.

Lemma at_key_fst k (m : gmap Z float) :
  (EventDrivenGP.at_key k m).1 = default 0%float (m !! k).
Proof. unfold EventDrivenGP.at_key. destruct (m !! k); reflexivity. Qed.

Lemma unary_stores (f : float -> float) inst hw s rest :
  EventDrivenGP.cur_core hw = Some (s :: rest) ->
  stores_local
    (EventDrivenGP.on_cur_state
       (fun s => let (v, s) := EventDrivenGP.AccessLocal (EventDrivenGP.arg0 inst) s in
                 EventDrivenGP.SetLocal (EventDrivenGP.arg0 inst) (f v) s) hw)
    hw s rest (EventDrivenGP.arg0 inst)
    (f (EventDrivenGP.local s (EventDrivenGP.arg0 inst))).
Proof.
  intros Hc.
  apply (stores_local_body _ _ _ _ _ _
           (<[EventDrivenGP.arg0 inst :=
                EventDrivenGP.local s (EventDrivenGP.arg0 inst)]>
              (EventDrivenGP.local_mem s)) Hc).
  - rewrite AccessLocal_value, SetLocal_value. reflexivity.
  - intros k Hk. rewrite lookup_insert_ne by congruence.
    rewrite local_value. reflexivity.
Qed.

Lemma binary_stores op inst hw s rest :
  EventDrivenGP.cur_core hw = Some (s :: rest) ->
  stores_local (EventDrivenGP.on_cur_state (EventDrivenGP.binary op inst) hw)
    hw s rest (EventDrivenGP.arg2 inst)
    (op (EventDrivenGP.local s (EventDrivenGP.arg0 inst))
        (EventDrivenGP.local s (EventDrivenGP.arg1 inst))).
Proof.
  intros Hc.
  set (lm := EventDrivenGP.local_mem s).
  set (a0 := EventDrivenGP.arg0 inst). set (a1 := EventDrivenGP.arg1 inst).
  set (lm1 := <[a0 := default 0%float (lm !! a0)]> lm).
  set (lm2 := <[a1 := default 0%float (lm1 !! a1)]> lm1).
  assert (forall k, default 0%float (lm2 !! k) = EventDrivenGP.local s k) as Hv.
  { intros k. unfold lm2, lm1. rewrite !touch_view, local_value. reflexivity. }
  apply (stores_local_body _ _ _ _ _ _ lm2 Hc).
  - unfold EventDrivenGP.binary. rewrite AccessLocal_value.
    rewrite AccessLocal_value, SetLocal_value.
    cbn [EventDrivenGP.local_mem EventDrivenGP.set_local_mem].
    rewrite !local_value.
    cbn [EventDrivenGP.local_mem EventDrivenGP.set_local_mem].
    fold lm a0 a1. fold lm1. fold lm2.
    rewrite !at_key_fst, !Hv, !local_value. reflexivity.
  - intros k _. apply Hv.
Qed.

(** X25.  The arithmetic instructions on the local memory.  With a state
    on top of the current core, [Inst_Inc] and [Inst_Dec] store the value
    of [args[0]] plus or minus 1 under [args[0]], [Inst_Not] stores 1 there
    when the value is 0 and 0 otherwise, and [Inst_Add], [Inst_Sub] and
    [Inst_Mult] store under [args[2]] the sum, difference and product of
    the values of [args[0]] and [args[1]], a key that is not in the memory
    counting as 0.  Through [GetLocal] no other key has changed, though the
    keys read may have been created; the other members of the state, the
    rest of the call stack and the error counter are as before. *)
Theorem arithmetic_on_local_memory
    (inst : EventDrivenGP.Instruction) (hw : EventDrivenGP.Hardware)
    (s : EventDrivenGP.State) (rest : list EventDrivenGP.State) :
  EventDrivenGP.cur_core hw = Some (s :: rest) ->
  let x := EventDrivenGP.local s (EventDrivenGP.arg0 inst) in
  let y := EventDrivenGP.local s (EventDrivenGP.arg1 inst) in
  stores_local (EventDrivenGP.Inst_Inc inst hw) hw s rest
    (EventDrivenGP.arg0 inst) (PrimFloat.add x 1%float) /\
  stores_local (EventDrivenGP.Inst_Dec inst hw) hw s rest
    (EventDrivenGP.arg0 inst) (PrimFloat.sub x 1%float) /\
  stores_local (EventDrivenGP.Inst_Not inst hw) hw s rest
    (EventDrivenGP.arg0 inst) (double_of_bool (PrimFloat.eqb x 0%float)) /\
  stores_local (EventDrivenGP.Inst_Add inst hw) hw s rest
    (EventDrivenGP.arg2 inst) (PrimFloat.add x y) /\
  stores_local (EventDrivenGP.Inst_Sub inst hw) hw s rest
    (EventDrivenGP.arg2 inst) (PrimFloat.sub x y) /\
  stores_local (EventDrivenGP.Inst_Mult inst hw) hw s rest
    (EventDrivenGP.arg2 inst) (PrimFloat.mul x y).
Proof.
  intros Hc x y. subst x y.
  split; [exact (unary_stores (fun v => PrimFloat.add v 1%float) inst hw s rest Hc)|].
  split; [exact (unary_stores (fun v => PrimFloat.sub v 1%float) inst hw s rest Hc)|].
  split; [|repeat split; apply binary_stores, Hc].
  apply (stores_local_body _ _ _ _ _ _ (EventDrivenGP.local_mem s) Hc).
  - rewrite GetLocal_value, SetLocal_value. reflexivity.
  - intros k _. rewrite local_value. reflexivity.
Qed.

Lemma arithmetic_on_local_memory_witness :
  let inst := EventDrivenGP.mkInstruction 3 [# 1; 2; 1] [# false; false; false; false] in
  let x := EventDrivenGP.local called_state (EventDrivenGP.arg0 inst) in
  let y := EventDrivenGP.local called_state (EventDrivenGP.arg1 inst) in
  stores_local (EventDrivenGP.Inst_Inc inst calling_hardware) calling_hardware
    called_state [caller_state] (EventDrivenGP.arg0 inst) (PrimFloat.add x 1%float) /\
  stores_local (EventDrivenGP.Inst_Dec inst calling_hardware) calling_hardware
    called_state [caller_state] (EventDrivenGP.arg0 inst) (PrimFloat.sub x 1%float) /\
  stores_local (EventDrivenGP.Inst_Not inst calling_hardware) calling_hardware
    called_state [caller_state] (EventDrivenGP.arg0 inst)
    (double_of_bool (PrimFloat.eqb x 0%float)) /\
  stores_local (EventDrivenGP.Inst_Add inst calling_hardware) calling_hardware
    called_state [caller_state] (EventDrivenGP.arg2 inst) (PrimFloat.add x y) /\
  stores_local (EventDrivenGP.Inst_Sub inst calling_hardware) calling_hardware
    called_state [caller_state] (EventDrivenGP.arg2 inst) (PrimFloat.sub x y) /\
  stores_local (EventDrivenGP.Inst_Mult inst calling_hardware) calling_hardware
    called_state [caller_state] (EventDrivenGP.arg2 inst) (PrimFloat.mul x y).
Proof.
  intros inst.
  apply (arithmetic_on_local_memory inst calling_hardware called_state
           [caller_state]).
  reflexivity.
Defined.

(** X26.  [Inst_Div] on the local memory.  When the value of [args[1]] is
    0, a key that is not in the memory counting as 0, [Inst_Div] counts one
    error and stores nothing: through [GetLocal] every key is as before,
    though [args[1]] is now a key of the memory.  Otherwise it stores the
    quotient of the values of [args[0]] and [args[1]] under [args[2]] and
    counts no error. *)
Theorem Inst_Div_on_local_memory
    (inst : EventDrivenGP.Instruction) (hw : EventDrivenGP.Hardware)
    (s : EventDrivenGP.State) (rest : list EventDrivenGP.State) :
  EventDrivenGP.cur_core hw = Some (s :: rest) ->
  let x := EventDrivenGP.local s (EventDrivenGP.arg0 inst) in
  let y := EventDrivenGP.local s (EventDrivenGP.arg1 inst) in
  if PrimFloat.eqb y 0%float then
    exists s',
      EventDrivenGP.Inst_Div inst hw =
      Ok (EventDrivenGP.set_errors (size_t_incr (EventDrivenGP.errors hw))
            (EventDrivenGP.set_cur_core (Some (s' :: rest)) hw)) /\
      (forall k, EventDrivenGP.local s' k = EventDrivenGP.local s k) /\
      is_Some (EventDrivenGP.local_mem s' !! EventDrivenGP.arg1 inst) /\
      EventDrivenGP.set_local_mem (EventDrivenGP.local_mem s) s' = s
  else
    stores_local (EventDrivenGP.Inst_Div inst hw) hw s rest
      (EventDrivenGP.arg2 inst) (PrimFloat.div x y).
Proof.
  intros Hc x y. subst x y. unfold EventDrivenGP.Inst_Div.
  rewrite Hc, AccessLocal_value.
  set (lm := EventDrivenGP.local_mem s).
  set (a0 := EventDrivenGP.arg0 inst). set (a1 := EventDrivenGP.arg1 inst).
  destruct (PrimFloat.eqb (EventDrivenGP.local s a1) 0%float).
  - eexists. split; [reflexivity|]. split; [|split].
    + intros k. rewrite !local_value.
      cbn [EventDrivenGP.local_mem EventDrivenGP.set_local_mem].
      apply touch_view.
    + cbn [EventDrivenGP.local_mem EventDrivenGP.set_local_mem].
      rewrite lookup_insert_eq. eauto.
    + destruct s. reflexivity.
  - rewrite AccessLocal_value, SetLocal_value.
    cbn [EventDrivenGP.local_mem EventDrivenGP.set_local_mem].
    eexists. split; [reflexivity|]. split.
    + intros k. rewrite local_insert.
      rewrite (local_value (EventDrivenGP.set_local_mem _ s) a0).
      cbn [EventDrivenGP.local_mem EventDrivenGP.set_local_mem].
      rewrite (local_value s a1). fold lm.
      set (lm1 := <[a1 := default 0%float (lm !! a1)]> lm).
      rewrite (touch_view lm1 a0 k). unfold lm1. rewrite !touch_view.
      rewrite !local_value. reflexivity.
    + destruct s. reflexivity.
Qed.

Lemma Inst_Div_on_local_memory_witness :
  let inst := EventDrivenGP.mkInstruction 6 [# 1; 2; 3] [# false; false; false; false] in
  exists s',
    EventDrivenGP.Inst_Div inst calling_hardware =
    Ok (EventDrivenGP.set_errors (size_t_incr (EventDrivenGP.errors calling_hardware))
          (EventDrivenGP.set_cur_core (Some [s'; caller_state]) calling_hardware)) /\
    (forall k, EventDrivenGP.local s' k = EventDrivenGP.local called_state k) /\
    is_Some (EventDrivenGP.local_mem s' !! EventDrivenGP.arg1 inst) /\
    EventDrivenGP.set_local_mem (EventDrivenGP.local_mem called_state) s' =
    called_state.
Proof.
  intros inst.
  apply (Inst_Div_on_local_memory inst calling_hardware called_state
           [caller_state]).
  reflexivity.
Defined.

(** ** [ReturnFunction] *)

Lemma copy_outputs_value l : forall c,
  NoDup l.*1 ->
  EventDrivenGP.copy_outputs l c =
  EventDrivenGP.set_local_mem (list_to_map l ∪ EventDrivenGP.local_mem c) c.
Proof.
  unfold EventDrivenGP.copy_outputs.
  induction l as [|[k v] l IH]; intros c Hnd.
  - cbn [foldl]. rewrite list_to_map_nil, (left_id_L ∅ (∪)).
    symmetry. apply set_local_mem_same.
  - apply NoDup_cons in Hnd as [Hk Hnd]. cbn [foldl fst snd].
    rewrite (IH _ Hnd), SetLocal_value, list_to_map_cons.
    cbn [EventDrivenGP.local_mem EventDrivenGP.set_local_mem].
    rewrite <- insert_union_l, <- insert_union_r
      by (apply not_elem_of_list_to_map_1, Hk).
    reflexivity.
Qed.

(** X27.  [ReturnFunction] hands the outputs to the caller.  The state on
    top of the current core is popped, and the local memory of the state
    beneath becomes the output memory of the state popped over what the
    caller held: [GetLocal] gives the output for every key the output
    memory holds and the caller's own value for every other key, in
    whatever order the loop goes through the map.  Nothing else of the
    caller changes.  With no state beneath only the pop happens, and with
    no state at all the assertion fails. *)
Theorem ReturnFunction_hands_outputs_over
    (hw : EventDrivenGP.Hardware) (returning : EventDrivenGP.State) :
  (forall (caller : EventDrivenGP.State) (rest : list EventDrivenGP.State),
     EventDrivenGP.cur_core hw = Some (returning :: caller :: rest) ->
     exists caller',
       EventDrivenGP.ReturnFunction hw =
       Ok (EventDrivenGP.set_cur_core (Some (caller' :: rest)) hw) /\
       EventDrivenGP.local_mem caller' =
       EventDrivenGP.output_mem returning ∪ EventDrivenGP.local_mem caller /\
       (forall k,
          EventDrivenGP.local caller' k =
          match EventDrivenGP.output_mem returning !! k with
          | Some v => v
          | None => EventDrivenGP.local caller k
          end) /\
       EventDrivenGP.set_local_mem (EventDrivenGP.local_mem caller) caller' =
       caller) /\
  (EventDrivenGP.cur_core hw = Some [returning] ->
   EventDrivenGP.ReturnFunction hw =
   Ok (EventDrivenGP.set_cur_core (Some []) hw)) /\
  (EventDrivenGP.GetCurState hw = None ->
   EventDrivenGP.ReturnFunction hw = Err AssertFail).
Proof.
  split; [|split].
  - intros caller rest Hc. unfold EventDrivenGP.ReturnFunction. rewrite Hc.
    rewrite copy_outputs_value by apply NoDup_fst_map_to_list.
    rewrite list_to_map_to_list.
    eexists. split; [reflexivity|].
    cbn [EventDrivenGP.local_mem EventDrivenGP.set_local_mem].
    split; [reflexivity|]. split; [|destruct caller; reflexivity].
    intros k. rewrite !local_value.
    cbn [EventDrivenGP.local_mem EventDrivenGP.set_local_mem].
    rewrite lookup_union.
    destruct (EventDrivenGP.output_mem returning !! k) as [v|];
      destruct (EventDrivenGP.local_mem caller !! k); reflexivity.
  - intros Hc. unfold EventDrivenGP.ReturnFunction. rewrite Hc. reflexivity.
  - unfold EventDrivenGP.GetCurState, EventDrivenGP.ReturnFunction.
    destruct (EventDrivenGP.cur_core hw) as [[|s stack]|];
      [reflexivity | discriminate | reflexivity].
Qed.

Lemma ReturnFunction_hands_outputs_over_witness :
  (exists caller',
     EventDrivenGP.ReturnFunction calling_hardware =
     Ok (EventDrivenGP.set_cur_core (Some [caller']) calling_hardware) /\
     EventDrivenGP.local_mem caller' =
     EventDrivenGP.output_mem called_state ∪ EventDrivenGP.local_mem caller_state /\
     (forall k,
        EventDrivenGP.local caller' k =
        match EventDrivenGP.output_mem called_state !! k with
        | Some v => v
        | None => EventDrivenGP.local caller_state k
        end) /\
     EventDrivenGP.set_local_mem (EventDrivenGP.local_mem caller_state) caller' =
     caller_state) /\
  EventDrivenGP.ReturnFunction
    (EventDrivenGP.set_cur_core (Some [called_state]) calling_hardware) =
  Ok (EventDrivenGP.set_cur_core (Some [])
        (EventDrivenGP.set_cur_core (Some [called_state]) calling_hardware)) /\
  EventDrivenGP.ReturnFunction
    (EventDrivenGP.set_cur_core None calling_hardware) = Err AssertFail.
Proof.
  split; [|split].
  - apply (proj1 (ReturnFunction_hands_outputs_over calling_hardware
                    called_state) caller_state []).
    reflexivity.
  - apply (proj1 (proj2 (ReturnFunction_hands_outputs_over
                           (EventDrivenGP.set_cur_core (Some [called_state])
                              calling_hardware) called_state))).
    reflexivity.
  - apply (proj2 (proj2 (ReturnFunction_hands_outputs_over
                           (EventDrivenGP.set_cur_core None calling_hardware)
                           called_state))).
    reflexivity.
Defined.

(** * AvidaGP, continued: the end of a loop *)

Lemma ProcessInst_fuel_S n inst st :
  ProcessInst_fuel (S n) inst st =
  ProcessInst_body (UpdateScope_fuel n) inst st.
Proof. reflexivity. Qed.

Lemma UpdateScope_loop_back n new_scope ty st top below rest head :
  scope_stack st = top :: below :: rest -> type top = LOOP ->
  size (scope_stack st) <= Z.of_nat REGS -> reg_stack st = [] ->
  genome st !! Z.to_nat (start_pos top) = Some head ->
  0 <= start_pos top < 2 ^ 64 ->
  size_t_incr new_scope <= scope top ->
  UpdateScope_fuel (S n) new_scope ty st =
  bind (ProcessInst_fuel n head) (fun _ => ret false)
    (set_scope_stack (below :: rest) (set_inst_ptr (start_pos top) st)).
Proof.
  intros Hss Hty Hlen Hrs Hhead Hp Hle.
  rewrite UpdateScope_fuel_S. unfold UpdateScope_body, CurScope.
  rewrite bind_assoc, bind_get, Hss. cbn [vector_back].
  rewrite bind_assoc, !bind_ret.
  destruct (Z.ltb_spec (scope top) (size_t_incr new_scope)) as [Hlt|_]; [lia|].
  unfold CurScopeType. rewrite bind_assoc, bind_get, Hss. cbn [vector_back].
  rewrite bind_assoc, !bind_ret, Hty. cbv iota.
  rewrite bind_get, Hss. cbn [vector_back]. rewrite bind_ret, bind_modify.
  rewrite (bind_Ok _ _ _ _ _
             (ExitScope_no_backups (set_inst_ptr (start_pos top) st)
                top below rest Hss Hlen Hrs)).
  rewrite !bind_get. cbn [genome inst_ptr set_scope_stack set_inst_ptr].
  rewrite (bind_Ok _ _ _ _ _
             (vector_at_ok (genome st) (start_pos top) head _
                ltac:(rewrite to_size_t_small by exact Hp; exact Hhead))).
  reflexivity.
Qed.

(** X28.  The end of a [While] loop.  A [Scope] instruction that closes
    the scope of a loop is executed with the [LOOP] frame of a [While] on
    top (no register backed up, at most [REGS] frames).  [UpdateScope]
    goes back to the [While] and runs it again.  When its test holds, the
    machine is as it was with [inst_ptr] on the [While]: the frame is the
    same and the body comes next.  When its test fails, the loop frame is
    gone and [inst_ptr] is just before the first instruction after the
    [While] that declares a scope no deeper than the loop's.  In both
    cases the [Scope] instruction does nothing else: it is executed again
    when [inst_ptr] reaches it. *)
Theorem While_loop_end
    (inst head : Instruction) (a : fin REGS) (st : AvidaGP)
    (top below : ScopeInfo) (rest : list ScopeInfo) :
  id inst = Scope ->
  scope_stack st = top :: below :: rest -> type top = LOOP ->
  size (scope_stack st) <= Z.of_nat REGS -> reg_stack st = [] ->
  genome st !! Z.to_nat (start_pos top) = Some head ->
  0 <= start_pos top < 2 ^ 64 - 1 -> size (genome st) < 2 ^ 64 ->
  id head = While -> to_size_t (arg0 head) = rix a ->
  size_t_incr (to_size_t (arg1 head)) = scope top ->
  scope below < scope top ->
  size_t_incr (to_size_t (arg0 inst)) <= scope top ->
  (double_is_zero (regs st !!! a) = false ->
   ProcessInst inst st = Ok (tt, set_inst_ptr (start_pos top) st)) /\
  (double_is_zero (regs st !!! a) = true ->
   forall st',
     ProcessInst inst st = Ok (tt, st') ->
     scope_stack st' = below :: rest /\ genome st' = genome st /\
     lands (scope top) (genome st) (start_pos top) (inst_ptr st')).
Proof.
  intros Hid Hss Hty Hlen Hrs Hhead Hp Hfit Hwhile Ha Hlevel Hbelow Hle.
  assert (forall r,
            ProcessInst inst st = r <->
            bind (bind (ProcessInst_fuel (S (S (4 * length rest + 10))) head)
                    (fun _ => ret false)) (fun _ => ret tt)
              (set_scope_stack (below :: rest)
                 (set_inst_ptr (start_pos top) st)) = r) as Hrun.
  { intros r. rewrite ProcessInst_unfold.
    replace (4 * length (scope_stack st) + 5)%nat
      with (S (S (S (4 * length rest + 10))))
      by (rewrite Hss; cbn [length]; lia).
    unfold ProcessInst_body at 1. rewrite Hid. cbv iota.
    unfold bind at 1.
    rewrite (UpdateScope_loop_back _ _ BASIC st top below rest head
               Hss Hty Hlen Hrs Hhead ltac:(lia) Hle).
    reflexivity. }
  set (st1 := set_scope_stack (below :: rest)
                (set_inst_ptr (start_pos top) st)) in *.
  assert (UpdateScope_fuel (S (4 * length rest + 10))
            (to_size_t (arg1 head)) LOOP st1 =
          Ok (true, enter (to_size_t (arg1 head)) LOOP st1)) as Henter.
  { apply (UpdateScope_fuel_enters _ _ LOOP st1 below rest);
      [reflexivity | rewrite Hlevel; exact Hbelow]. }
  assert (enter (to_size_t (arg1 head)) LOOP st1 =
          set_inst_ptr (start_pos top) st) as Hsame.
  { unfold enter, st1. rewrite Hlevel.
    cbn [inst_ptr scope_stack set_scope_stack set_inst_ptr].
    destruct st as [g rg inp out stk fs ip ss rs cs er].
    destruct top as [lv ty' sp]. cbn in Hss, Hty |- *. subst ss ty'.
    reflexivity. }
  assert (ProcessInst_fuel (S (S (4 * length rest + 10))) head st1 =
          (if double_is_zero (regs st !!! a)
           then BypassScope (to_size_t (arg1 head))
                  (enter (to_size_t (arg1 head)) LOOP st1)
           else Ok (tt, set_inst_ptr (start_pos top) st))) as Hhead_run.
  { rewrite ProcessInst_fuel_S. unfold ProcessInst_body. rewrite Hwhile.
    cbv iota. rewrite (bind_Ok _ _ _ _ _ Henter). cbn [negb].
    rewrite (bind_Ok _ _ _ _ _ (reg_read_eq _ a _ Ha)).
    change (regs (enter (to_size_t (arg1 head)) LOOP st1)) with (regs st).
    destruct (double_is_zero (regs st !!! a)); [reflexivity|].
    rewrite Hsame. reflexivity. }
  split.
  - intros Htest. apply Hrun. rewrite Htest in Hhead_run.
    rewrite bind_assoc, (bind_Ok _ _ _ _ _ Hhead_run). reflexivity.
  - intros Htest st' H. apply Hrun in H. rewrite Htest in Hhead_run.
    apply bind_inv in H as (b & st2 & H & H2).
    apply ret_inv in H2 as [_ ->].
    apply bind_inv in H as ([] & st3 & H & H2).
    apply ret_inv in H2 as [_ ->]. rewrite Hhead_run in H.
    apply (BypassScope_after_enter _ _ st1 st3 below rest) in H;
      [|exact Hfit|exact Hp|reflexivity].
    rewrite Hlevel in H. exact H.
Qed.

Lemma loop_left_state_run :
  ProcessInst (Inst Scope 0 0 0) loop_done_state = Ok (tt, loop_left_state).
Proof. vm_compute. reflexivity. Qed.

Lemma While_loop_end_witness :
  ProcessInst (Inst Scope 0 0 0) loop_round_state =
  Ok (tt, set_inst_ptr (start_pos (mkScopeInfo 1 LOOP 1)) loop_round_state) /\
  (scope_stack loop_left_state = [mkScopeInfo 0 ROOT 0] /\
   genome loop_left_state = genome loop_done_state /\
   lands (scope (mkScopeInfo 1 LOOP 1)) (genome loop_done_state)
     (start_pos (mkScopeInfo 1 LOOP 1)) (inst_ptr loop_left_state)).
Proof.
  split.
  - apply (proj1 (While_loop_end (Inst Scope 0 0 0) (Inst While 0 0 0) 0%fin
                    loop_round_state (mkScopeInfo 1 LOOP 1)
                    (mkScopeInfo 0 ROOT 0) []
                    eq_refl eq_refl eq_refl ltac:(vm_compute; discriminate)
                    eq_refl eq_refl
                    ltac:(split; [vm_compute; discriminate | reflexivity])
                    eq_refl eq_refl eq_refl eq_refl eq_refl
                    ltac:(vm_compute; discriminate))).
    reflexivity.
  - apply (proj2 (While_loop_end (Inst Scope 0 0 0) (Inst While 0 0 0) 0%fin
                    loop_done_state (mkScopeInfo 1 LOOP 1)
                    (mkScopeInfo 0 ROOT 0) []
                    eq_refl eq_refl eq_refl ltac:(vm_compute; discriminate)
                    eq_refl eq_refl
                    ltac:(split; [vm_compute; discriminate | reflexivity])
                    eq_refl eq_refl eq_refl eq_refl eq_refl
                    ltac:(vm_compute; discriminate))).
    + reflexivity.
    + exact loop_left_state_run.
Defined.

(** ** Registers and outputs read back *)

(** X29.  What is stored is read back.  [SetReg a v] makes [GetReg(a)]
    give [v] as a [double]; [Output a b] makes [GetOutput(b)] give
    [regs[a]] and leaves the registers alone; [CopyVal a b] makes
    [GetReg(b)] give [regs[a]].  The accessors do not change the
    machine. *)
Theorem stored_values_are_read_back
    (inst : Instruction) (a b : fin REGS) (st : AvidaGP) :
  to_size_t (arg0 inst) = rix a ->
  (id inst = SetReg ->
   exists st',
     ProcessInst inst st = Ok (tt, st') /\
     GetReg (rix a) st' = Ok (double_of_int (arg1 inst), st')) /\
  (to_size_t (arg1 inst) = rix b ->
   (id inst = Output ->
    exists st',
      ProcessInst inst st = Ok (tt, st') /\
      GetOutput (rix b) st' = Ok (regs st !!! a, st') /\
      regs st' = regs st) /\
   (id inst = CopyVal ->
    exists st',
      ProcessInst inst st = Ok (tt, st') /\
      GetReg (rix b) st' = Ok (regs st !!! a, st'))).
Proof.
  intros Ha. split; [|intros Hb; split]; intros Hid;
    rewrite ProcessInst_unfold; unfold ProcessInst_body; rewrite Hid;
    cbv iota.
  - rewrite (reg_write_eq _ a _ st Ha). eexists. split; [reflexivity|].
    unfold GetReg. rewrite reg_read_rix. cbn [regs set_regs].
    rewrite vlookup_insert. reflexivity.
  - rewrite (bind_Ok _ _ _ _ _ (reg_read_eq _ a _ Ha)).
    rewrite (bind_Ok _ _ _ _ _ (array_index_eq _ b _ Hb)), bind_get.
    eexists. split; [reflexivity|]. split; [|reflexivity].
    unfold GetOutput.
    rewrite (bind_Ok _ _ _ _ _ (array_index_rix b _)), bind_get.
    cbn [outputs set_outputs]. rewrite vlookup_insert. reflexivity.
  - rewrite (bind_Ok _ _ _ _ _ (reg_read_eq _ a _ Ha)).
    rewrite (reg_write_eq _ b _ st Hb). eexists. split; [reflexivity|].
    unfold GetReg. rewrite reg_read_rix. cbn [regs set_regs].
    rewrite vlookup_insert. reflexivity.
Qed.

Lemma stored_values_are_read_back_witness :
  (exists st',
     ProcessInst (Inst SetReg 4 (-7) 0) skip_state = Ok (tt, st') /\
     GetReg (rix 4%fin) st' =
     Ok (double_of_int (arg1 (Inst SetReg 4 (-7) 0)), st')) /\
  (exists st',
     ProcessInst (Inst Output 4 9 0) skip_state = Ok (tt, st') /\
     GetOutput (rix 9%fin) st' = Ok (regs skip_state !!! 4%fin, st') /\
     regs st' = regs skip_state) /\
  (exists st',
     ProcessInst (Inst CopyVal 4 9 0) skip_state = Ok (tt, st') /\
     GetReg (rix 9%fin) st' = Ok (regs skip_state !!! 4%fin, st')).
Proof.
  split; [|split].
  - apply (proj1 (stored_values_are_read_back (Inst SetReg 4 (-7) 0)
                    4%fin 0%fin skip_state eq_refl)).
    reflexivity.
  - apply (proj1 (proj2 (stored_values_are_read_back (Inst Output 4 9 0)
                           4%fin 9%fin skip_state eq_refl) eq_refl)).
    reflexivity.
  - apply (proj2 (proj2 (stored_values_are_read_back (Inst CopyVal 4 9 0)
                           4%fin 9%fin skip_state eq_refl) eq_refl)).
    reflexivity.
Defined.

(** * The searches of [vector_utils.h] *)

Lemma FindPos_from_first {T} `{EqDecision T} (vec : list T) (val : T) :
  forall i, 0 <= i -> i + size vec <= 2 ^ 31 ->
  (FindPos_from i vec val = -1 /\ val ∉ vec) \/
  (exists n : nat,
     FindPos_from i vec val = i + Z.of_nat n /\ vec !! n = Some val /\
     forall j, (j < n)%nat -> vec !! j <> Some val).
Proof.
  induction vec as [|x vec IH]; intros i H0 Hi; cbn [FindPos_from].
  - left. split; [reflexivity | apply not_elem_of_nil].
  - unfold size in *. cbn [length] in Hi.
    destruct (decide (x = val)) as [->|Hne].
    + right. exists 0%nat. rewrite to_int_small by lia.
      split; [lia|]. split; [reflexivity|]. intros j Hj. lia.
    + rewrite size_t_incr_small by lia.
      destruct (IH (i + 1) ltac:(lia) ltac:(lia))
        as [[Hr Hnot]|(n & Hr & Hn & Hfirst)].
      * left. split; [exact Hr|]. apply not_elem_of_cons. split; congruence.
      * right. exists (S n). split; [lia|]. split; [exact Hn|].
        intros [|j] Hj; cbn; [congruence|]. apply Hfirst. lia.
Qed.

(** X30.  [FindPos] and [Has] on vectors.  For a vector of at most [2^31]
    elements, so that every position fits the [int] returned, [FindPos]
    returns -1 exactly when the value is not in the vector, and otherwise
    the first position that holds it; [Has] tells whether the value is in
    the vector. *)
Theorem FindPos_finds_first {T} `{EqDecision T} (vec : list T) (val : T) :
  size vec <= 2 ^ 31 ->
  (FindPos vec val = -1 <-> val ∉ vec) /\
  (Has vec val = true <-> val ∈ vec) /\
  (forall n : nat,
     FindPos vec val = Z.of_nat n <->
     vec !! n = Some val /\ forall j, (j < n)%nat -> vec !! j <> Some val).
Proof.
  intros Hlen. unfold Has, FindPos.
  destruct (FindPos_from_first vec val 0 ltac:(lia) ltac:(lia))
    as [[Hr Hnot]|(n & Hr & Hn & Hfirst)]; rewrite Hr.
  - split; [tauto|]. split.
    + split; [discriminate | contradiction].
    + intros n. split; [lia|]. intros [Hn _]. exfalso. apply Hnot.
      eapply list_elem_of_lookup_2, Hn.
  - assert (val ∈ vec) as Hin by (eapply list_elem_of_lookup_2, Hn).
    split; [split; [lia | contradiction]|]. split.
    + split; [intros _; exact Hin | intros _; apply Z.leb_le; lia].
    + intros m. split.
      * intros Hm. assert (m = n) as -> by lia. split; assumption.
      * intros [Hm Hmfirst].
        destruct (Nat.lt_trichotomy m n) as [Hlt|[->|Hgt]]; [|lia|].
        -- exfalso. exact (Hfirst m Hlt Hm).
        -- exfalso. exact (Hmfirst n Hgt Hn).
Qed.

Lemma FindPos_finds_first_witness :
  (FindPos [3; 1; 4; 1; 5] 1 = -1 <-> 1 ∉ [3; 1; 4; 1; 5]) /\
  (Has [3; 1; 4; 1; 5] 1 = true <-> 1 ∈ [3; 1; 4; 1; 5]) /\
  (forall n : nat,
     FindPos [3; 1; 4; 1; 5] 1 = Z.of_nat n <->
     [3; 1; 4; 1; 5] !! n = Some 1 /\
     forall j, (j < n)%nat -> [3; 1; 4; 1; 5] !! j <> Some 1).
Proof.
  apply (FindPos_finds_first [3; 1; 4; 1; 5] 1).
  vm_compute. discriminate.
Defined.
